(** * dirc: a directory-structure linter

    A shallow embedding of [dirc/spec.py] (the parser of the indentation
    based specification language) and of [dirc/compiler.py] (the compiler
    from rule trees to a Bash validator), followed by the properties of the
    two stages.

    Python [str] values are modelled by [string]; a character is a code
    point below 256.  The validator that [compile_to_bash] emits is embedded
    by its meaning: every shell function [rule_N] becomes the Rocq function
    [compile_node] applied to node [N], run against a file system given as an
    oracle for the three queries the script performs ([[ -d p ]],
    [[ -f p ]] and the expansion of ["$path"/*]). *)

From Stdlib Require Import Strings.String Strings.Ascii Lists.List.
From Stdlib Require Import Arith.Arith Bool.Bool micromega.Lia.
From Stdlib Require Import Numbers.DecimalString.
Import ListNotations.
Set Warnings "-register-all".
Open Scope string_scope.
Open Scope list_scope.
Open Scope nat_scope.

(** ** Python string primitives *)

Module PyStr.

(** [str.isspace] on one character, for code points below 256:
    TAB..CR, FS..US, SPACE, NEL and NBSP. *)
Definition isspace (c : ascii) : bool :=
  let n := nat_of_ascii c in
  ((9 <=? n) && (n <=? 13)) || ((28 <=? n) && (n <=? 32))
  || (n =? 133) || (n =? 160).

Definition tab : ascii := ascii_of_nat 9.
Definition lf : ascii := ascii_of_nat 10.
Definition cr : ascii := ascii_of_nat 13.

(** [s.lstrip()] *)
Fixpoint lstrip (s : string) : string :=
  match s with
  | EmptyString => EmptyString
  | String c s' => if isspace c then lstrip s' else s
  end.

(** [s.rstrip()] *)
Fixpoint rstrip (s : string) : string :=
  match s with
  | EmptyString => EmptyString
  | String c s' =>
      match rstrip s' with
      | EmptyString => if isspace c then EmptyString else String c EmptyString
      | r => String c r
      end
  end.

(** [s.strip()] *)
Definition strip (s : string) : string := rstrip (lstrip s).

(** [s.lstrip(" ")] *)
Fixpoint lstrip_spaces (s : string) : string :=
  match s with
  | EmptyString => EmptyString
  | String c s' => if Ascii.eqb c " " then lstrip_spaces s' else s
  end.

Fixpoint spaces (n : nat) : string :=
  match n with
  | 0 => EmptyString
  | S k => String " " (spaces k)
  end.

(** [s.expandtabs(tabsize)], with the running column made explicit. *)
Fixpoint expandtabs_from (tabsize col : nat) (s : string) : string :=
  match s with
  | EmptyString => EmptyString
  | String c s' =>
      if Ascii.eqb c tab then
        if tabsize =? 0 then expandtabs_from tabsize col s'
        else
          let incr := tabsize - col mod tabsize in
          spaces incr ++ expandtabs_from tabsize (col + incr) s'
      else if Ascii.eqb c lf || Ascii.eqb c cr then
        String c (expandtabs_from tabsize 0 s')
      else String c (expandtabs_from tabsize (S col) s')
  end.

Definition expandtabs (tabsize : nat) (s : string) : string :=
  expandtabs_from tabsize 0 s.

(** [s[n:]] *)
Fixpoint drop (n : nat) (s : string) : string :=
  match n, s with
  | 0, _ => s
  | S k, String _ s' => drop k s'
  | S _, EmptyString => EmptyString
  end.

(** [s.startswith(p)] *)
Definition startswith (p s : string) : bool := String.prefix p s.

(** [c in s] for a one-character [c] *)
Fixpoint contains (c : ascii) (s : string) : bool :=
  match s with
  | EmptyString => false
  | String d s' => Ascii.eqb c d || contains c s'
  end.

(** [s.endswith(c)] for a one-character [c] *)
Fixpoint endswith (c : ascii) (s : string) : bool :=
  match s with
  | EmptyString => false
  | String d EmptyString => Ascii.eqb c d
  | String _ s' => endswith c s'
  end.

(** [s[:-1]] *)
Fixpoint chop (s : string) : string :=
  match s with
  | EmptyString => EmptyString
  | String _ EmptyString => EmptyString
  | String c s' => String c (chop s')
  end.

(** [s.split(c)] for a one-character separator *)
Fixpoint split (c : ascii) (s : string) : list string :=
  match s with
  | EmptyString => [EmptyString]
  | String d s' =>
      if Ascii.eqb c d then EmptyString :: split c s'
      else match split c s' with
           | w :: ws => String d w :: ws
           | [] => [String d EmptyString]
           end
  end.

(** [sep.join(l)] *)
Fixpoint join (sep : string) (l : list string) : string :=
  match l with
  | [] => EmptyString
  | [w] => w
  | w :: ws => w ++ sep ++ join sep ws
  end.

(** [re.sub(r"\s+", "", s)] *)
Fixpoint remove_space (s : string) : string :=
  match s with
  | EmptyString => EmptyString
  | String c s' => if isspace c then remove_space s' else String c (remove_space s')
  end.

(** The separators of [str.splitlines] below code point 256. *)
Definition is_linebreak (c : ascii) : bool :=
  let n := nat_of_ascii c in
  ((10 <=? n) && (n <=? 13)) || ((28 <=? n) && (n <=? 30)) || (n =? 133).

(** [s.splitlines()]: [cur] is the line read so far; a CR directly
    followed by LF is one separator; a final separator opens no empty line. *)
Fixpoint splitlines_from (cur : string) (s : string) : list string :=
  match s with
  | EmptyString => match cur with EmptyString => [] | _ => [cur] end
  | String c s' =>
      if is_linebreak c then
        match s' with
        | String d s'' =>
            if Ascii.eqb c cr && Ascii.eqb d lf
            then cur :: splitlines_from EmptyString s''
            else cur :: splitlines_from EmptyString s'
        | EmptyString => [cur]
        end
      else splitlines_from (cur ++ String c EmptyString) s'
  end.

Definition splitlines (s : string) : list string :=
  splitlines_from EmptyString s.

(** [str(n)] for a natural number *)
Definition str_of_nat (n : nat) : string :=
  NilZero.string_of_uint (Nat.to_uint n).

End PyStr.

(** ** Shell pattern matching

    The pattern language of Bash's [[[ name == pattern ]]] with [extglob]
    switched on, which is what the emitted script uses to compare a basename
    with an entry of one of its tables: [*], [?], bracket expressions with
    ranges and negation, backslash escapes and the five extended operators
    [?(..)], [*(..)], [+(..)], [@(..)] and [!(..)].  A bracket expression
    is read in its plain form, as characters and ranges with an optional
    negation: named character classes such as [[:alpha:]], collating symbols,
    equivalence classes and a backslash inside the brackets are not
    modelled.  In this position a leading dot and a slash are ordinary
    characters. *)

Module Glob.

Inductive ext_op := OptOf | StarOf | PlusOf | OneOf | NoneOf.

Inductive pat :=
| PChar (c : ascii)
| PAny
| PStar
| PSet (neg : bool) (items : list (ascii * ascii))
| PExt (op : ext_op) (alts : list (list pat)).

Definition ext_op_of (c : ascii) : option ext_op :=
  if Ascii.eqb c "?" then Some OptOf
  else if Ascii.eqb c "*" then Some StarOf
  else if Ascii.eqb c "+" then Some PlusOf
  else if Ascii.eqb c "@" then Some OneOf
  else if Ascii.eqb c "!" then Some NoneOf
  else None.

(** The items of a bracket expression, up to the closing bracket; [first]
    holds at the position where a closing bracket stands for itself. *)
Fixpoint parse_items (first : bool) (s : string)
  : option (list (ascii * ascii) * string) :=
  let item lo hi rest :=
    match rest with
    | Some (l, r) => Some ((lo, hi) :: l, r)
    | None => None
    end in
  match s with
  | EmptyString => None
  | String a s' =>
      if Ascii.eqb a "]" && negb first then Some ([], s')
      else
        match s' with
        | String d (String b s'') =>
            if Ascii.eqb d "-" && negb (Ascii.eqb b "]")
            then item a b (parse_items false s'')
            else item a a (parse_items false s')
        | _ => item a a (parse_items false s')
        end
  end.

Definition parse_bracket (s : string) : option (pat * string) :=
  let body neg t :=
    match parse_items true t with
    | Some (l, r) => Some (PSet neg l, r)
    | None => None
    end in
  match s with
  | String c s' =>
      if Ascii.eqb c "!" || Ascii.eqb c "^" then body true s' else body false s
  | EmptyString => None
  end.

Inductive stop :=
| AtEnd
| AtBar (rest : string)
| AtClose (rest : string).

(** One character that does not open an extended group. *)
Definition parse_plain (c : ascii) (s' : string) : pat * string :=
  if Ascii.eqb c "\" then
    match s' with
    | String d s'' => (PChar d, s'')
    | EmptyString => (PChar c, s')
    end
  else if Ascii.eqb c "*" then (PStar, s')
  else if Ascii.eqb c "?" then (PAny, s')
  else if Ascii.eqb c "[" then
    match parse_bracket s' with
    | Some (p, r) => (p, r)
    | None => (PChar c, s')
    end
  else (PChar c, s').

(** A sequence of pattern items; inside a group ([grp]) it ends at a bar or
    at the closing parenthesis.  A group that is never closed is no group:
    its opening characters keep their plain meaning. *)
Fixpoint parse_seq (fuel : nat) (grp : bool) (s : string) : list pat * stop :=
  match fuel with
  | 0 => ([], AtEnd)
  | S f =>
      match s with
      | EmptyString => ([], AtEnd)
      | String c s' =>
          if grp && Ascii.eqb c "|" then ([], AtBar s')
          else if grp && Ascii.eqb c ")" then ([], AtClose s')
          else
            let plain :=
              let '(p, r) := parse_plain c s' in
              let '(ps, st) := parse_seq f grp r in (p :: ps, st) in
            match ext_op_of c, s' with
            | Some op, String d s'' =>
                if Ascii.eqb d "(" then
                  match parse_alts f s'' with
                  | Some (alts, r) =>
                      let '(ps, st) := parse_seq f grp r in
                      (PExt op alts :: ps, st)
                  | None => plain
                  end
                else plain
            | _, _ => plain
            end
      end
  end
with parse_alts (fuel : nat) (s : string) : option (list (list pat) * string) :=
  match fuel with
  | 0 => None
  | S f =>
      match parse_seq f true s with
      | (_, AtEnd) => None
      | (p, AtBar r) =>
          match parse_alts f r with
          | Some (alts, r') => Some (p :: alts, r')
          | None => None
          end
      | (p, AtClose r) => Some ([p], r)
      end
  end.

Definition parse (s : string) : list pat :=
  fst (parse_seq (2 * String.length s + 2) false s).

(** All the ways to cut a string in two. *)
Fixpoint splits (s : string) : list (string * string) :=
  match s with
  | EmptyString => [(EmptyString, EmptyString)]
  | String c s' =>
      (EmptyString, s) :: map (fun ab => (String c (fst ab), snd ab)) (splits s')
  end.

(** [s] is a concatenation of non-empty pieces accepted by [f]. *)
Fixpoint pieces (f : string -> bool) (fuel : nat) (s : string) : bool :=
  match s with
  | EmptyString => true
  | _ =>
      match fuel with
      | 0 => false
      | S k =>
          existsb
            (fun ab =>
               negb (String.eqb (fst ab) EmptyString)
               && f (fst ab) && pieces f k (snd ab))
            (splits s)
      end
  end.

Definition in_range (c : ascii) (r : ascii * ascii) : bool :=
  (nat_of_ascii (fst r) <=? nat_of_ascii c)
  && (nat_of_ascii c <=? nat_of_ascii (snd r)).

Section Sequence.
Variable match_pat : pat -> string -> bool.

(** A sequence matches when the string can be cut so that every item
    matches its part. *)
Fixpoint match_items (ps : list pat) (s : string) : bool :=
  match ps with
  | [] => String.eqb s EmptyString
  | p :: ps' =>
      existsb (fun ab => match_pat p (fst ab) && match_items ps' (snd ab))
              (splits s)
  end.
End Sequence.

Fixpoint match_pat (p : pat) (s : string) {struct p} : bool :=
  match p with
  | PChar c => String.eqb s (String c EmptyString)
  | PAny => String.length s =? 1
  | PStar => true
  | PSet neg items =>
      match s with
      | String c EmptyString => xorb neg (existsb (in_range c) items)
      | _ => false
      end
  | PExt op alts =>
      let one t := existsb (fun alt => match_items match_pat alt t) alts in
      match op with
      | OneOf => one s
      | OptOf => String.eqb s EmptyString || one s
      | StarOf => pieces one (String.length s) s
      | PlusOf =>
          negb (String.eqb s EmptyString) && pieces one (String.length s) s
          || one s
      | NoneOf => negb (one s)
      end
  end.

Definition match_seq : list pat -> string -> bool := match_items match_pat.

(** [[[ name == pat ]]] *)
Definition glob_match (pat name : string) : bool := match_seq (parse pat) name.

End Glob.

(** ** The specification parser ([dirc/spec.py]) *)

Module SpecPy.
Import PyStr.

(** [glob_has_magic]: the regular expression [[*?[]] finds a character. *)
Definition glob_has_magic (s : string) : bool :=
  contains "*" s || contains "?" s || contains "[" s.

Definition is_alnum (c : ascii) : bool :=
  let n := nat_of_ascii c in
  ((48 <=? n) && (n <=? 57)) || ((65 <=? n) && (n <=? 90))
  || ((97 <=? n) && (n <=? 122)).

Fixpoint all_chars (f : ascii -> bool) (s : string) : bool :=
  match s with
  | EmptyString => true
  | String c s' => f c && all_chars f s'
  end.

(** [_EXT_SHORTHAND]: a dot followed by one to five letters or digits. *)
Definition ext_shorthand (s : string) : bool :=
  match s with
  | String c s' =>
      Ascii.eqb c "." && (1 <=? String.length s') && (String.length s' <=? 5)
      && all_chars is_alnum s'
  | EmptyString => false
  end.

Definition _is_file_pattern (token : string) : bool :=
  let token := strip token in
  ext_shorthand token
  || contains "*" token || contains "?" token
  || contains "[" token || contains "{" token.

(** The replacement of one brace group with body [body]. *)
Definition alternation (body : string) : string :=
  "@(" ++ join "|" (filter (fun p => negb (String.eqb p "")) (split "," body))
       ++ ")".

(** A match of [\{([^}]+)\}] starts at an opening brace exactly when the text
    after the brace does not begin with a closing brace and holds one. *)
Definition opens_group (s' : string) : bool :=
  match s' with
  | String d _ => negb (Ascii.eqb d "}") && contains "}" s'
  | EmptyString => false
  end.

(** [re.sub(r"\{([^}]+)\}", ..., s)], scanning from the left; [body] is
    [Some b] while a group is open, [b] being the part of its body read so
    far. *)
Fixpoint brace_sub (body : option string) (s : string) : string :=
  match s with
  | EmptyString =>
      match body with
      | Some b => "{" ++ b
      | None => EmptyString
      end
  | String c s' =>
      match body with
      | Some b =>
          if Ascii.eqb c "}" then alternation b ++ brace_sub None s'
          else brace_sub (Some (b ++ String c EmptyString)%string) s'
      | None =>
          if Ascii.eqb c "{" && opens_group s' then brace_sub (Some EmptyString) s'
          else String c (brace_sub None s')
      end
  end.

Definition _normalize_pattern (raw : string) : string :=
  let s := remove_space (strip raw) in
  if String.eqb s "*.*" then "*"
  else if startswith "." s && negb (contains "/" s) then "*" ++ s
  else if contains "{" s && contains "}" s then brace_sub None s
  else s.

Definition _expand_tabs (line : string) : string := expandtabs 4 line.

(** [DirectoryRule] *)
Inductive DirectoryRule :=
| Rule (name : string) (subdirs : list DirectoryRule)
       (file_patterns : list string) (required_files : list string).

Definition name (r : DirectoryRule) : string :=
  let 'Rule n _ _ _ := r in n.
Definition subdirs (r : DirectoryRule) : list DirectoryRule :=
  let 'Rule _ l _ _ := r in l.
Definition file_patterns (r : DirectoryRule) : list string :=
  let 'Rule _ _ l _ := r in l.
Definition required_files (r : DirectoryRule) : list string :=
  let 'Rule _ _ _ l := r in l.

(** [SpecError]: the line and the cause; [message] renders what the
    exception carries. *)
Inductive cause :=
| InvalidIndentation
| NotMultiple (indent_unit : nat)
| FileChildren
| IndentJump.

Record SpecError := mkError { err_line : nat; err_cause : cause }.

Definition message (source : string) (e : SpecError) : string :=
  source ++ ":" ++ str_of_nat (err_line e) ++ ": " ++
  match err_cause e with
  | InvalidIndentation => "invalid indentation"
  | NotMultiple u =>
      "indentation must be a multiple of " ++ str_of_nat u ++ " spaces"
  | FileChildren => "file patterns cannot have children"
  | IndentJump => "indentation jumps are not allowed"
  end.

Inductive result (A : Type) :=
| Ok (a : A)
| Err (e : SpecError).
Arguments Ok {A} a.
Arguments Err {A} e.

(** *** The store of rule objects

    [parse_spec] builds the tree by mutation: a new rule is appended to its
    parent's [subdirs] at once and filled in later through the reference
    kept on the stack.  The objects therefore live in a store, addressed by
    their allocation index; [subdirs] holds addresses, and the tree is read
    off the store when the loop is over. *)

Record obj := mkObj {
  o_name : string;
  o_subdirs : list nat;
  o_file_patterns : list string;
  o_required_files : list string
}.

Definition store := list obj.

Fixpoint update (h : store) (a : nat) (f : obj -> obj) : store :=
  match h, a with
  | [], _ => []
  | o :: h', 0 => f o :: h'
  | o :: h', S a' => o :: update h' a' f
  end.

Definition append_file_pattern (p : string) (o : obj) : obj :=
  mkObj (o_name o) (o_subdirs o) (o_file_patterns o ++ [p]) (o_required_files o).
Definition append_required_file (p : string) (o : obj) : obj :=
  mkObj (o_name o) (o_subdirs o) (o_file_patterns o) (o_required_files o ++ [p]).
Definition append_subdir (a : nat) (o : obj) : obj :=
  mkObj (o_name o) (o_subdirs o ++ [a]) (o_file_patterns o) (o_required_files o).

(** The tree below address [a]; [fuel] bounds the depth.  Children are
    allocated after their parent, so the size of the store is bound enough
    ([root_of_any_fuel] below). *)
Fixpoint tree_at (fuel : nat) (h : store) (a : nat) : DirectoryRule :=
  match fuel with
  | 0 => Rule "" [] [] []
  | S f =>
      match nth_error h a with
      | Some o =>
          Rule (o_name o) (map (tree_at f h) (o_subdirs o))
               (o_file_patterns o) (o_required_files o)
      | None => Rule "" [] [] []
      end
  end.

(** The parser's variables: the store, [stack] (addresses, the root first as
    in the Python list), [indent_unit] and [last_was_file_at_level]. *)
Record pstate := mkState {
  heap : store;
  stack : list nat;
  indent_unit : option nat;
  last_was_file_at_level : option nat
}.

Definition initial : pstate :=
  mkState [mkObj "." [] [] []] [0] None None.

(** [len(expanded) - len(expanded.lstrip(" "))] *)
Definition indent_of (expanded : string) : nat :=
  String.length expanded - String.length (lstrip_spaces expanded).

(** The first test of both loops: blank lines and comment lines. *)
Definition is_blank (raw : string) : bool := String.eqb (strip raw) "".
Definition is_comment (raw : string) : bool := startswith "#" (lstrip raw).

(** [next_nonempty_line(i)]; [after] is [raw_lines[i+1:]]. *)
Fixpoint next_nonempty_line (i : nat) (after : list string)
  : option (nat * string) :=
  match after with
  | [] => None
  | candidate :: after' =>
      if is_blank candidate then next_nonempty_line (S i) after'
      else if is_comment candidate then next_nonempty_line (S i) after'
      else Some (S i, candidate)
  end.

(** The inline-comment loop: the text before the first [#] that stands at
    the start or after white space, if there is one. *)
Fixpoint before_comment (prev_space : bool) (s : string) : option string :=
  match s with
  | EmptyString => None
  | String ch s' =>
      if Ascii.eqb ch "#" && prev_space then Some EmptyString
      else match before_comment (isspace ch) s' with
           | Some t => Some (String ch t)
           | None => None
           end
  end.

Definition content_raw_of (expanded : string) (indent : nat) : string :=
  let content_raw := rstrip (drop indent expanded) in
  match before_comment true content_raw with
  | Some t => rstrip t
  | None => content_raw
  end.

(** What the loop body did with a line. *)
Inductive line_class := Skipped | PatternLeaf | RequiredLeaf | DirectoryLine.

Definition is_file_leaf (k : line_class) : bool :=
  match k with
  | PatternLeaf | RequiredLeaf => true
  | _ => false
  end.

(** [has_children], from [nxt_indent], the indentation of the line found
    by the look-ahead if there is one.  The unit is never zero
    ([indent_unit_never_zero] below), so [mod] and [/] are Python's [%] and
    [//] here. *)
Definition has_children_of (nxt_indent : option nat)
    (indent_unit : option nat) (indent level : nat) : bool :=
  match nxt_indent with
  | None => false
  | Some nxt_indent =>
      match indent_unit with
      | None => indent <? nxt_indent
      | Some u =>
          if (indent <? nxt_indent) && (nxt_indent mod u =? 0)
          then level <? nxt_indent / u
          else false
      end
  end.

(** The body of the main loop from the classification on: [parent] is
    [stack[-1]] after the pops. *)
Definition place (st : pstate) (stack' : list nat) (unit' : option nat)
    (level : nat) (content : string) (dir_forced has_children : bool)
  : pstate * line_class :=
  let parent := last stack' 0 in
  if negb dir_forced && negb has_children && _is_file_pattern content then
    (mkState (update (heap st) parent
                     (append_file_pattern (_normalize_pattern content)))
             stack' unit' (Some level),
     PatternLeaf)
  else if negb dir_forced && negb has_children && contains "." content
          && negb (glob_has_magic content) && negb (contains "{" content) then
    (mkState (update (heap st) parent (append_required_file content))
             stack' unit' (Some level),
     RequiredLeaf)
  else
    let child := List.length (heap st) in
    (mkState (update (heap st) parent (append_subdir child)
                ++ [mkObj content [] [] []])
             (stack' ++ [child]) unit' None,
     DirectoryLine).

(** The loop body from [content = content_raw.strip()] on, for a line of
    indentation [indent]; [nxt_indent] is the indentation of the line that
    [next_nonempty_line] returns. *)
Definition process (idx indent : nat) (content_raw : string)
    (nxt_indent : option nat) (st : pstate) : result (pstate * line_class) :=
  let content := strip content_raw in
  let leveled : result (option nat * nat) :=
    if indent =? 0 then Ok (indent_unit st, 0)
    else
      let u := match indent_unit st with
               | None => indent
               | Some u => u
               end in
      if u <=? 0 then Err (mkError idx InvalidIndentation)
      else if negb (indent mod u =? 0) then Err (mkError idx (NotMultiple u))
      else Ok (Some u, indent / u) in
  match leveled with
  | Err e => Err e
  | Ok (unit', level) =>
      if match last_was_file_at_level st with
         | Some l => l <? level
         | None => false
         end
      then Err (mkError idx FileChildren)
      else
        let stack' := firstn (level + 1) (stack st) in
        if negb (List.length stack' =? level + 1)
        then Err (mkError idx IndentJump)
        else
          let dir_forced := endswith "/" content
                            && negb (String.eqb content "/") in
          let content := if dir_forced then chop content else content in
          let has_children := has_children_of nxt_indent unit' indent level in
          Ok (place st stack' unit' level content dir_forced has_children)
  end.

(** One round of [for idx0, raw in enumerate(raw_lines)]; [after] is
    [raw_lines[idx0+1:]]. *)
Definition step (idx0 : nat) (raw : string) (after : list string)
    (st : pstate) : result (pstate * line_class) :=
  if is_blank raw then Ok (st, Skipped)
  else if is_comment raw then Ok (st, Skipped)
  else
    let expanded := _expand_tabs raw in
    let indent := indent_of expanded in
    let content_raw := content_raw_of expanded indent in
    if String.eqb content_raw "" then Ok (st, Skipped)
    else
      let nxt := next_nonempty_line idx0 after in
      let nxt_indent :=
        option_map (fun n => indent_of (_expand_tabs (snd n))) nxt in
      process (idx0 + 1) indent content_raw nxt_indent st.

Fixpoint parse_loop (idx0 : nat) (lines : list string) (st : pstate)
  : result pstate :=
  match lines with
  | [] => Ok st
  | raw :: after =>
      match step idx0 raw after st with
      | Err e => Err e
      | Ok (st', _) => parse_loop (S idx0) after st'
      end
  end.

(** The classes of the lines, in order, up to the first error if any. *)
Fixpoint line_classes (idx0 : nat) (lines : list string) (st : pstate)
  : list line_class :=
  match lines with
  | [] => []
  | raw :: after =>
      match step idx0 raw after st with
      | Err _ => []
      | Ok (st', k) => k :: line_classes (S idx0) after st'
      end
  end.

Definition root_of (st : pstate) : DirectoryRule :=
  tree_at (List.length (heap st)) (heap st) 0.

Definition parse_lines (raw_lines : list string) : result DirectoryRule :=
  match parse_loop 0 raw_lines initial with
  | Err e => Err e
  | Ok st => Ok (root_of st)
  end.

(** [parse_spec(text)]; the result is [Spec.root]. *)
Definition parse_spec (text : string) : result DirectoryRule :=
  parse_lines (splitlines text).

End SpecPy.

(** ** The compiler ([dirc/compiler.py]) and the validator it emits *)

Module Compiler.
Import PyStr SpecPy.
Local Open Scope string_scope.

Record CompileOptions := mkOptions {
  ignore : list string;
  allow_extra_everywhere : bool;
  strict_root : bool
}.

Inductive _Node :=
| Node (node_id : nat) (rule : DirectoryRule) (children : list _Node).

Definition node_id (n : _Node) : nat := let 'Node i _ _ := n in i.
Definition rule (n : _Node) : DirectoryRule := let 'Node _ r _ := n in r.
Definition children (n : _Node) : list _Node := let 'Node _ _ l := n in l.

(** [_build_nodes]: [walk] numbers the nodes in pre-order; the counter
    [next_id] is threaded through the calls. *)
Fixpoint walk (r : DirectoryRule) (next_id : nat) : _Node * nat :=
  let 'Rule _ subs _ _ := r in
  let '(kids, next_id') :=
    (fix walk_all (l : list DirectoryRule) (k : nat) : list _Node * nat :=
       match l with
       | [] => ([], k)
       | c :: l' =>
           let '(n, k1) := walk c k in
           let '(ns, k2) := walk_all l' k1 in
           (n :: ns, k2)
       end) subs (next_id + 1) in
  (Node next_id r kids, next_id').

Definition _build_nodes (rule : DirectoryRule) : _Node := fst (walk rule 1).

Definition mem (x : string) (l : list string) : bool :=
  existsb (String.eqb x) l.

(** [ignore_items], the contents of [IGNORE_BASENAMES]. *)
Definition ignore_items (options : CompileOptions) (spec_basename : string)
  : list string :=
  let items := ignore options in
  let items := if mem ".git" items then items else (items ++ [".git"])%list in
  if mem spec_basename items then items else (items ++ [spec_basename])%list.

(** *** The file system seen by the script

    [is_dir p] is [[ -d p ]], [is_file p] is [[ -f p ]], and [entries p] is
    the list of words that ["p"/*] expands to under [nullglob] and
    [dotglob], in the order of the expansion. *)
Record FileSystem := mkFS {
  is_dir : string -> bool;
  is_file : string -> bool;
  entries : string -> list string
}.

(** The outcome of a run of a script that the shell reads as it is meant:
    the script ends normally, or [fail] prints its arguments after
    ["dirc: "] and exits with status 1.  A script that the shell rejects or
    stops for an error of its own has no outcome of either kind; that can
    happen only through the names that [compile_node] writes into the text
    of the script ([Naming.well_named] below says which names are read as
    they stand). *)
Inductive verdict :=
| Pass
| Fail (msg : string).

Definition and_then (v : verdict) (k : verdict) : verdict :=
  match v with
  | Pass => k
  | Fail m => Fail m
  end.

Notation "v ;; k" := (and_then v k) (at level 61, right associativity).

(** A [for] loop whose body may [fail]. *)
Fixpoint for_each {A : Type} (body : A -> verdict) (l : list A) : verdict :=
  match l with
  | [] => Pass
  | x :: l' => body x ;; for_each body l'
  end.

(** [${p##*/}]: what follows the last slash. *)
Fixpoint last_component (p : string) : string :=
  match p with
  | EmptyString => EmptyString
  | String c p' =>
      if contains "/" p' then last_component p'
      else if Ascii.eqb c "/" then p' else p
  end.

(** What [echo] takes for options: a word made of a hyphen and one or more
    of the letters [n], [e] and [E].  It prints nothing for it but, for
    [-e] and [-E], the end of the line. *)
Definition echo_option (w : string) : bool :=
  match w with
  | String c (String d r) =>
      Ascii.eqb c "-"
      && all_chars (fun x => Ascii.eqb x "n" || Ascii.eqb x "e" || Ascii.eqb x "E")
                   (String d r)
  | _ => false
  end.

(** The command substitution [$(...)] drops the line feeds that end the
    output. *)
Fixpoint strip_newlines (s : string) : string :=
  match s with
  | EmptyString => EmptyString
  | String c s' =>
      match strip_newlines s' with
      | EmptyString => if Ascii.eqb c lf then EmptyString else String c EmptyString
      | r => String c r
      end
  end.

(** [basename_safe], as its callers see it through [base="$(basename_safe
    "$entry")"]: the function prints [${p##*/}] with [echo], and the
    substitution reads the output back.  A name that [echo] takes for
    options comes back empty, and a name loses the line feeds it ends in. *)
Definition basename_safe (p : string) : string :=
  let w := last_component p in
  if echo_option w then EmptyString else strip_newlines w.

(** [${rel%/}] *)
Definition strip_slash (rel : string) : string :=
  if endswith "/" rel then chop rel else rel.

(** [matches_any] *)
Definition matches_any (name : string) (pats : list string) : bool :=
  existsb (fun pat => Glob.glob_match pat name) pats.

(** A shell function [rule_N], as the caller sees it. *)
Definition proc := string -> verdict.

Section Script.
(** The global variables of the script. *)
Variable fs : FileSystem.
Variable ROOT : string.
Variable ALLOW_EXTRA_EVERYWHERE : bool.
Variable STRICT_ROOT : bool.
Variable IGNORE_BASENAMES : list string.

Definition is_ignored (base : string) : bool :=
  matches_any base IGNORE_BASENAMES.

Definition check_required_dir (rel path req : string) : verdict :=
  if is_dir fs (path ++ "/" ++ req) then Pass
  else Fail ("missing required directory: " ++ strip_slash rel ++ "/" ++ req).

Definition check_required_file (rel path req : string) : verdict :=
  if is_file fs (path ++ "/" ++ req) then Pass
  else Fail ("missing required file: " ++ strip_slash rel ++ "/" ++ req).

(** The body of the loop over [entries] in [check_dir]. *)
Definition check_entry (rel : string) (allowed_dirs allowed_files : list string)
    (allow_extra : bool) (entry : string) : verdict :=
  let base := basename_safe entry in
  if is_ignored base then Pass
  else if is_dir fs entry then
    if matches_any base allowed_dirs then Pass
    else if allow_extra then Pass
    else Fail ("unexpected directory: " ++ strip_slash rel ++ "/" ++ base)
  else
    if matches_any base allowed_files then Pass
    else if allow_extra then Pass
    else Fail ("unexpected file: " ++ strip_slash rel ++ "/" ++ base).

Definition check_dir (rel : string)
    (allowed_dirs allowed_files required_dirs required_files : list string)
    (allow_extra : bool) : verdict :=
  let path := ROOT ++ "/" ++ rel in
  if negb (is_dir fs path) then Fail ("missing directory: " ++ rel)
  else
    for_each (check_required_dir rel path) required_dirs ;;
    for_each (check_required_file rel path) required_files ;;
    for_each (check_entry rel allowed_dirs allowed_files allow_extra)
             (entries fs path).

(** The chain of [if [[ "$base" == pat ]]] blocks, one per wildcard child;
  [matched] is the shell variable of that name.  The pattern is written
  into the script bare: this is what the chain does for a pattern that the
  shell reads as it stands ([Naming.inert_pattern]), which leaves out
  blanks, quotes, backslashes, dollar signs, brackets and the characters
  that end a word. *)
Fixpoint try_wildcards (rel base : string) (matched : bool)
    (wildcard_children : list (string * proc)) : verdict :=
  match wildcard_children with
  | [] => Pass
  | (pat, rule_k) :: rest =>
      if Glob.glob_match pat base then
        if matched then
          Fail ("ambiguous directory rule for: " ++ strip_slash rel ++ "/" ++ base)
        else
          rule_k (strip_slash rel ++ "/" ++ base) ;;
          try_wildcards rel base true rest
      else try_wildcards rel base matched rest
  end.

(** The body of the loop over [dirs]. *)
Definition wildcard_entry (rel : string) (literal_names : list string)
    (wildcard_children : list (string * proc)) (entry : string) : verdict :=
  if negb (is_dir fs entry) then Pass
  else
    let base := basename_safe entry in
    if is_ignored base then Pass
    else if mem base literal_names then Pass
    else try_wildcards rel base false wildcard_children.

Definition is_literal (c : string * proc) : bool :=
  negb (glob_has_magic (fst c)).
Definition is_wildcard (c : string * proc) : bool :=
  glob_has_magic (fst c).

Definition allow_extra_of (rel : string) : bool :=
  ALLOW_EXTRA_EVERYWHERE || (String.eqb rel "." && negb STRICT_ROOT).

(** The text that [compile_node] emits for a node whose rule is [r], as a
  function of [rel]; [kids] pairs every child's name with the function
  emitted for that child.  The name of a literal child is written between
  double quotes, in the argument of the call of its function: this is what
  the call does for a name that the shell reads as it stands there
  ([Naming.inert_quoted]: no dollar sign, backquote, backslash or double
  quote). *)
Definition rule_function (r : DirectoryRule) (kids : list (string * proc))
    (rel : string) : verdict :=
  let allowed_dirs := map fst kids in
  let allowed_files := (file_patterns r ++ required_files r)%list in
  let required_dirs := map fst (filter is_literal kids) in
  let required_files := required_files r in
  let allow_extra := allow_extra_of rel in
  check_dir rel allowed_dirs allowed_files required_dirs required_files
            allow_extra ;;
  let literal_children := filter is_literal kids in
  let wildcard_children := filter is_wildcard kids in
  for_each (fun child => snd child (strip_slash rel ++ "/" ++ fst child))
           literal_children ;;
  match wildcard_children with
  | [] => Pass
  | _ =>
      let path := ROOT ++ "/" ++ rel in
      let literal_names := map fst literal_children in
      for_each (wildcard_entry rel literal_names wildcard_children)
               (entries fs path)
  end.

(** [compile_node]: the function [rule_N] emitted for the node [n]
  numbered [N], the functions of its children being emitted by the
  recursive calls. *)
Fixpoint compile_node (n : _Node) : proc :=
  let 'Node _ r kids := n in
  rule_function r (map (fun c => (name (rule c), compile_node c)) kids).

End Script.

(** A script, by what it does on a file system when started with the
    arguments [args]. *)
Definition script : Type := FileSystem -> list string -> verdict.

(** [compile_to_bash]: the preamble sets [ROOT] from the first argument,
    resets it to [.] when that argument is given and is no directory, and
    the last command calls the function of the root node on [.]. *)
Definition compile_to_bash (spec_root : DirectoryRule) (options : CompileOptions)
    (spec_basename : string) : script := fun fs args =>
  let arg1 := match args with
              | a :: _ => a
              | [] => EmptyString
              end in
  let ROOT := if String.eqb arg1 "" then "." else arg1 in
  let ROOT := if negb (String.eqb arg1 "") && negb (is_dir fs ROOT)
              then "." else ROOT in
  compile_node fs ROOT (allow_extra_everywhere options) (strict_root options)
           (ignore_items options spec_basename)
           (_build_nodes spec_root) ".".

End Compiler.

(** ** The command line ([dirc/cli.py]) *)

Module Cli.
Import SpecPy Compiler.

(** [dict.fromkeys]: the first occurrence of every element, in order. *)
Fixpoint dedupe (seen l : list string) : list string :=
  match l with
  | [] => []
  | x :: l' => if mem x seen then dedupe seen l' else x :: dedupe (x :: seen) l'
  end.

(** [CommonArgs.ignore] *)
Definition common_ignore (user : list string) (spec_name : string) : list string :=
  dedupe [] (user ++ [".git"; spec_name]).

Inductive outcome :=
| SpecFailure (e : SpecError)
| Checked (v : verdict).

(** [_cmd_check]: the text of the spec file named [spec_name], the options
    of the command line, and the resolved root handed to the script. *)
Definition _cmd_check (text spec_name : string) (user_ignore : list string)
    (allow_extra strict_root : bool) (fs : FileSystem) (root : string) : outcome :=
  match parse_spec text with
  | Err e => SpecFailure e
  | Ok spec_root =>
      Checked (compile_to_bash spec_root
                 (mkOptions (common_ignore user_ignore spec_name)
                            allow_extra strict_root)
                 spec_name fs [root])
  end.

End Cli.

(** ** A file system given by a tree

    An instance of the oracle for examples: a path is read from the
    directory [top], its components separated by slashes, empty components
    and [.] standing for the directory itself.  The children of a directory
    are listed in the order of the shell's expansion. *)

Module TreeFS.
Import PyStr Compiler.

Inductive fsnode :=
| FFile
| FDir (content : list (string * fsnode)).

Fixpoint lookup (x : string) (l : list (string * fsnode)) : option fsnode :=
  match l with
  | [] => None
  | (y, n) :: l' => if String.eqb x y then Some n else lookup x l'
  end.

Fixpoint resolve (n : fsnode) (components : list string) : option fsnode :=
  match components with
  | [] => Some n
  | c :: cs =>
      if String.eqb c "" || String.eqb c "." then resolve n cs
      else match n with
           | FDir content =>
               match lookup c content with
               | Some n' => resolve n' cs
               | None => None
               end
           | FFile => None
           end
  end.

Definition at_path (top : fsnode) (p : string) : option fsnode :=
  resolve top (split "/" p).

Definition of_tree (top : fsnode) : FileSystem :=
  mkFS
    (fun p => match at_path top p with Some (FDir _) => true | _ => false end)
    (fun p => match at_path top p with Some FFile => true | _ => false end)
    (fun p => match at_path top p with
              | Some (FDir content) =>
                  map (fun e => (p ++ "/" ++ fst e)%string) content
              | _ => []
              end).

End TreeFS.

(** ** Notions used to state the properties *)

Module Props.
Import PyStr SpecPy Compiler.
Local Open Scope string_scope.

(** The verdict of a series of checks: that of the first one that fails. *)
Definition first_failure (checks : list verdict) : verdict :=
  fold_right and_then Pass checks.

(** The file system whose listings leave out the entries whose basename
    matches a pattern of [ignored]. *)
Definition hide_ignored (ignored : list string) (fs : FileSystem) : FileSystem :=
  mkFS (is_dir fs) (is_file fs)
       (fun p => filter (fun e => negb (is_ignored ignored (basename_safe e)))
                        (entries fs p)).

Section Phases.
Variable fs : FileSystem.
Variable ROOT : string.
Variable ALLOW_EXTRA_EVERYWHERE : bool.
Variable STRICT_ROOT : bool.
Variable IGNORE_BASENAMES : list string.

Let run := compile_node fs ROOT ALLOW_EXTRA_EVERYWHERE STRICT_ROOT IGNORE_BASENAMES.

Definition child_name (c : _Node) : string := name (rule c).
Definition literal_kids (n : _Node) : list _Node :=
  filter (fun c => negb (glob_has_magic (child_name c))) (children n).
Definition wildcard_kids (n : _Node) : list _Node :=
  filter (fun c => glob_has_magic (child_name c)) (children n).

(** The six groups of checks of one node, each on its own. *)
Definition missing_directory_check (rel : string) : verdict :=
  if is_dir fs (ROOT ++ "/" ++ rel) then Pass
  else Fail ("missing directory: " ++ rel).

Definition required_directory_checks (n : _Node) (rel : string) : verdict :=
  for_each (check_required_dir fs rel (ROOT ++ "/" ++ rel))
           (map child_name (literal_kids n)).

Definition required_file_checks (n : _Node) (rel : string) : verdict :=
  for_each (check_required_file fs rel (ROOT ++ "/" ++ rel))
           (required_files (rule n)).

Definition extra_entry_scan (n : _Node) (rel : string) : verdict :=
  for_each
    (check_entry fs IGNORE_BASENAMES rel
       (map child_name (children n))
       (file_patterns (rule n) ++ required_files (rule n))%list
       (allow_extra_of ALLOW_EXTRA_EVERYWHERE STRICT_ROOT rel))
    (entries fs (ROOT ++ "/" ++ rel)).

Definition literal_child_recursion (n : _Node) (rel : string) : verdict :=
  for_each (fun c => run c (strip_slash rel ++ "/" ++ child_name c))
           (literal_kids n).

(** What the loop over [dirs] does with one entry. *)
Definition wildcard_visit (n : _Node) (rel entry : string) : verdict :=
  wildcard_entry fs IGNORE_BASENAMES rel
    (map child_name (literal_kids n))
    (map (fun c => (child_name c, run c)) (wildcard_kids n))
    entry.

Definition wildcard_child_recursion (n : _Node) (rel : string) : verdict :=
  for_each (wildcard_visit n rel) (entries fs (ROOT ++ "/" ++ rel)).

Definition phases (n : _Node) (rel : string) : list verdict :=
  [ missing_directory_check rel;
    required_directory_checks n rel;
    required_file_checks n rel;
    extra_entry_scan n rel;
    literal_child_recursion n rel;
    wildcard_child_recursion n rel ].
End Phases.

(** The paths handed to the node functions: [.] itself or below it. *)
Definition dotted (s : string) : Prop := s = "." \/ exists y, s = "./" ++ y.

(** A specification text as its lines: for every line its depth and what
    stands after the indentation.  [render u] writes depth [d] as [u * d]
    spaces. *)
Definition document := list (nat * string).

Definition render (u : nat) (doc : document) : list string :=
  map (fun l => spaces (u * fst l) ++ snd l) doc.

(** What stands after the indentation holds no tab and does not begin with
    a space. *)
Definition tab_free (doc : document) : bool :=
  forallb (fun l => negb (contains tab (snd l)) && negb (startswith " " (snd l)))
          doc.

(** Two parses agree: the same tree, or an error at the same line. *)
Definition same_outcome (a b : result DirectoryRule) : Prop :=
  match a, b with
  | Ok t1, Ok t2 => t1 = t2
  | Err e1, Err e2 => err_line e1 = err_line e2
  | _, _ => False
  end.

(** The parser's variables after the same lines written with unit 1 ([a])
    and with unit [u] ([b]): everything agrees but the indentation unit,
    which is [u] times as large. *)
Definition scaled (u : nat) (a b : pstate) : Prop :=
  heap a = heap b
  /\ stack a = stack b
  /\ last_was_file_at_level a = last_was_file_at_level b
  /\ indent_unit b = option_map (Nat.mul u) (indent_unit a)
  /\ indent_unit a <> Some 0.

(** Two parses in step: both stop at the same line, or both go on with
    results related by [R]. *)
Definition in_step {A B : Type} (R : A -> B -> Prop)
    (x : result A) (y : result B) : Prop :=
  match x, y with
  | Ok a, Ok b => R a b
  | Err e1, Err e2 => err_line e1 = err_line e2
  | _, _ => False
  end.

(** What the loop maintains of the store: a rule's children were allocated
    after it, and the addresses on the stack are allocated. *)
Definition store_ok (h : store) : Prop :=
  forall a o c,
    nth_error h a = Some o -> In c (o_subdirs o) -> a < c < List.length h.

Definition state_ok (st : pstate) : Prop :=
  store_ok (heap st)
  /\ 0 < List.length (heap st)
  /\ Forall (fun a => a < List.length (heap st)) (stack st).

(** A line that neither loop skips. *)
Definition significant (raw : string) : bool :=
  negb (is_blank raw) && negb (is_comment raw).

Definition line_indent (raw : string) : nat := indent_of (_expand_tabs raw).

(** The indentation of the first significant line that is indented. *)
Fixpoint first_indent (lines : list string) : option nat :=
  match lines with
  | [] => None
  | raw :: after =>
      if significant raw && negb (line_indent raw =? 0)%nat
      then Some (line_indent raw)
      else first_indent after
  end.

End Props.

(** ** Scenarios *)

Module Scenarios.
Import PyStr SpecPy Compiler Cli TreeFS.
Local Open Scope string_scope.

Definition newline : string := String lf EmptyString.

(** The specification of the end-to-end scenario. *)
Definition two_folders : string :=
  "folder1" ++ newline ++ "    .png" ++ newline ++
  "folder2" ++ newline ++ "    folder2-*.*" ++ newline.

(** A project directory [/proj] holding [folder1/a.png] and
    [folder1/readme.txt] and nothing else. *)
Definition only_folder1 : fsnode :=
  FDir [("proj", FDir [("folder1", FDir [("a.png", FFile); ("readme.txt", FFile)])])].

(** The same with an empty [folder2]. *)
Definition both_folders : fsnode :=
  FDir [("proj", FDir [("folder1", FDir [("a.png", FFile); ("readme.txt", FFile)]);
                       ("folder2", FDir [])])].

(** Two sibling wildcard rules that both match [photo-2024]. *)
Definition photo_rules : DirectoryRule :=
  Rule "." [Rule "photo-*" [] ["*.png"] []; Rule "*-2024" [] ["*.jpg"] []] [] [].


Definition photo_jpg : fsnode :=
  FDir [("proj", FDir [("photo-2024", FDir [("a.jpg", FFile)])])].


Definition defaults : CompileOptions := mkOptions [] false false.

(** A root with a spec file and one undeclared file. *)
Definition readme_root : fsnode :=
  FDir [("proj", FDir [(".dirc", FFile); ("README.md", FFile)])].

(** A directory [d] for pictures, and in it one file whose name is a hyphen
    and a letter: the letter n, which makes the name an option of [echo],
    or the letter x, which does not. *)
Definition pictures_text : string :=
  "d" ++ newline ++ "    .png" ++ newline.

Definition hyphen_n : fsnode :=
  FDir [("proj", FDir [("d", FDir [("-n", FFile)])])].

Definition hyphen_x : fsnode :=
  FDir [("proj", FDir [("d", FDir [("-x", FFile)])])].

End Scenarios.

(** ** Induction on compiled trees *)

(** A node has a list of nodes below it: the induction hypothesis holds for
    every one of them. *)
Section NodeInduction.
Import Compiler.
Variable P : _Node -> Prop.
Hypothesis step : forall i r kids, Forall P kids -> P (Node i r kids).

Fixpoint node_induction (n : _Node) : P n :=
  match n with
  | Node i r kids =>
      step i r kids
        ((fix all (l : list _Node) : Forall P l :=
            match l with
            | [] => Forall_nil P
            | c :: l' => Forall_cons c (node_induction c) (all l')
            end) kids)
  end.
End NodeInduction.

(** ** Further notions for the validator *)

Module Guarantees.
Import PyStr SpecPy Compiler Props.
Local Open Scope string_scope.

(** The six causes that open a diagnostic. *)
Definition causes : list string :=
  [ "missing directory: "; "missing required directory: ";
    "missing required file: "; "unexpected directory: ";
    "unexpected file: "; "ambiguous directory rule for: " ].



End Guarantees.

(** ** Further notions for the parser *)

Module ParserNotions.
Import PyStr SpecPy Props.
Local Open Scope string_scope.

(** After a file leaf at level [L], a line of indentation [ni] does not come
    out deeper than the leaf. *)
Definition not_deeper (st : pstate) (ni : nat) : Prop :=
  match last_was_file_at_level st with
  | None => True
  | Some L =>
      match indent_unit st with
      | None => ni = 0
      | Some u => ni mod u = 0 -> ni / u <= L
      end
  end.

(** The causes that [parse_spec] can report. *)
Definition reachable_cause (c : cause) : Prop :=
  (exists u, 0 < u /\ c = NotMultiple u) \/ c = IndentJump.

(** Two parses agree but for the numbering of the lines: the same tree, or
    errors of the same cause. *)
Definition same_but_lines {A : Type} (a b : result A) : Prop :=
  match a, b with
  | Ok x, Ok y => x = y
  | Err e1, Err e2 => err_cause e1 = err_cause e2
  | _, _ => False
  end.

Fixpoint tabs (n : nat) : string :=
  match n with
  | 0 => EmptyString
  | S k => String tab (tabs k)
  end.

(** [render_tabs] writes depth [d] as [d] tabs. *)
Definition render_tabs (doc : document) : list string :=
  map (fun l => tabs (fst l) ++ snd l) doc.

(** The significant lines are nested properly by the unit [u]: every
    indentation is a multiple of [u], the first line is not indented, and a
    line lies at most one level below the line before it; [limit] is the
    deepest level open to the next line. *)
Fixpoint nested (u limit : nat) (lines : list string) : bool :=
  match lines with
  | [] => true
  | l :: rest =>
      if significant l then
        (line_indent l mod u =? 0)%nat && (line_indent l / u <=? limit)%nat
        && nested u (line_indent l / u + 1) rest
      else nested u limit rest
  end.

(** What the loop relies on when it comes to the next significant line of
    [lines], for a text nested by [u]: the stack reaches the level of that
    line, a file leaf just read is not above it, and while no unit is set
    the line is not indented or sets the unit to [u]. *)
Definition ready (u : nat) (st : pstate) (lines : list string) : Prop :=
  (indent_unit st = None \/ indent_unit st = Some u)
  /\ forall nxt,
       option_map snd (next_nonempty_line 0 lines) = Some nxt ->
       line_indent nxt / u + 1 <= List.length (stack st)
       /\ (forall l, last_was_file_at_level st = Some l -> line_indent nxt / u <= l)
       /\ (indent_unit st = None -> line_indent nxt = 0 \/ line_indent nxt = u).

(** A line with a note, if there is one, written after it as a comment: a
    space, the number sign, the note. *)
Definition annotate (l : string * option string) : string :=
  match snd l with
  | Some note => fst l ++ " #" ++ note
  | None => fst l
  end.

End ParserNotions.

(** ** Further notions for the node numbering *)

Module Numbering.
Import SpecPy Compiler.

(** The number of rules of a tree. *)
Fixpoint rule_size (r : DirectoryRule) : nat :=
  let 'Rule _ subs _ _ := r in S (list_sum (map rule_size subs)).

(** The numbers of a node tree, in the order in which [compile_node] emits
    the functions [rule_N]: a node, then its children from first to last. *)
Fixpoint node_ids (n : _Node) : list nat :=
  let 'Node i _ kids := n in i :: flat_map node_ids kids.

(** The nodes of a tree, in the same order. *)
Fixpoint subnodes (n : _Node) : list _Node :=
  match n with
  | Node _ _ kids => n :: flat_map subnodes kids
  end.

(** The list comprehension [[walk(c) for c in r.subdirs]] of [walk]. *)
Fixpoint walk_all (l : list DirectoryRule) (k : nat) : list _Node * nat :=
  match l with
  | [] => ([], k)
  | c :: l' =>
      let '(n, k1) := walk c k in
      let '(ns, k2) := walk_all l' k1 in
      (n :: ns, k2)
  end.

(** What [walk] does from the counter [k]: the counter moves on by the size
    of the rule, the numbers handed out are the next ones in order, and the
    node tree mirrors the rule tree. *)
Definition walked (r : DirectoryRule) : Prop :=
  forall k,
    snd (walk r k) = k + rule_size r
    /\ node_ids (fst (walk r k)) = seq k (rule_size r)
    /\ rule (fst (walk r k)) = r
    /\ Forall (fun n => map rule (children n) = subdirs (rule n))
              (subnodes (fst (walk r k))).

End Numbering.

Section RuleInduction.
Import SpecPy.
Variable P : DirectoryRule -> Prop.
Hypothesis step : forall nm subs fp rf, Forall P subs -> P (Rule nm subs fp rf).

Fixpoint rule_induction (r : DirectoryRule) : P r :=
  match r with
  | Rule nm subs fp rf =>
      step nm subs fp rf
        ((fix all (l : list DirectoryRule) : Forall P l :=
            match l with
            | [] => Forall_nil P
            | c :: l' => Forall_cons c (rule_induction c) (all l')
            end) subs)
  end.
End RuleInduction.

(** ** Quoting for the shell ([_bash_quote], [_bash_array]) *)

Module Quoting.
Import PyStr.
Local Open Scope string_scope.

Definition dquote : ascii := ascii_of_nat 34.

(** [s.replace(old, new)] for a one-character [old] *)
Fixpoint replace (old : ascii) (new : string) (s : string) : string :=
  match s with
  | EmptyString => EmptyString
  | String c s' =>
      if Ascii.eqb c old then new ++ replace old new s'
      else String c (replace old new s')
  end.




(** *** How the shell reads a list of words

    The part of the shell's word splitting and quote removal that the
    emitted tables need: words are separated by blanks; between single
    quotes every character stands for itself; between double quotes every
    character but the dollar sign, the backquote and the backslash stands
    for itself; adjacent quoted and unquoted parts form one word.  Outside
    quotes only letters, digits and a few punctuation characters are read,
    and the reader gives up ([None]) on everything else and on a quote that
    is never closed. *)








End Quoting.

(** ** Further notions for patterns *)

Module PatternNotions.
Import PyStr SpecPy.

(** The characters of a plain name: letters, digits, dot, hyphen and
    underscore.  None of them is special in a shell pattern outside a
    bracket expression. *)
Definition name_char (c : ascii) : bool :=
  is_alnum c || Ascii.eqb c "." || Ascii.eqb c "-" || Ascii.eqb c "_".

Definition plain_name (s : string) : bool := all_chars name_char s.

(** A file extension as it stands in a brace list: letters and digits, at
    least one. *)
Definition extension (e : string) : bool :=
  negb (String.eqb e "") && all_chars is_alnum e.

End PatternNotions.

(** ** Names that the shell reads as they stand

    [compile_node] writes two kinds of names into the text of the script:
    the name of a literal child between double quotes, in
    [rule_K "${rel%/}/name"], and the name of a wildcard child bare, as the
    pattern of [[[ "$base" == pattern ]]].  [rule_function] and
    [try_wildcards] take these names for what they are; that is what the
    shell does with them when the quoted name holds no dollar sign,
    backquote, backslash or double quote, and the bare pattern is made of
    letters, digits, dots, hyphens, underscores, [*] and [?].  With other
    names the shell may read a different word or reject the script, and a
    run of such a script has no [verdict]: the statements about what a run
    reports are made for trees that are [well_named]. *)

Module Naming.
Import PyStr SpecPy Compiler PatternNotions Quoting.

Definition inert_quoted (s : string) : bool :=
  negb (contains "$" s) && negb (contains "`" s) && negb (contains "\" s)
  && negb (contains dquote s).

Definition inert_pattern (s : string) : bool :=
  all_chars (fun c => name_char c || Ascii.eqb c "*" || Ascii.eqb c "?") s.

(** A child's name goes where [glob_has_magic] sends it. *)
Definition inert_name (s : string) : bool :=
  if glob_has_magic s then inert_pattern s else inert_quoted s.

Fixpoint well_named (n : _Node) : bool :=
  let 'Node _ _ kids := n in
  forallb (fun c => inert_name (name (rule c)) && well_named c) kids.

End Naming.

(** ** The violations of a node, in the order of the specification

    A second account of what a node's function reports, written from the
    words of the specification rather than from the emitted text: the
    violations of each of the six kinds are listed, every list on its own
    and without regard to what was found before, and what is reported is
    the first violation of the six lists taken in the order that the
    specification fixes.  The loops and early exits of the script are
    compared with it in [checks_in_fixed_order]. *)

Module Ordered.
Import PyStr SpecPy Compiler Props.
Local Open Scope string_scope.


Section Groups.
Variable fs : FileSystem.
Variable ROOT : string.
Variable ALLOW_EXTRA_EVERYWHERE : bool.
Variable STRICT_ROOT : bool.
Variable IGNORE_BASENAMES : list string.







(** The recursion; [below] gives the violations of a child at a path. *)
Section Descent.
Variable below : _Node -> string -> list string.





End Descent.


End Groups.



End Ordered.

(** * Properties *)

(** ** Strings *)

Section StringFacts.
Import PyStr.
Local Open Scope string_scope.

Lemma contains_app (c : ascii) (a b : string) :
  contains c (a ++ b) = contains c a || contains c b.
Proof.
  induction a as [|d a IH]; cbn [append contains]; [reflexivity|].
  rewrite IH. apply orb_assoc.
Qed.

Lemma append_assoc (a b c : string) : (a ++ b) ++ c = a ++ b ++ c.
Proof.
  induction a as [|d a IH]; cbn [append]; [reflexivity|]. now rewrite IH.
Qed.

Lemma append_empty_r (a : string) : a ++ "" = a.
Proof.
  induction a as [|d a IH]; cbn [append]; [reflexivity|]. now rewrite IH.
Qed.

Lemma length_append (a b : string) :
  String.length (a ++ b) = String.length a + String.length b.
Proof.
  induction a as [|d a IH]; cbn [append String.length]; [reflexivity|].
  now rewrite IH.
Qed.

End StringFacts.

(** ** Pattern normalisation *)

Section PatternFacts.
Import PyStr SpecPy Glob Scenarios.
Local Open Scope string_scope.

Lemma splits_whole (s : string) : In (s, "") (splits s).
Proof.
  induction s as [|c s IH]; simpl.
  - now left.
  - right. apply in_map_iff. exists (s, ""). split; [reflexivity | exact IH].
Qed.

Lemma star_matches_all (name : string) : glob_match "*" name = true.
Proof.
  unfold glob_match, match_seq. change (parse "*") with [PStar].
  simpl. apply existsb_exists. exists (name, ""). split.
  - apply splits_whole.
  - reflexivity.
Qed.

(** C4: [*.*] normalises to a pattern that matches every basename, with or
    without a dot; [.svg] normalises to a pattern that matches [photo.svg]
    and does not match [photo.svg.bak]. *)
Theorem normalize_any_and_extension :
  (forall name, glob_match (_normalize_pattern "*.*") name = true)
  /\ glob_match (_normalize_pattern ".svg") "photo.svg" = true
  /\ glob_match (_normalize_pattern ".svg") "photo.svg.bak" = false.
Proof.
  split; [|split].
  - intro name. change (_normalize_pattern "*.*") with "*".
    apply star_matches_all.
  - vm_compute. reflexivity.
  - vm_compute. reflexivity.
Qed.

Lemma brace_sub_body (post : string) (body acc : string) :
  contains "}" body = false ->
  brace_sub (Some acc) (body ++ "}" ++ post)
  = alternation (acc ++ body) ++ brace_sub None post.
Proof.
  revert acc. induction body as [|c body IH]; intros acc Hb.
  - cbn [append brace_sub]. cbn. now rewrite append_empty_r.
  - cbn [contains] in Hb. apply orb_false_iff in Hb. destruct Hb as [Hc Hb].
    cbn [append brace_sub]. rewrite Ascii.eqb_sym in Hc. rewrite Hc.
    rewrite (IH _ Hb), append_assoc. reflexivity.
Qed.

(** Away from the leading-dot case, a brace group with a body is replaced
    by the alternation of its non-empty parts. *)
Lemma brace_sub_group (pre body post : string) :
  contains "{" pre = false ->
  body <> "" ->
  contains "}" body = false ->
  brace_sub None (pre ++ "{" ++ body ++ "}" ++ post)
  = pre ++ alternation body ++ brace_sub None post.
Proof.
  intros Hpre Hne Hbody. induction pre as [|c pre IH].
  - cbn [append brace_sub].
    assert (Ho : opens_group (body ++ String "}" post) = true).
    { destruct body as [|d body]; [contradiction|]. cbn [append opens_group].
      cbn [contains] in Hbody. apply orb_false_iff in Hbody.
      destruct Hbody as [Hd Hb]. rewrite Ascii.eqb_sym in Hd. rewrite Hd.
      cbn [negb andb contains]. rewrite Ascii.eqb_sym, Hd. cbn [orb].
      rewrite contains_app. cbn. apply orb_true_r. }
    cbn. cbn in Ho. rewrite Ho.
    exact (brace_sub_body post body "" Hbody).
  - cbn [contains] in Hpre. apply orb_false_iff in Hpre. destruct Hpre as [Hc Hp].
    cbn [append brace_sub]. rewrite Ascii.eqb_sym in Hc. rewrite Hc.
    cbn [andb]. f_equal. exact (IH Hp).
Qed.

(** C5, at the token [.{png,jpg}]: the test for a leading dot returns before
    the brace list is looked at, so the braces stay in the pattern, where the
    shell reads them as ordinary characters; the same list after [*.] is
    rewritten. *)
Theorem normalize_dot_brace_list :
  _normalize_pattern ".{png,jpg}" = "*.{png,jpg}"
  /\ glob_match (_normalize_pattern ".{png,jpg}") "a.png" = false
  /\ glob_match (_normalize_pattern ".{png,jpg}") "a.jpg" = false
  /\ _normalize_pattern "*.{png,jpg}" = "*.@(png|jpg)"
  /\ glob_match (_normalize_pattern "*.{png,jpg}") "a.png" = true
  /\ parse_spec ("pics" ++ newline ++ "    .{png,jpg}" ++ newline)
     = Ok (Rule "." [Rule "pics" [] ["*.{png,jpg}"] []] [] []).
Proof.
  repeat split; vm_compute; reflexivity.
Qed.

End PatternFacts.

(** ** The emitted validator *)

Section ValidatorFacts.
Import PyStr SpecPy Compiler Props.
Local Open Scope string_scope.

Lemma and_then_pass (v k : verdict) :
  (v ;; k) = Pass <-> v = Pass /\ k = Pass.
Proof.
  destruct v; simpl; split; intros H.
  - now split.
  - now destruct H.
  - discriminate.
  - now destruct H.
Qed.

Lemma and_then_assoc (a b c : verdict) :
  ((a ;; b) ;; c) = (a ;; b ;; c).
Proof. now destruct a. Qed.

Lemma and_then_pass_r (v : verdict) : (v ;; Pass) = v.
Proof. now destruct v. Qed.


Lemma for_each_pass {A} (f : A -> verdict) (l : list A) :
  for_each f l = Pass <-> forall x, In x l -> f x = Pass.
Proof.
  induction l as [|x l IH]; simpl.
  - split; [intros _ y []|reflexivity].
  - rewrite and_then_pass, IH. split.
    + intros [Hx Hl] y [<-|Hy]; auto.
    + intros H. split; auto.
Qed.

Lemma for_each_ext {A} (f g : A -> verdict) (l : list A) :
  (forall x, In x l -> f x = g x) -> for_each f l = for_each g l.
Proof.
  induction l as [|x l IH]; simpl; intros H; [reflexivity|].
  rewrite (H x) by now left. rewrite IH; [reflexivity|].
  intros y Hy. apply H. now right.
Qed.

Lemma for_each_map {A B} (g : A -> B) (f : B -> verdict) (l : list A) :
  for_each f (map g l) = for_each (fun x => f (g x)) l.
Proof.
  induction l as [|x l IH]; simpl; [reflexivity|]. now rewrite IH.
Qed.

Lemma for_each_filter {A} (keep : A -> bool) (f : A -> verdict) (l : list A) :
  (forall x, In x l -> keep x = false -> f x = Pass) ->
  for_each f (filter keep l) = for_each f l.
Proof.
  induction l as [|x l IH]; simpl; intros H; [reflexivity|].
  destruct (keep x) eqn:E; simpl.
  - rewrite IH; [reflexivity|]. intros y Hy. apply H. now right.
  - rewrite (H x) by (auto; now left). simpl. apply IH.
    intros y Hy. apply H. now right.
Qed.


Lemma first_failure_pass (checks : list verdict) :
  first_failure checks = Pass <-> forall v, In v checks -> v = Pass.
Proof.
  induction checks as [|v checks IH]; simpl.
  - split; [intros _ w []|reflexivity].
  - unfold first_failure in *. simpl. rewrite and_then_pass, IH. split.
    + intros [Hv Hl] w [<-|Hw]; auto.
    + intros H. split; auto.
Qed.

Section Run.
Variable fs : FileSystem.
Variable ROOT : string.
Variable aee sr : bool.
Variable ign : list string.

Let run := compile_node fs ROOT aee sr ign.

Lemma compile_node_unfold (n : _Node) (rel : string) :
  run n rel
  = rule_function fs ROOT aee sr ign (rule n)
      (map (fun c => (child_name c, run c)) (children n)) rel.
Proof. destruct n. reflexivity. Qed.

Lemma filter_literal_kids (f : _Node -> proc) (kids : list _Node) :
  filter is_literal (map (fun c => (child_name c, f c)) kids)
  = map (fun c => (child_name c, f c))
        (filter (fun c => negb (glob_has_magic (child_name c))) kids).
Proof.
  induction kids as [|c kids IH]; simpl; [reflexivity|].
  unfold is_literal at 1. simpl.
  destruct (glob_has_magic (child_name c)); simpl; now rewrite IH.
Qed.

Lemma filter_wildcard_kids (f : _Node -> proc) (kids : list _Node) :
  filter is_wildcard (map (fun c => (child_name c, f c)) kids)
  = map (fun c => (child_name c, f c))
        (filter (fun c => glob_has_magic (child_name c)) kids).
Proof.
  induction kids as [|c kids IH]; simpl; [reflexivity|].
  unfold is_wildcard at 1. simpl.
  destruct (glob_has_magic (child_name c)); simpl; now rewrite IH.
Qed.

Lemma wildcard_entry_no_patterns (rel : string) (lits : list string) (entry : string) :
  wildcard_entry fs ign rel lits [] entry = Pass.
Proof.
  unfold wildcard_entry.
  destruct (negb (is_dir fs entry)); [reflexivity|].
  destruct (is_ignored ign _); [reflexivity|].
  destruct (mem _ lits); reflexivity.
Qed.

(** A node's function is its six groups of checks, run one after the other
    until one fails. *)
Lemma compile_node_phases (n : _Node) (rel : string) :
  run n rel = first_failure (phases fs ROOT aee sr ign n rel).
Proof.
  rewrite compile_node_unfold.
  unfold rule_function, phases, first_failure, check_dir, missing_directory_check.
  cbn [fold_right].
  destruct (is_dir fs (ROOT ++ "/" ++ rel)) eqn:Hd; cbn [negb and_then];
    [|reflexivity].
  rewrite filter_literal_kids, filter_wildcard_kids, !map_map. cbn [fst].
  rewrite !and_then_assoc, and_then_pass_r.
  unfold required_directory_checks, required_file_checks, extra_entry_scan,
    literal_child_recursion, wildcard_child_recursion, wildcard_visit.
  fold (literal_kids n). fold (wildcard_kids n). fold run.
  rewrite !for_each_map. cbn [fst snd].
  assert (Hlast :
    match map (fun c => (child_name c, run c)) (wildcard_kids n) with
    | [] => Pass
    | _ :: _ =>
        for_each
          (wildcard_entry fs ign rel (map child_name (literal_kids n))
             (map (fun c => (child_name c, run c)) (wildcard_kids n)))
          (entries fs (ROOT ++ "/" ++ rel))
    end
    = for_each
        (wildcard_entry fs ign rel (map child_name (literal_kids n))
           (map (fun c => (child_name c, run c)) (wildcard_kids n)))
        (entries fs (ROOT ++ "/" ++ rel))).
  { destruct (wildcard_kids n) eqn:Hw; cbn [map]; [|reflexivity].
    symmetry. apply for_each_pass. intros. apply wildcard_entry_no_patterns. }
  etransitivity; [|do 4 (apply f_equal); exact Hlast].
  reflexivity.
Qed.

End Run.
End ValidatorFacts.

Section ValidatorClaims.
Import PyStr SpecPy Compiler Props TreeFS Scenarios.
Local Open Scope string_scope.




End ValidatorClaims.

Section IgnoreList.
Import PyStr SpecPy Compiler Props TreeFS Scenarios.
Local Open Scope string_scope.

Lemma mem_In (x : string) (l : list string) : mem x l = true <-> In x l.
Proof.
  unfold mem. rewrite existsb_exists. split.
  - intros [y [Hy E]]. apply String.eqb_eq in E. now subst.
  - intros H. exists x. split; [exact H | apply String.eqb_refl].
Qed.

Lemma ignore_items_always (options : CompileOptions) (spec_basename : string) :
  In ".git" (ignore_items options spec_basename)
  /\ In spec_basename (ignore_items options spec_basename).
Proof.
  unfold ignore_items.
  set (items := if mem ".git" (ignore options) then ignore options
                else (ignore options ++ [".git"])%list).
  assert (Hgit : In ".git" items).
  { subst items. destruct (mem ".git" (ignore options)) eqn:E.
    - now apply mem_In.
    - apply in_or_app. right. now left. }
  destruct (mem spec_basename items) eqn:E.
  - split; [exact Hgit | now apply mem_In].
  - split; apply in_or_app; [now left | right; now left].
Qed.

Lemma check_entry_ignored (fs : FileSystem) (ign : list string) (rel : string)
    (ad af : list string) (ae : bool) (entry : string) :
  is_ignored ign (basename_safe entry) = true ->
  check_entry fs ign rel ad af ae entry = Pass.
Proof. intros H. unfold check_entry. now rewrite H. Qed.

Lemma wildcard_entry_ignored (fs : FileSystem) (ign : list string) (rel : string)
    (lits : list string) (wild : list (string * proc)) (entry : string) :
  is_ignored ign (basename_safe entry) = true ->
  wildcard_entry fs ign rel lits wild entry = Pass.
Proof.
  intros H. unfold wildcard_entry.
  destruct (negb (is_dir fs entry)); [reflexivity|]. now rewrite H.
Qed.

Lemma try_wildcards_ext (f g : _Node -> proc) (rel base : string)
    (kids : list _Node) :
  Forall (fun c => forall r, f c r = g c r) kids ->
  forall matched,
    try_wildcards rel base matched (map (fun c => (child_name c, f c)) kids)
    = try_wildcards rel base matched (map (fun c => (child_name c, g c)) kids).
Proof.
  induction 1 as [|c kids Hc _ IH]; intros matched; cbn [map try_wildcards];
    [reflexivity|].
  destruct (Glob.glob_match (child_name c) base); [|apply IH].
  destruct matched; [reflexivity|]. now rewrite Hc, IH.
Qed.

Lemma Forall_filter {A} (P : A -> Prop) (keep : A -> bool) (l : list A) :
  Forall P l -> Forall P (filter keep l).
Proof.
  induction 1 as [|x l Hx _ IH]; cbn [filter]; [constructor|].
  destruct (keep x); [now constructor | exact IH].
Qed.

(** The verdict does not depend on the ignored entries of the listings. *)
Lemma compile_node_hide_ignored (fs : FileSystem) (ROOT : string) (aee sr : bool)
    (ign : list string) (n : _Node) :
  forall rel,
    compile_node fs ROOT aee sr ign n rel
    = compile_node (hide_ignored ign fs) ROOT aee sr ign n rel.
Proof.
  induction n as [i r kids IH] using node_induction. intros rel.
  rewrite !compile_node_phases.
  assert (E4 : extra_entry_scan fs ROOT aee sr ign (Node i r kids) rel
               = extra_entry_scan (hide_ignored ign fs) ROOT aee sr ign
                                  (Node i r kids) rel).
  { unfold extra_entry_scan. cbn [entries hide_ignored].
    symmetry. apply for_each_filter.
    intros e _ He. apply negb_false_iff in He.
    now apply check_entry_ignored. }
  assert (E5 : literal_child_recursion fs ROOT aee sr ign (Node i r kids) rel
               = literal_child_recursion (hide_ignored ign fs) ROOT aee sr ign
                                         (Node i r kids) rel).
  { unfold literal_child_recursion. apply for_each_ext.
    intros c Hc. unfold literal_kids in Hc. apply filter_In in Hc.
    destruct Hc as [Hc _]. cbn [children] in Hc.
    rewrite Forall_forall in IH. apply (IH c Hc). }
  assert (E6 : wildcard_child_recursion fs ROOT aee sr ign (Node i r kids) rel
               = wildcard_child_recursion (hide_ignored ign fs) ROOT aee sr ign
                                          (Node i r kids) rel).
  { unfold wildcard_child_recursion. cbn [entries hide_ignored].
    rewrite for_each_filter.
    + apply for_each_ext. intros e _. unfold wildcard_visit, wildcard_entry.
      cbn [is_dir hide_ignored].
      destruct (negb (is_dir fs e)); [reflexivity|].
      destruct (is_ignored ign (basename_safe e)); [reflexivity|].
      destruct (mem _ _); [reflexivity|].
      apply try_wildcards_ext. apply Forall_filter. exact IH.
    + intros e _ He. apply negb_false_iff in He.
      unfold wildcard_visit. now apply wildcard_entry_ignored. }
  unfold phases. rewrite E4, E5, E6. reflexivity.
Qed.

End IgnoreList.

Section SpecFileIgnored.
Import PyStr SpecPy Compiler Props TreeFS Scenarios.
Local Open Scope string_scope.

Lemma dotted_strip_slash (rel : string) : dotted rel -> dotted (strip_slash rel).
Proof.
  intros [->|[y ->]]; [now left|].
  unfold strip_slash. destruct (endswith "/" ("./" ++ y)); [|right; now exists y].
  destruct y as [|c y]; [now left|].
  right. exists (chop (String c y)). reflexivity.
Qed.

Lemma dotted_child (rel x : string) :
  dotted rel -> dotted (strip_slash rel ++ "/" ++ x).
Proof.
  intros H. apply dotted_strip_slash in H. destruct H as [->|[y ->]].
  - right. now exists x.
  - right. exists (y ++ "/" ++ x). reflexivity.
Qed.

Lemma for_each_fail {A} (f : A -> verdict) (l : list A) (m : string) :
  for_each f l = Fail m -> exists x, In x l /\ f x = Fail m.
Proof.
  induction l as [|x l IH]; cbn [for_each]; intros H; [discriminate|].
  destruct (f x) eqn:E; cbn [and_then] in H.
  - destruct (IH H) as [y [Hy Hf]]. exists y. split; [now right | exact Hf].
  - injection H as ->. exists x. split; [now left | exact E].
Qed.

Lemma first_failure_fail (checks : list verdict) (m : string) :
  first_failure checks = Fail m -> In (Fail m) checks.
Proof.
  induction checks as [|v checks IH]; cbn; intros H; [discriminate|].
  destruct v; cbn in H; [right; now apply IH | left; exact H].
Qed.

Lemma try_wildcards_fail (rel base : string) (wild : list (string * proc))
    (m : string) :
  forall matched,
    try_wildcards rel base matched wild = Fail m ->
    m = "ambiguous directory rule for: " ++ strip_slash rel ++ "/" ++ base
    \/ exists c, In c wild /\ snd c (strip_slash rel ++ "/" ++ base) = Fail m.
Proof.
  induction wild as [|[pat rule_k] wild IH]; intros matched H;
    cbn [try_wildcards] in H; [discriminate|].
  destruct (Glob.glob_match pat base).
  - destruct matched.
    + injection H as <-. now left.
    + destruct (rule_k _) eqn:E; cbn [and_then] in H.
      * destruct (IH _ H) as [?|[c [Hc Hf]]]; [now left|].
        right. exists c. split; [now right | exact Hf].
      * injection H as ->. right. exists (pat, rule_k). split; [now left | exact E].
  - destruct (IH _ H) as [?|[c [Hc Hf]]]; [now left|].
    right. exists c. split; [now right | exact Hf].
Qed.

Ltac failing_item H :=
  unfold required_directory_checks, required_file_checks, extra_entry_scan,
    literal_child_recursion, wildcard_child_recursion in H;
  apply for_each_fail in H.

(** No run reports as unexpected a file of the root whose name is ignored. *)
Lemma ignored_name_never_unexpected (fs : FileSystem) (ROOT : string)
    (aee sr : bool) (ign : list string) (b : string) :
  contains "/" b = false ->
  is_ignored ign b = true ->
  forall n rel,
    dotted rel ->
    compile_node fs ROOT aee sr ign n rel <> Fail ("unexpected file: ./" ++ b).
Proof.
  intros Hb Hign n.
  induction n as [i r kids IH] using node_induction.
  intros rel Hrel Hrun. rewrite compile_node_phases in Hrun.
  apply first_failure_fail in Hrun. unfold phases in Hrun.
  rewrite Forall_forall in IH.
  destruct Hrun as [H|[H|[H|[H|[H|[H|[]]]]]]].
  - unfold missing_directory_check in H.
    destruct (is_dir fs _); [discriminate|]. cbn in H. discriminate.
  - failing_item H. destruct H as [x [_ H]].
    unfold check_required_dir in H.
    destruct (is_dir fs _); [discriminate|]. cbn in H. discriminate.
  - failing_item H. destruct H as [x [_ H]].
    unfold check_required_file in H.
    destruct (is_file fs _); [discriminate|]. cbn in H. discriminate.
  - failing_item H. destruct H as [e [_ H]].
    unfold check_entry in H.
    destruct (is_ignored ign (basename_safe e)) eqn:Hi; [discriminate|].
    destruct (is_dir fs e).
    + destruct (matches_any _ _); [discriminate|].
      destruct (allow_extra_of _ _ _); [discriminate|]. cbn in H. discriminate.
    + destruct (matches_any _ _); [discriminate|].
      destruct (allow_extra_of _ _ _); [discriminate|].
      injection H as H.
      destruct (dotted_strip_slash rel Hrel) as [E|[y E]]; rewrite E in H.
      * cbn [append] in H. injection H as H. rewrite H, Hign in Hi. discriminate.
      * cbn [append] in H. injection H as H.
        assert (Hc : contains "/" (y ++ String "/" (basename_safe e)) = true).
        { rewrite contains_app. cbn. apply orb_true_r. }
        rewrite H, Hb in Hc. discriminate.
  - failing_item H. destruct H as [c [Hc H]].
    unfold literal_kids in Hc. apply filter_In in Hc. destruct Hc as [Hc _].
    apply (IH c Hc _ (dotted_child rel (child_name c) Hrel) H).
  - failing_item H. destruct H as [e [_ H]].
    unfold wildcard_visit, wildcard_entry in H.
    destruct (negb (is_dir fs e)); [discriminate|].
    destruct (is_ignored ign (basename_safe e)); [discriminate|].
    destruct (mem _ _); [discriminate|].
    apply try_wildcards_fail in H. destruct H as [H|[c [Hc H]]].
    + cbn in H. discriminate.
    + apply in_map_iff in Hc. destruct Hc as [k [<- Hk]]. cbn [snd] in H.
      unfold wildcard_kids in Hk. apply filter_In in Hk. destruct Hk as [Hk _].
      apply (IH k Hk _ (dotted_child rel (basename_safe e) Hrel) H).
Qed.

Lemma matches_any_In (name pat : string) (pats : list string) :
  In pat pats -> Glob.glob_match pat name = true -> matches_any name pats = true.
Proof.
  intros Hin Hm. unfold matches_any. apply existsb_exists. now exists pat.
Qed.

(** C6, at a file named [-n]: whatever the options, [.git] and the name of
    the spec file are in [IGNORE_BASENAMES]; but with the ignore pattern
    [-*], which the name [-n] matches, the file is not skipped: [echo] takes
    the name for an option, the basename that the script computes for the
    entry is empty, no pattern matches it and the file is reported as
    unexpected, under a path without its name.  A file named [-x] in its
    place is skipped. *)
Theorem ignored_entries_are_skipped :
  (forall options spec_basename,
      In ".git" (ignore_items options spec_basename)
      /\ In spec_basename (ignore_items options spec_basename))
  /\ Glob.glob_match "-*" "-n" = true
  /\ last_component "/proj/./d/-n" = "-n"
  /\ basename_safe "/proj/./d/-n" = ""
  /\ Cli._cmd_check pictures_text ".dirc" ["-*"] false false (of_tree hyphen_n)
                    "/proj"
     = Cli.Checked (Fail "unexpected file: ./d/")
  /\ Cli._cmd_check pictures_text ".dirc" ["-*"] false false (of_tree hyphen_x)
                    "/proj"
     = Cli.Checked Pass.
Proof.
  split; [exact ignore_items_always|].
  repeat split; vm_compute; reflexivity.
Qed.

End SpecFileIgnored.

Section Ambiguity.
Import PyStr SpecPy Compiler Props TreeFS Scenarios.
Local Open Scope string_scope.






End Ambiguity.

(** ** The driver and the end-to-end scenarios *)

Section DriverFacts.
Import PyStr SpecPy Compiler Cli TreeFS Scenarios.
Local Open Scope string_scope.

(** C10: started with a non-empty argument that is no directory, the script
    sets [ROOT] to [.] and runs the root rule there. *)
Theorem missing_root_argument_falls_back
    (spec_root : DirectoryRule) (options : CompileOptions)
    (spec_basename : string) (fs : FileSystem) (arg : string)
    (more : list string) :
  arg <> "" ->
  is_dir fs arg = false ->
  compile_to_bash spec_root options spec_basename fs (arg :: more)
  = compile_node fs "." (allow_extra_everywhere options) (strict_root options)
             (ignore_items options spec_basename) (_build_nodes spec_root) ".".
Proof.
  intros Hne Hdir. unfold compile_to_bash.
  destruct (String.eqb_spec arg "") as [E|_]; [contradiction|].
  simpl. rewrite Hdir. reflexivity.
Qed.

Lemma missing_root_argument_falls_back_witness :
  "/nowhere" <> ""
  /\ is_dir (of_tree both_folders) "/nowhere" = false
  /\ compile_to_bash photo_rules defaults ".dirc" (of_tree both_folders) ["/nowhere"]
     = compile_node (of_tree both_folders) "." false false [".git"; ".dirc"]
                (_build_nodes photo_rules) ".".
Proof.
  split; [discriminate|]. split; [reflexivity|].
  apply (missing_root_argument_falls_back photo_rules defaults ".dirc"
           (of_tree both_folders) "/nowhere" []).
  - discriminate.
  - reflexivity.
Defined.

(** C9, as stated: the message is not the one the scenario expects. *)
Lemma scenario_message_differs :
  _cmd_check two_folders ".dirc" [] false false (of_tree only_folder1) "/proj"
  <> Checked (Fail "unexpected file: folder1/readme.txt").
Proof.
  vm_compute. discriminate.
Qed.

(** C9, amended: [folder2] is a required directory of the root and is looked
    for before any entry is scanned, so its absence is what is reported; once
    an empty [folder2] exists, the undeclared file is reported, its path
    written from [.]. *)
Theorem scenario_first_violation :
  _cmd_check two_folders ".dirc" [] false false (of_tree only_folder1) "/proj"
  = Checked (Fail "missing required directory: ./folder2")
  /\ _cmd_check two_folders ".dirc" [] false false (of_tree both_folders) "/proj"
     = Checked (Fail "unexpected file: ./folder1/readme.txt").
Proof.
  split; vm_compute; reflexivity.
Qed.


End DriverFacts.

(** ** The parser *)

Section LineFacts.
Import PyStr SpecPy Props.
Local Open Scope string_scope.

Lemma lstrip_head (s : string) :
  lstrip s = "" \/ exists c r, lstrip s = String c r /\ isspace c = false.
Proof.
  induction s as [|d s IH]; cbn [lstrip]; [now left|].
  destruct (isspace d) eqn:E; [exact IH|].
  right. now exists d, s.
Qed.

Lemma lstrip_spaces_prefix (n : nat) (s : string) :
  lstrip (spaces n ++ s) = lstrip s.
Proof. induction n as [|n IH]; cbn; [reflexivity | exact IH]. Qed.

Lemma rstrip_empty (s : string) : rstrip s = "" -> all_chars isspace s = true.
Proof.
  induction s as [|d s IH]; cbn [rstrip all_chars]; [reflexivity|].
  destruct (rstrip s) eqn:E; [|discriminate].
  destruct (isspace d); [|discriminate]. intros _. now apply IH.
Qed.

Lemma lstrip_expandtabs (s : string) (c : ascii) (r : string) :
  lstrip s = String c r -> isspace c = false ->
  forall t col, exists r', lstrip (expandtabs_from t col s) = String c r'.
Proof.
  induction s as [|d s IH]; cbn [lstrip]; [discriminate|].
  intros H Hc t col. cbn [expandtabs_from].
  destruct (isspace d) eqn:E.
  - specialize (IH H Hc).
    destruct (Ascii.eqb d tab).
    + destruct (t =? 0)%nat; [apply IH|].
      rewrite lstrip_spaces_prefix. apply IH.
    + destruct (Ascii.eqb d lf || Ascii.eqb d cr); cbn [lstrip]; rewrite E;
        apply IH.
  - injection H as -> ->.
    destruct (Ascii.eqb_spec c tab) as [->|_]; [discriminate|].
    destruct (Ascii.eqb c lf || Ascii.eqb c cr); cbn [lstrip]; rewrite E;
      eexists; reflexivity.
Qed.

Lemma lstrip_lstrip_spaces (s : string) : lstrip (lstrip_spaces s) = lstrip s.
Proof.
  induction s as [|d s IH]; cbn [lstrip_spaces lstrip]; [reflexivity|].
  destruct (Ascii.eqb_spec d " ") as [->|_]; [exact IH | reflexivity].
Qed.

Lemma lstrip_spaces_length (s : string) :
  String.length (lstrip_spaces s) <= String.length s.
Proof.
  induction s as [|d s IH]; cbn [lstrip_spaces String.length]; [lia|].
  destruct (Ascii.eqb d " "); cbn [String.length]; lia.
Qed.

Lemma drop_indent (s : string) : drop (indent_of s) s = lstrip_spaces s.
Proof.
  unfold indent_of.
  induction s as [|d s IH]; cbn [lstrip_spaces String.length]; [reflexivity|].
  destruct (Ascii.eqb d " ").
  - pose proof (lstrip_spaces_length s).
    replace (S (String.length s) - String.length (lstrip_spaces s))
      with (S (String.length s - String.length (lstrip_spaces s))) by lia.
    cbn [drop]. exact IH.
  - cbn [String.length]. rewrite Nat.sub_diag. reflexivity.
Qed.

Lemma lstrip_rstrip (s : string) (c : ascii) (r : string) :
  lstrip s = String c r -> isspace c = false ->
  exists r', lstrip (rstrip s) = String c r'.
Proof.
  induction s as [|d s IH]; cbn [lstrip]; [discriminate|].
  destruct (isspace d) eqn:E; intros H Hc.
  - destruct (IH H Hc) as [r' Hr']. cbn [rstrip].
    destruct (rstrip s) eqn:Ers; [discriminate|].
    cbn [lstrip]. rewrite E. now exists r'.
  - injection H as -> ->. cbn [rstrip].
    destruct (rstrip r); rewrite ?E; cbn [lstrip]; rewrite E; eexists; reflexivity.
Qed.

Lemma before_comment_ink (s : string) (c : ascii) (r : string) :
  lstrip s = String c r -> isspace c = false -> c <> "#"%char ->
  forall prev t, before_comment prev s = Some t -> all_chars isspace t = false.
Proof.
  induction s as [|d s IH]; cbn [lstrip]; [discriminate|].
  intros H Hc Hne prev t. cbn [before_comment].
  destruct (isspace d) eqn:E.
  - destruct (Ascii.eqb_spec d "#") as [->|_]; [discriminate|]. cbn [andb].
    destruct (before_comment true s) as [t'|] eqn:Et; [|discriminate].
    intros [= <-]. cbn [all_chars]. rewrite E. cbn [andb].
    apply (IH H Hc Hne true). exact Et.
  - injection H as -> ->.
    destruct (Ascii.eqb_spec c "#") as [?|_]; [contradiction|]. cbn [andb].
    destruct (before_comment false r); [|discriminate].
    intros [= <-]. cbn [all_chars]. now rewrite E.
Qed.

Lemma significant_head (raw : string) :
  significant raw = true ->
  exists c r, lstrip raw = String c r /\ isspace c = false /\ c <> "#"%char.
Proof.
  unfold significant, is_blank, is_comment, strip, startswith.
  intros H. apply andb_true_iff in H. destruct H as [Hb Hc].
  apply negb_true_iff in Hb, Hc.
  destruct (lstrip_head raw) as [E|[c [r [E Hs]]]].
  - rewrite E in Hb. discriminate.
  - exists c, r. split; [exact E|]. split; [exact Hs|].
    intros ->. rewrite E in Hc. cbn in Hc. destruct r; discriminate.
Qed.

(** A line that passes the two tests of the look-ahead has content: the
    third test of the main loop skips nothing. *)
Lemma significant_has_content (raw : string) :
  significant raw = true ->
  String.eqb (content_raw_of (_expand_tabs raw) (indent_of (_expand_tabs raw))) ""
  = false.
Proof.
  intros H. destruct (significant_head raw H) as [c [r [E [Hs Hne]]]].
  destruct (lstrip_expandtabs raw c r E Hs 4 0) as [r1 E1].
  fold (expandtabs 4 raw) in E1. fold (_expand_tabs raw) in E1.
  unfold content_raw_of. rewrite drop_indent.
  rewrite <- lstrip_lstrip_spaces in E1.
  destruct (lstrip_rstrip _ c r1 E1 Hs) as [r2 E2].
  set (y := rstrip (lstrip_spaces (_expand_tabs raw))) in *.
  apply String.eqb_neq.
  destruct (before_comment true y) as [t|] eqn:Et.
  - intros H0. apply rstrip_empty in H0.
    rewrite (before_comment_ink y c r2 E2 Hs Hne true t Et) in H0. discriminate.
  - intros H0. rewrite H0 in E2. discriminate.
Qed.

End LineFacts.

Section LoopFacts.
Import PyStr SpecPy Props Scenarios.
Local Open Scope string_scope.

Lemma step_skipped (idx0 : nat) (raw : string) (after : list string)
    (st : pstate) :
  significant raw = false -> step idx0 raw after st = Ok (st, Skipped).
Proof.
  unfold significant, step. intros H.
  destruct (is_blank raw); [reflexivity|].
  destruct (is_comment raw); [reflexivity | discriminate].
Qed.

Lemma step_significant (idx0 : nat) (raw : string) (after : list string)
    (st : pstate) :
  significant raw = true ->
  step idx0 raw after st
  = process (idx0 + 1) (line_indent raw)
      (content_raw_of (_expand_tabs raw) (line_indent raw))
      (option_map (fun n => line_indent (snd n)) (next_nonempty_line idx0 after))
      st.
Proof.
  intros H. pose proof (significant_has_content raw H) as Hc.
  unfold significant in H. apply andb_true_iff in H. destruct H as [Hb Hm].
  apply negb_true_iff in Hb, Hm.
  unfold step. rewrite Hb, Hm. cbv zeta. unfold line_indent in *.
  rewrite Hc. reflexivity.
Qed.

Lemma next_nonempty_line_found (after : list string) :
  forall i j nxt,
    next_nonempty_line i after = Some (j, nxt) ->
    exists skipped rest,
      after = (skipped ++ nxt :: rest)%list
      /\ j = (i + 1 + List.length skipped)%nat
      /\ Forall (fun l => significant l = false) skipped
      /\ significant nxt = true.
Proof.
  induction after as [|l after IH]; intros i j nxt H; cbn [next_nonempty_line] in H;
    [discriminate|].
  destruct (is_blank l) eqn:Eb; [|destruct (is_comment l) eqn:Ec].
  - destruct (IH _ _ _ H) as [sk [rest [-> [-> [Hsk Hn]]]]].
    exists (l :: sk), rest. repeat split; cbn [List.length]; [lia| |exact Hn].
    constructor; [|exact Hsk]. unfold significant. now rewrite Eb.
  - destruct (IH _ _ _ H) as [sk [rest [-> [-> [Hsk Hn]]]]].
    exists (l :: sk), rest. repeat split; cbn [List.length]; [lia| |exact Hn].
    constructor; [|exact Hsk]. unfold significant. rewrite Ec.
    apply andb_false_r.
  - injection H as <- <-. exists [], after.
    repeat split; cbn [List.length]; [lia|constructor|].
    unfold significant. now rewrite Eb, Ec.
Qed.

Lemma parse_loop_skip (skipped rest : list string) :
  Forall (fun l => significant l = false) skipped ->
  forall idx0 st,
    parse_loop idx0 (skipped ++ rest)%list st
    = parse_loop (idx0 + List.length skipped) rest st.
Proof.
  induction 1 as [|l skipped Hl _ IH]; intros idx0 st; cbn [app List.length].
  - now rewrite Nat.add_0_r.
  - cbn [parse_loop]. rewrite (step_skipped _ _ _ _ Hl), IH.
    f_equal. lia.
Qed.

Lemma place_facts (st : pstate) (stack' : list nat) (unit' : option nat)
    (level : nat) (content : string) (dir_forced has_children : bool)
    (st' : pstate) (k : line_class) :
  place st stack' unit' level content dir_forced has_children = (st', k) ->
  indent_unit st' = unit'
  /\ (is_file_leaf k = true ->
      last_was_file_at_level st' = Some level /\ has_children = false).
Proof.
  unfold place.
  destruct (negb dir_forced && negb has_children && _is_file_pattern content)
    eqn:E1.
  - intros [= <- <-]. split; [reflexivity|]. intros _. split; [reflexivity|].
    destruct has_children; [|reflexivity].
    rewrite andb_false_r in E1. discriminate.
  - destruct (negb dir_forced && negb has_children && contains "." content
              && negb (glob_has_magic content) && negb (contains "{" content))
      eqn:E2.
    + intros [= <- <-]. split; [reflexivity|]. intros _. split; [reflexivity|].
      destruct has_children; [|reflexivity].
      rewrite andb_false_r in E2. discriminate.
    + intros [= <- <-]. split; [reflexivity|]. discriminate.
Qed.

(** What a round that ends normally has established. *)
Lemma process_ok (idx indent : nat) (content_raw : string)
    (nxt_indent : option nat) (st st' : pstate) (k : line_class) :
  process idx indent content_raw nxt_indent st = Ok (st', k) ->
  exists level,
    ((indent = 0 /\ level = 0 /\ indent_unit st' = indent_unit st)
     \/ (indent <> 0 /\
         exists u, indent_unit st' = Some u /\ 0 < u /\ indent mod u = 0
                   /\ level = indent / u
                   /\ u = match indent_unit st with
                          | None => indent
                          | Some u0 => u0
                          end))
    /\ (is_file_leaf k = true ->
        last_was_file_at_level st' = Some level
        /\ has_children_of nxt_indent (indent_unit st') indent level = false).
Proof.
  unfold process.
  destruct (indent =? 0)%nat eqn:E0.
  - apply Nat.eqb_eq in E0.
    destruct (match last_was_file_at_level st with
              | Some l => (l <? 0)%nat | None => false end); [discriminate|].
    destruct (negb (List.length (firstn (0 + 1) (stack st)) =? 0 + 1)%nat);
      [discriminate|].
    intros [= H]. apply place_facts in H. destruct H as [Hu Hk].
    exists 0. split.
    + left. now repeat split.
    + intros Hf. destruct (Hk Hf) as [Hl Hh]. rewrite Hu. now split.
  - apply Nat.eqb_neq in E0.
    set (u := match indent_unit st with None => indent | Some u0 => u0 end).
    destruct (u <=? 0)%nat eqn:Eu; [discriminate|].
    apply Nat.leb_gt in Eu.
    destruct (indent mod u =? 0)%nat eqn:Em; [|discriminate]. cbn [negb].
    apply Nat.eqb_eq in Em.
    destruct (match last_was_file_at_level st with
              | Some l => (l <? indent / u)%nat | None => false end);
      [discriminate|].
    destruct (negb (List.length (firstn (indent / u + 1) (stack st))
                    =? indent / u + 1)%nat); [discriminate|].
    intros [= H]. apply place_facts in H. destruct H as [Hu Hk].
    exists (indent / u). split.
    + right. split; [exact E0|]. exists u. now repeat split.
    + intros Hf. destruct (Hk Hf) as [Hl Hh]. rewrite Hu. now split.
Qed.

Lemma process_err_line (idx indent : nat) (content_raw : string)
    (nxt_indent : option nat) (st : pstate) (e : SpecError) :
  process idx indent content_raw nxt_indent st = Err e -> err_line e = idx.
Proof.
  unfold process.
  destruct (indent =? 0)%nat.
  - destruct (match last_was_file_at_level st with
              | Some l => (l <? 0)%nat | None => false end);
      [now intros [= <-]|].
    destruct (negb _); [now intros [= <-] | discriminate].
  - destruct (_ <=? 0)%nat; [now intros [= <-]|].
    destruct (negb _); [now intros [= <-]|].
    destruct (match last_was_file_at_level st with
              | Some l => _ | None => false end);
      [now intros [= <-]|].
    destruct (negb _); [now intros [= <-] | discriminate].
Qed.

Lemma process_not_multiple (idx indent : nat) (content_raw : string)
    (nxt_indent : option nat) (st : pstate) (u : nat) :
  indent_unit st = Some u -> 0 < u -> indent mod u <> 0 ->
  process idx indent content_raw nxt_indent st = Err (mkError idx (NotMultiple u)).
Proof.
  intros Hu Hpos Hm. unfold process. rewrite Hu.
  destruct (indent =? 0)%nat eqn:E0.
  - apply Nat.eqb_eq in E0. subst indent.
    rewrite Nat.Div0.mod_0_l in Hm. contradiction.
  - apply Nat.leb_gt in Hpos. rewrite Hpos.
    apply Nat.eqb_neq in Hm. rewrite Hm. reflexivity.
Qed.

(** After a file leaf, a deeper line cannot be processed. *)
Lemma process_after_file_leaf (idx indent : nat) (content_raw : string)
    (ni : nat) (st st' : pstate) (k : line_class) :
  process idx indent content_raw (Some ni) st = Ok (st', k) ->
  is_file_leaf k = true ->
  indent < ni ->
  forall idx' content' nxt',
    exists c, process idx' ni content' nxt' st' = Err (mkError idx' c)
              /\ (c = InvalidIndentation \/ exists u, c = NotMultiple u).
Proof.
  intros H Hk Hlt idx' content' nxt'.
  apply process_ok in H. destruct H as [level [Hlevel Hleaf]].
  destruct (Hleaf Hk) as [Hlast Hhas]. clear Hleaf.
  unfold has_children_of in Hhas.
  apply Nat.ltb_lt in Hlt as Hltb.
  destruct (indent_unit st') as [u|] eqn:Eu.
  2:{ rewrite Hltb in Hhas. discriminate. }
  rewrite Hltb in Hhas. cbn [andb] in Hhas.
  unfold process. rewrite Eu.
  destruct (ni =? 0)%nat eqn:E0; [apply Nat.eqb_eq in E0; lia|].
  destruct (u <=? 0)%nat eqn:Eu0; [eexists; split; [reflexivity | now left]|].
  apply Nat.leb_gt in Eu0.
  destruct (ni mod u =? 0)%nat eqn:Em;
    [|eexists; split; [reflexivity | right; now exists u]].
  exfalso. apply Nat.eqb_eq in Em. apply Nat.ltb_ge in Hhas.
  pose proof (Nat.div_mod_eq ni u) as Hni. rewrite Em in Hni.
  destruct Hlevel as [[Hi [Hl _]]|[Hi [u' [Hu' [_ [Hm' [Hl _]]]]]]].
  - subst level. assert (ni / u = 0) by lia. nia.
  - injection Hu' as <-. pose proof (Nat.div_mod_eq indent u) as Hin.
    rewrite Hm' in Hin. subst level. nia.
Qed.

Lemma file_leaf_then_error (lines : list string) :
  forall i idx0 st raw k j nxt,
    nth_error lines i = Some raw ->
    nth_error (line_classes idx0 lines st) i = Some k ->
    is_file_leaf k = true ->
    next_nonempty_line (idx0 + i) (skipn (S i) lines) = Some (j, nxt) ->
    line_indent raw < line_indent nxt ->
    exists c, parse_loop idx0 lines st = Err (mkError (j + 1) c)
              /\ (c = InvalidIndentation \/ exists u, c = NotMultiple u).
Proof.
  induction lines as [|l lines IH]; intros i idx0 st raw k j nxt Hraw Hk Hleaf Hn Hlt.
  - destruct i; discriminate.
  - cbn [line_classes] in Hk. cbn [parse_loop].
    destruct (step idx0 l lines st) as [[st1 k1]|e] eqn:Es.
    2:{ destruct i; discriminate. }
    destruct i as [|i].
    + cbn in Hraw, Hk, Hn. injection Hraw as ->. injection Hk as ->.
      rewrite Nat.add_0_r in Hn.
      destruct (significant raw) eqn:Esig.
      2:{ rewrite (step_skipped _ _ _ _ Esig) in Es. injection Es as <- <-.
          discriminate. }
      rewrite (step_significant _ _ _ _ Esig), Hn in Es. cbn [option_map snd] in Es.
      destruct (next_nonempty_line_found _ _ _ _ Hn)
        as [sk [rest [-> [-> [Hsk Hsig]]]]].
      rewrite (parse_loop_skip _ _ Hsk). cbn [parse_loop].
      rewrite (step_significant _ _ _ _ Hsig).
      destruct (process_after_file_leaf _ _ _ _ _ _ _ Es Hleaf Hlt
                  (S idx0 + List.length sk + 1)
                  (content_raw_of (_expand_tabs nxt) (line_indent nxt))
                  (option_map (fun n => line_indent (snd n))
                     (next_nonempty_line (S idx0 + List.length sk) rest)))
        as [c [Hc Hcause]].
      rewrite Hc. exists c. split; [|exact Hcause]. do 2 f_equal. lia.
    + cbn [nth_error] in Hraw, Hk. cbn [skipn] in Hn.
      replace (idx0 + S i) with (S idx0 + i) in Hn by lia.
      exact (IH i (S idx0) st1 raw k j nxt Hraw Hk Hleaf Hn Hlt).
Qed.

Lemma file_leaf_lines
    (lines : list string) (i j : nat) (raw nxt : string) (k : line_class) :
  nth_error lines i = Some raw ->
  nth_error (line_classes 0 lines initial) i = Some k ->
  is_file_leaf k = true ->
  next_nonempty_line i (skipn (S i) lines) = Some (j, nxt) ->
  line_indent raw < line_indent nxt ->
  exists c, parse_lines lines = Err (mkError (j + 1) c)
            /\ (c = InvalidIndentation \/ exists u, c = NotMultiple u).
Proof.
  intros Hraw Hk Hleaf Hn Hlt.
  destruct (file_leaf_then_error lines i 0 initial raw k j nxt
              Hraw Hk Hleaf Hn Hlt) as [c [Hc Hcause]].
  exists c. split; [|exact Hcause]. unfold parse_lines. now rewrite Hc.
Qed.

(** C8: let the parser classify line [i] of a text as a file pattern or a
    required file, and let [nxt], line [j], be the line that follows it,
    blank and comment lines apart.  If [nxt] is indented deeper, parsing
    stops at [nxt] with an indentation error and returns no tree; hence
    wherever a tree is returned, the line after a file leaf is not indented
    deeper. *)
Theorem file_leaf_cannot_have_children
    (text : string) (i j : nat) (raw nxt : string) (k : line_class) :
  nth_error (splitlines text) i = Some raw ->
  nth_error (line_classes 0 (splitlines text) initial) i = Some k ->
  is_file_leaf k = true ->
  next_nonempty_line i (skipn (S i) (splitlines text)) = Some (j, nxt) ->
  (line_indent raw < line_indent nxt ->
   exists c, parse_spec text = Err (mkError (j + 1) c)
             /\ (c = InvalidIndentation \/ exists u, c = NotMultiple u))
  /\ (forall t, parse_spec text = Ok t -> line_indent nxt <= line_indent raw).
Proof.
  intros Hraw Hk Hleaf Hn. unfold parse_spec.
  pose proof (file_leaf_lines (splitlines text) i j raw nxt k Hraw Hk Hleaf Hn)
    as Hdeep.
  split; [exact Hdeep|].
  intros t Ht. destruct (Nat.le_gt_cases (line_indent nxt) (line_indent raw))
    as [Hle|Hlt]; [exact Hle|].
  destruct (Hdeep Hlt) as [c [Hc _]]. rewrite Hc in Ht. discriminate.
Qed.

Lemma file_leaf_cannot_have_children_witness :
  exists c,
    parse_spec ("notes" ++ newline ++ "  a.txt" ++ newline ++ "   deeper" ++ newline)
    = Err (mkError 3 c)
    /\ (c = InvalidIndentation \/ exists u, c = NotMultiple u).
Proof.
  apply (file_leaf_cannot_have_children
           ("notes" ++ newline ++ "  a.txt" ++ newline ++ "   deeper" ++ newline)
           1 2 "  a.txt" "   deeper" RequiredLeaf); try reflexivity.
  vm_compute. lia.
Defined.

(** The first indented line fixes the unit; a later line that is not a
    multiple of it stops the parse. *)
Lemma process_unit (idx indent : nat) (content_raw : string)
    (nxt_indent : option nat) (st st' : pstate) (k : line_class) :
  process idx indent content_raw nxt_indent st = Ok (st', k) ->
  indent_unit st'
  = if (indent =? 0)%nat then indent_unit st
    else Some match indent_unit st with
              | None => indent
              | Some u => u
              end.
Proof.
  intros H. apply process_ok in H.
  destruct H as [level [[[Hi [_ Hu]]|[Hi [u [Hu [_ [_ [_ ->]]]]]]] _]].
  - subst indent. exact Hu.
  - apply Nat.eqb_neq in Hi. now rewrite Hi.
Qed.

Lemma step_err_line (idx0 : nat) (raw : string) (after : list string)
    (st : pstate) (e : SpecError) :
  step idx0 raw after st = Err e -> err_line e = idx0 + 1.
Proof.
  destruct (significant raw) eqn:Es.
  - rewrite (step_significant _ _ _ _ Es). apply process_err_line.
  - rewrite (step_skipped _ _ _ _ Es). discriminate.
Qed.

Lemma bad_indent_then_error (lines : list string) :
  forall i idx0 st raw u,
    nth_error lines i = Some raw ->
    significant raw = true ->
    0 < u ->
    line_indent raw mod u <> 0 ->
    (indent_unit st = Some u
     \/ (indent_unit st = None /\ first_indent lines = Some u)) ->
    exists e,
      parse_loop idx0 lines st = Err e
      /\ err_line e <= idx0 + i + 1
      /\ (err_line e = idx0 + i + 1 -> err_cause e = NotMultiple u).
Proof.
  induction lines as [|l lines IH]; intros i idx0 st raw u Hraw Hsig Hpos Hmod Hunit.
  - destruct i; discriminate.
  - cbn [parse_loop]. destruct i as [|i].
    + cbn in Hraw. injection Hraw as ->.
      rewrite (step_significant _ _ _ _ Hsig).
      assert (Hu : indent_unit st = Some u).
      { destruct Hunit as [H|[_ H]]; [exact H|]. exfalso.
        cbn [first_indent] in H. rewrite Hsig in H. cbn [andb] in H.
        destruct (line_indent raw =? 0)%nat eqn:E0.
        - apply Nat.eqb_eq in E0. rewrite E0, Nat.Div0.mod_0_l in Hmod.
          contradiction.
        - cbn [negb] in H. injection H as <-.
          rewrite Nat.Div0.mod_same in Hmod. contradiction. }
      rewrite (process_not_multiple _ _ _ _ _ u Hu Hpos Hmod).
      eexists. split; [reflexivity|]. cbn [err_line err_cause].
      split; [lia | reflexivity].
    + cbn [nth_error] in Hraw.
      destruct (step idx0 l lines st) as [[st1 k1]|e] eqn:Es.
      2:{ exists e. split; [reflexivity|].
          apply step_err_line in Es. split; intros; lia. }
      assert (Hunit1 : indent_unit st1 = Some u
                       \/ (indent_unit st1 = None /\ first_indent lines = Some u)).
      { destruct (significant l) eqn:El.
        - rewrite (step_significant _ _ _ _ El) in Es.
          apply process_unit in Es.
          destruct Hunit as [H|[H Hf]].
          + left. rewrite Es, H. now destruct (line_indent l =? 0)%nat.
          + cbn [first_indent] in Hf. rewrite El in Hf. cbn [andb] in Hf.
            rewrite H in Es.
            destruct (line_indent l =? 0)%nat; cbn [negb] in Hf.
            * right. now split.
            * left. rewrite Es. exact Hf.
        - rewrite (step_skipped _ _ _ _ El) in Es. injection Es as <- <-.
          destruct Hunit as [H|[H Hf]]; [now left|]. right. split; [exact H|].
          cbn [first_indent] in Hf. now rewrite El in Hf. }
      destruct (IH i (S idx0) st1 raw u Hraw Hsig Hpos Hmod Hunit1)
        as [e [He [Hle Hc]]].
      exists e. split; [exact He|]. split; [lia|].
      intros E. apply Hc. lia.
Qed.

Lemma first_indent_positive (lines : list string) (u : nat) :
  first_indent lines = Some u -> 0 < u.
Proof.
  induction lines as [|l lines IH]; cbn [first_indent]; [discriminate|].
  destruct (significant l && negb (line_indent l =? 0)%nat) eqn:E; [|exact IH].
  intros [= <-]. apply andb_true_iff in E. destruct E as [_ E].
  apply negb_true_iff, Nat.eqb_neq in E. lia.
Qed.

(** The unit is never zero, so the remainders and quotients that the loop
    takes by it are those of Python. *)
Lemma indent_unit_never_zero (lines : list string) :
  forall idx0 st st',
    indent_unit st <> Some 0 ->
    parse_loop idx0 lines st = Ok st' ->
    indent_unit st' <> Some 0.
Proof.
  induction lines as [|l lines IH]; intros idx0 st st' Hst; cbn [parse_loop].
  - now intros [= <-].
  - destruct (step idx0 l lines st) as [[st1 k]|e] eqn:Es; [|discriminate].
    apply IH. destruct (significant l) eqn:El.
    + rewrite (step_significant _ _ _ _ El) in Es.
      rewrite (process_unit _ _ _ _ _ _ _ Es).
      destruct (line_indent l =? 0)%nat eqn:E0; [exact Hst|].
      apply Nat.eqb_neq in E0.
      destruct (indent_unit st) as [u|]; congruence.
    + rewrite (step_skipped _ _ _ _ El) in Es. now injection Es as <- _.
Qed.

End LoopFacts.

Section StoreFacts.
Import PyStr SpecPy Props.
Local Open Scope string_scope.

Lemma update_length (h : store) (a : nat) (f : obj -> obj) :
  List.length (update h a f) = List.length h.
Proof.
  revert a. induction h as [|o h IH]; intros [|a]; cbn; try reflexivity.
  now rewrite IH.
Qed.

Lemma update_nth (h : store) (a b : nat) (f : obj -> obj) :
  nth_error (update h a f) b
  = if (a =? b)%nat then option_map f (nth_error h b) else nth_error h b.
Proof.
  revert a b. induction h as [|o h IH]; intros a b.
  - cbn. destruct b; cbn; now destruct (a =? _)%nat.
  - destruct a as [|a], b as [|b]; cbn; try reflexivity. apply IH.
Qed.

Lemma update_keeps_ok (h : store) (a : nat) (f : obj -> obj) :
  (forall o, o_subdirs (f o) = o_subdirs o) ->
  store_ok h -> store_ok (update h a f).
Proof.
  intros Hf Hok b o c Hb Hc. rewrite update_length.
  rewrite update_nth in Hb. destruct (a =? b)%nat.
  - destruct (nth_error h b) as [o'|] eqn:E; [|discriminate].
    injection Hb as <-. rewrite Hf in Hc. exact (Hok b o' c E Hc).
  - exact (Hok b o c Hb Hc).
Qed.

Lemma Forall_firstn {A} (P : A -> Prop) (n : nat) (l : list A) :
  Forall P l -> Forall P (firstn n l).
Proof.
  revert n. induction l as [|x l IH]; intros [|n] H; cbn; try constructor.
  - now inversion H.
  - apply IH. now inversion H.
Qed.

Lemma last_in_range (l : list nat) (m : nat) :
  0 < m -> Forall (fun a => a < m) l -> last l 0 < m.
Proof.
  intros Hm. induction 1 as [|x l Hx Hl IH]; [exact Hm|].
  cbn [last]. destruct l; [exact Hx | exact IH].
Qed.

Lemma place_keeps_ok (st : pstate) (stack' : list nat) (unit' : option nat)
    (level : nat) (content : string) (df hc : bool) :
  store_ok (heap st) -> 0 < List.length (heap st) ->
  Forall (fun a => a < List.length (heap st)) stack' ->
  state_ok (fst (place st stack' unit' level content df hc)).
Proof.
  intros Hok Hpos Hstack. unfold place.
  destruct (negb df && negb hc && _is_file_pattern content);
    [|destruct (negb df && negb hc && contains "." content
                && negb (glob_has_magic content) && negb (contains "{" content))];
    cbn [fst]; unfold state_ok; cbn [heap stack].
  - rewrite update_length. split; [|now split].
    now apply update_keeps_ok.
  - rewrite update_length. split; [|now split].
    now apply update_keeps_ok.
  - pose proof (last_in_range stack' _ Hpos Hstack) as Hparent.
    rewrite length_app, update_length. cbn [List.length].
    split; [|split; [lia|]].
    + intros b o c Hb Hc. rewrite length_app, update_length. cbn [List.length].
      destruct (Nat.lt_ge_cases b (List.length (heap st))) as [Hlt|Hge].
      * rewrite nth_error_app1 in Hb by now rewrite update_length.
        rewrite update_nth in Hb.
        destruct (Nat.eqb_spec (last stack' 0) b) as [<-|_].
        -- destruct (nth_error (heap st) (last stack' 0)) as [o'|] eqn:E;
             [|discriminate].
           injection Hb as <-. cbn [append_subdir o_subdirs] in Hc.
           apply in_app_or in Hc. destruct Hc as [Hc|[<-|[]]]; [|lia].
           pose proof (Hok _ _ _ E Hc). lia.
        -- pose proof (Hok _ _ _ Hb Hc). lia.
      * rewrite nth_error_app2 in Hb by now rewrite update_length.
        rewrite update_length in Hb.
        destruct (b - List.length (heap st)) as [|k]; cbn in Hb.
        -- injection Hb as <-. destruct Hc.
        -- destruct k; discriminate.
    + apply Forall_app. split.
      * eapply Forall_impl; [|exact Hstack]. cbn. intros; lia.
      * constructor; [lia | constructor].
Qed.

Lemma process_keeps_ok (idx indent : nat) (content_raw : string)
    (nxt_indent : option nat) (st st' : pstate) (k : line_class) :
  state_ok st ->
  process idx indent content_raw nxt_indent st = Ok (st', k) -> state_ok st'.
Proof.
  intros [Hok [Hpos Hstack]]. unfold process.
  destruct (if (indent =? 0)%nat then _ else _) as [[unit' level]|e];
    [|discriminate].
  destruct (match last_was_file_at_level st with
            | Some l => _ | None => false end); [discriminate|].
  destruct (negb _); [discriminate|].
  intros [= H].
  pose proof (place_keeps_ok st (firstn (level + 1) (stack st)) unit' level
                (if endswith "/" (strip content_raw)
                    && negb (String.eqb (strip content_raw) "/")
                 then chop (strip content_raw) else strip content_raw)
                (endswith "/" (strip content_raw)
                 && negb (String.eqb (strip content_raw) "/"))
                (has_children_of nxt_indent unit' indent level)
                Hok Hpos (Forall_firstn _ _ _ Hstack)) as Hplace.
  rewrite H in Hplace. exact Hplace.
Qed.

Lemma parse_loop_keeps_ok (lines : list string) :
  forall idx0 st st',
    state_ok st -> parse_loop idx0 lines st = Ok st' -> state_ok st'.
Proof.
  induction lines as [|l lines IH]; intros idx0 st st' Hst; cbn [parse_loop].
  - now intros [= <-].
  - destruct (step idx0 l lines st) as [[st1 k]|e] eqn:Es; [|discriminate].
    apply IH. destruct (significant l) eqn:El.
    + rewrite (step_significant _ _ _ _ El) in Es.
      exact (process_keeps_ok _ _ _ _ _ _ _ Hst Es).
    + rewrite (step_skipped _ _ _ _ El) in Es. now injection Es as <- _.
Qed.

Lemma tree_at_enough (h : store) :
  store_ok h ->
  forall f1 f2 a,
    List.length h - a <= f1 -> List.length h - a <= f2 ->
    tree_at f1 h a = tree_at f2 h a.
Proof.
  intros Hok. induction f1 as [|f1 IH]; intros f2 a H1 H2.
  - assert (Hnone : nth_error h a = None) by (apply nth_error_None; lia).
    destruct f2; cbn [tree_at]; [reflexivity | now rewrite Hnone].
  - destruct f2 as [|f2].
    + assert (Hnone : nth_error h a = None) by (apply nth_error_None; lia).
      cbn [tree_at]. now rewrite Hnone.
    + cbn [tree_at]. destruct (nth_error h a) as [o|] eqn:E; [|reflexivity].
      f_equal. apply map_ext_in. intros c Hc.
      pose proof (Hok a o c E Hc). apply IH; lia.
Qed.

(** The depth bound used to read the tree off the store is large enough:
    a larger one gives the same tree. *)
Lemma root_of_any_fuel (lines : list string) (st : pstate) (fuel : nat) :
  parse_loop 0 lines initial = Ok st ->
  List.length (heap st) <= fuel ->
  tree_at fuel (heap st) 0 = root_of st.
Proof.
  intros Hparse Hfuel.
  assert (H0 : state_ok initial).
  { repeat split; cbn.
    - destruct a as [|[|a]]; cbn in H; [injection H as <-|..]; try discriminate;
        destruct H0.
    - destruct a as [|[|a]]; cbn in H; [injection H as <-|..]; try discriminate;
        destruct H0.
    - lia.
    - repeat constructor. }
  destruct (parse_loop_keeps_ok lines 0 initial st H0 Hparse) as [Hok _].
  unfold root_of. apply tree_at_enough; [exact Hok|lia..].
Qed.

End StoreFacts.

Section Rescaling.
Import PyStr SpecPy Props Scenarios.
Local Open Scope string_scope.

Lemma spaces_length (n : nat) : String.length (spaces n) = n.
Proof. induction n as [|n IH]; cbn; [reflexivity | now rewrite IH]. Qed.

Lemma contains_tab_spaces (n : nat) : contains tab (spaces n) = false.
Proof. induction n as [|n IH]; cbn; [reflexivity | exact IH]. Qed.

Lemma expandtabs_no_tab (s : string) :
  contains tab s = false -> forall t col, expandtabs_from t col s = s.
Proof.
  induction s as [|d s IH]; cbn [contains expandtabs_from]; [reflexivity|].
  intros H t col. apply orb_false_iff in H. destruct H as [Hd Hs].
  rewrite Ascii.eqb_sym in Hd. rewrite Hd.
  destruct (Ascii.eqb d lf || Ascii.eqb d cr); now rewrite IH.
Qed.

Lemma lstrip_spaces_rendered (n : nat) (c : string) :
  startswith " " c = false -> lstrip_spaces (spaces n ++ c) = c.
Proof.
  intros H. induction n as [|n IH]; cbn; [|exact IH].
  destruct c as [|a r]; [reflexivity|]. cbn [lstrip_spaces].
  destruct (Ascii.eqb_spec a " ") as [->|_]; [|reflexivity].
  cbn in H. destruct r; discriminate.
Qed.

Lemma drop_spaces (n : nat) (c : string) : drop n (spaces n ++ c) = c.
Proof. induction n as [|n IH]; cbn; [reflexivity | exact IH]. Qed.

Section Line.
Variables (n : nat) (c : string).
Hypothesis Hc : negb (contains tab c) && negb (startswith " " c) = true.

Lemma rendered_expand : _expand_tabs (spaces n ++ c) = spaces n ++ c.
Proof.
  apply andb_true_iff in Hc. destruct Hc as [Ht _].
  apply negb_true_iff in Ht.
  apply expandtabs_no_tab. now rewrite contains_app, contains_tab_spaces.
Qed.

Lemma rendered_indent : line_indent (spaces n ++ c) = n.
Proof.
  unfold line_indent. rewrite rendered_expand. unfold indent_of.
  apply andb_true_iff in Hc. destruct Hc as [_ Hs].
  apply negb_true_iff in Hs.
  rewrite (lstrip_spaces_rendered n c Hs), length_append, spaces_length. lia.
Qed.

Lemma rendered_content :
  content_raw_of (_expand_tabs (spaces n ++ c)) (line_indent (spaces n ++ c))
  = content_raw_of c 0.
Proof.
  rewrite rendered_indent, rendered_expand. unfold content_raw_of.
  now rewrite drop_spaces.
Qed.

Lemma rendered_significant : significant (spaces n ++ c) = significant c.
Proof.
  unfold significant, is_blank, is_comment, strip.
  now rewrite lstrip_spaces_prefix.
Qed.
End Line.

Lemma lookahead_scaled (u : nat) (doc : document) :
  tab_free doc = true ->
  forall i,
    option_map (fun p => line_indent (snd p)) (next_nonempty_line i (render u doc))
    = option_map (Nat.mul u)
        (option_map (fun p => line_indent (snd p))
                    (next_nonempty_line i (render 1 doc))).
Proof.
  induction doc as [|[d c] doc IH]; intros Hdoc i; [reflexivity|].
  cbn [tab_free forallb fst snd] in Hdoc. apply andb_true_iff in Hdoc.
  destruct Hdoc as [Hc Hdoc].
  cbn [render map fst snd next_nonempty_line].
  pose proof (rendered_significant (u * d) c) as Su.
  pose proof (rendered_significant (1 * d) c) as S1.
  unfold significant in Su, S1.
  assert (Hb : is_blank (spaces (u * d) ++ c) = is_blank (spaces (1 * d) ++ c)).
  { unfold is_blank, strip. now rewrite !lstrip_spaces_prefix. }
  assert (Hm : is_comment (spaces (u * d) ++ c) = is_comment (spaces (1 * d) ++ c)).
  { unfold is_comment. now rewrite !lstrip_spaces_prefix. }
  rewrite Hb, Hm.
  destruct (is_blank (spaces (1 * d) ++ c)); [apply (IH Hdoc)|].
  destruct (is_comment (spaces (1 * d) ++ c)); [apply (IH Hdoc)|].
  cbn [option_map snd]. rewrite !(rendered_indent _ c Hc). f_equal. lia.
Qed.

Lemma has_children_scaled (u : nat) (nd un : option nat) (d lvl : nat) :
  0 < u -> un <> Some 0 ->
  has_children_of (option_map (Nat.mul u) nd) (option_map (Nat.mul u) un)
                  (u * d) lvl
  = has_children_of nd un d lvl.
Proof.
  intros Hu Hun. destruct nd as [m|]; [|reflexivity].
  cbn [option_map has_children_of].
  assert (Hlt : (u * d <? u * m)%nat = (d <? m)%nat).
  { destruct (Nat.ltb_spec d m), (Nat.ltb_spec (u * d) (u * m)); try reflexivity; nia. }
  destruct un as [k|]; cbn [option_map]; [|exact Hlt].
  assert (k <> 0) by (intros ->; now apply Hun).
  rewrite Hlt, Nat.Div0.mul_mod_distr_l, Nat.Div0.div_mul_cancel_l by lia.
  assert (Hz : (u * (m mod k) =? 0)%nat = (m mod k =? 0)%nat).
  { destruct (Nat.eqb_spec (m mod k) 0), (Nat.eqb_spec (u * (m mod k)) 0);
      try reflexivity; nia. }
  now rewrite Hz.
Qed.

Lemma place_scaled (u : nat) (a b : pstate) (stack' : list nat)
    (un : option nat) (level : nat) (content : string) (df hc : bool) :
  heap a = heap b -> un <> Some 0 ->
  scaled u (fst (place a stack' un level content df hc))
           (fst (place b stack' (option_map (Nat.mul u) un) level content df hc))
  /\ snd (place a stack' un level content df hc)
     = snd (place b stack' (option_map (Nat.mul u) un) level content df hc).
Proof.
  intros Hh Hun. unfold place. rewrite Hh.
  destruct (negb df && negb hc && _is_file_pattern content).
  - cbn [fst snd]. now repeat split.
  - destruct (negb df && negb hc && contains "." content
              && negb (glob_has_magic content) && negb (contains "{" content)).
    + cbn [fst snd]. now repeat split.
    + cbn [fst snd]. now repeat split.
Qed.

Lemma process_scaled (u idx d : nat) (content_raw : string) (nd : option nat)
    (a b : pstate) :
  0 < u -> scaled u a b ->
  in_step (fun x y => scaled u (fst x) (fst y) /\ snd x = snd y)
          (process idx d content_raw nd a)
          (process idx (u * d) content_raw (option_map (Nat.mul u) nd) b).
Proof.
  intros Hu [Hh [Hs [Hl [Hunit Hnz]]]]. unfold process.
  rewrite <- Hs, <- Hl, Hunit.
  assert (E0 : (u * d =? 0)%nat = (d =? 0)%nat).
  { destruct (Nat.eqb_spec d 0), (Nat.eqb_spec (u * d) 0); try reflexivity; nia. }
  rewrite E0. destruct (d =? 0)%nat eqn:Ed.
  - destruct (match last_was_file_at_level a with
              | Some l => (l <? 0)%nat | None => false end); [reflexivity|].
    destruct (negb _); [reflexivity|]. cbn [in_step].
    rewrite (has_children_scaled u nd (indent_unit a) d 0 Hu Hnz).
    apply place_scaled; assumption.
  - apply Nat.eqb_neq in Ed.
    destruct (indent_unit a) as [k|] eqn:Ek; cbn [option_map].
    + assert (k <> 0) by (intros ->; now apply Hnz).
      assert (Ek0 : (u * k <=? 0)%nat = (k <=? 0)%nat).
      { destruct (Nat.leb_spec k 0), (Nat.leb_spec (u * k) 0); try reflexivity; nia. }
      rewrite Ek0. destruct (k <=? 0)%nat; [reflexivity|].
      rewrite Nat.Div0.mul_mod_distr_l, Nat.Div0.div_mul_cancel_l by lia.
      assert (Hz : (u * (d mod k) =? 0)%nat = (d mod k =? 0)%nat).
      { destruct (Nat.eqb_spec (d mod k) 0), (Nat.eqb_spec (u * (d mod k)) 0);
          try reflexivity; nia. }
      rewrite Hz. destruct (d mod k =? 0)%nat; cbn [negb]; [|reflexivity].
      destruct (match last_was_file_at_level a with
                | Some l => (l <? d / k)%nat | None => false end); [reflexivity|].
      destruct (negb _); [reflexivity|]. cbn [in_step].
      change (Some (u * k)) with (option_map (Nat.mul u) (Some k)).
      rewrite (has_children_scaled u nd (Some k) d (d / k) Hu) by congruence.
      apply place_scaled; [assumption | congruence].
    + assert (Ed0 : (u * d <=? 0)%nat = false) by (apply Nat.leb_gt; nia).
      assert (Ed1 : (d <=? 0)%nat = false) by (apply Nat.leb_gt; lia).
      rewrite Ed0, Ed1, !Nat.Div0.mod_same, !Nat.div_same by nia.
      cbn [Nat.eqb negb].
      destruct (match last_was_file_at_level a with
                | Some l => (l <? 1)%nat | None => false end); [reflexivity|].
      destruct (negb _); [reflexivity|]. cbn [in_step].
      change (Some (u * d)) with (option_map (Nat.mul u) (Some d)).
      rewrite (has_children_scaled u nd (Some d) d 1 Hu) by congruence.
      apply place_scaled; [assumption | congruence].
Qed.

Lemma step_scaled (u idx0 d : nat) (c : string) (rest : document)
    (a b : pstate) :
  0 < u ->
  negb (contains tab c) && negb (startswith " " c) = true ->
  tab_free rest = true ->
  scaled u a b ->
  in_step (fun x y => scaled u (fst x) (fst y) /\ snd x = snd y)
          (step idx0 (spaces (1 * d) ++ c) (render 1 rest) a)
          (step idx0 (spaces (u * d) ++ c) (render u rest) b).
Proof.
  intros Hu Hc Hrest Hab.
  destruct (significant c) eqn:Es.
  - rewrite !step_significant by now rewrite rendered_significant.
    rewrite !rendered_content, !rendered_indent by assumption.
    rewrite (lookahead_scaled u rest Hrest). rewrite Nat.mul_1_l.
    now apply process_scaled.
  - rewrite !step_skipped by now rewrite rendered_significant.
    cbn [in_step fst snd]. now split.
Qed.

Lemma parse_loop_scaled (u : nat) (doc : document) :
  0 < u -> tab_free doc = true ->
  forall idx0 a b,
    scaled u a b ->
    in_step (scaled u) (parse_loop idx0 (render 1 doc) a)
                       (parse_loop idx0 (render u doc) b).
Proof.
  intros Hu. induction doc as [|[d c] doc IH]; intros Hdoc idx0 a b Hab.
  - exact Hab.
  - cbn [tab_free forallb fst snd] in Hdoc. apply andb_true_iff in Hdoc.
    destruct Hdoc as [Hc Hdoc].
    cbn [render map fst snd parse_loop].
    pose proof (step_scaled u idx0 d c doc a b Hu Hc Hdoc Hab) as Hstep.
    fold (render 1 doc). fold (render u doc).
    destruct (step idx0 (spaces (1 * d) ++ c) (render 1 doc) a) as [[a1 k1]|e1];
      destruct (step idx0 (spaces (u * d) ++ c) (render u doc) b) as [[b1 k2]|e2];
      cbn [in_step fst snd] in Hstep; try contradiction.
    + destruct Hstep as [Hab1 _]. now apply IH.
    + exact Hstep.
Qed.

Lemma parse_lines_scaled (u : nat) (doc : document) :
  0 < u -> tab_free doc = true ->
  same_outcome (parse_lines (render 1 doc)) (parse_lines (render u doc)).
Proof.
  intros Hu Hdoc. unfold parse_lines.
  assert (H0 : scaled u initial initial).
  { repeat split. discriminate. }
  pose proof (parse_loop_scaled u doc Hu Hdoc 0 initial initial H0) as H.
  destruct (parse_loop 0 (render 1 doc) initial) as [a|e1];
    destruct (parse_loop 0 (render u doc) initial) as [b|e2];
    cbn [in_step] in H; try contradiction; cbn [same_outcome].
  - destruct H as [Hh _]. unfold root_of. now rewrite Hh.
  - exact H.
Qed.

Lemma same_outcome_common (x y z : result DirectoryRule) :
  same_outcome x y -> same_outcome x z -> same_outcome y z.
Proof.
  destruct x, y, z; cbn [same_outcome]; try contradiction; congruence.
Qed.

(** C7, as stated: a directory name with a tab in it is read with the tab
    expanded to the next multiple of four columns, so the name depends on
    how far the line is indented. *)
Lemma tab_in_name_depends_on_indent :
  let doc := [(0, "x"); (1, "a" ++ String tab "b")] in
  let text2 := "x" ++ newline ++ "  a" ++ String tab "b" ++ newline in
  let text4 := "x" ++ newline ++ "    a" ++ String tab "b" ++ newline in
  splitlines text2 = render 2 doc
  /\ splitlines text4 = render 4 doc
  /\ parse_spec text2
     = Ok (Rule "." [Rule "x" [Rule "a b" [] [] []] [] []] [] [])
  /\ parse_spec text4
     = Ok (Rule "." [Rule "x" [Rule "a   b" [] [] []] [] []] [] [])
  /\ ~ same_outcome (parse_spec text2) (parse_spec text4).
Proof.
  cbv zeta. repeat split; try (vm_compute; reflexivity).
  vm_compute. discriminate.
Qed.

(** C7, amended: let two texts have the same lines, the depth of every line
    written as twice that many spaces in the one and four times in the
    other, with no tab after the indentation.  Then both parse to the same
    tree, or both fail at the same line.  And in any text a line, neither
    blank nor comment, whose indentation is no multiple of the first
    indentation seen makes the parse fail: at that line, with the
    multiple-of-the-unit error, unless an earlier line already failed. *)
Theorem indentation_unit_scale_and_check :
  (forall doc text2 text4,
      tab_free doc = true ->
      splitlines text2 = render 2 doc ->
      splitlines text4 = render 4 doc ->
      same_outcome (parse_spec text2) (parse_spec text4))
  /\ (forall text i raw u,
        nth_error (splitlines text) i = Some raw ->
        significant raw = true ->
        first_indent (splitlines text) = Some u ->
        line_indent raw mod u <> 0 ->
        exists e,
          parse_spec text = Err e
          /\ err_line e <= i + 1
          /\ (err_line e = i + 1 -> err_cause e = NotMultiple u)).
Proof.
  split.
  - intros doc text2 text4 Hdoc H2 H4. unfold parse_spec. rewrite H2, H4.
    apply (same_outcome_common (parse_lines (render 1 doc)));
      apply parse_lines_scaled; (lia || assumption).
  - intros text i raw u Hraw Hsig Hfirst Hmod. unfold parse_spec.
    destruct (bad_indent_then_error (splitlines text) i 0 initial raw u Hraw Hsig
                (first_indent_positive _ u Hfirst) Hmod
                (or_intror (conj eq_refl Hfirst))) as [e [He [Hle Hc]]].
    exists e. unfold parse_lines. rewrite He. now repeat split.
Qed.

Lemma indentation_unit_scale_and_check_witness :
  same_outcome
    (parse_spec ("src" ++ newline ++ "  lib" ++ newline ++ "    .py" ++ newline
                 ++ "docs" ++ newline))
    (parse_spec ("src" ++ newline ++ "    lib" ++ newline ++ "        .py"
                 ++ newline ++ "docs" ++ newline))
  /\ exists e,
       parse_spec ("src" ++ newline ++ "  lib" ++ newline ++ "   util" ++ newline)
       = Err e
       /\ err_line e <= 3
       /\ (err_line e = 3 -> err_cause e = NotMultiple 2).
Proof.
  split.
  - apply (proj1 indentation_unit_scale_and_check
             [(0, "src"); (1, "lib"); (2, ".py"); (0, "docs")]);
      reflexivity.
  - apply (proj2 indentation_unit_scale_and_check
             ("src" ++ newline ++ "  lib" ++ newline ++ "   util" ++ newline)
             2 "   util" 2); try reflexivity.
    vm_compute. discriminate.
Defined.

End Rescaling.

(** ** What a verdict guarantees *)

Section VerdictFacts.
Import PyStr SpecPy Compiler Props Guarantees TreeFS Scenarios.
Local Open Scope string_scope.

Lemma phases_pass (fs : FileSystem) (ROOT : string) (aee sr : bool)
    (ign : list string) (n : _Node) (rel : string) :
  compile_node fs ROOT aee sr ign n rel = Pass <->
  missing_directory_check fs ROOT rel = Pass
  /\ required_directory_checks fs ROOT n rel = Pass
  /\ required_file_checks fs ROOT n rel = Pass
  /\ extra_entry_scan fs ROOT aee sr ign n rel = Pass
  /\ literal_child_recursion fs ROOT aee sr ign n rel = Pass
  /\ wildcard_child_recursion fs ROOT aee sr ign n rel = Pass.
Proof.
  rewrite compile_node_phases, first_failure_pass. unfold phases. split.
  - intros H. repeat split; apply H; cbn; tauto.
  - intros [H1 [H2 [H3 [H4 [H5 H6]]]]] v Hv. cbn in Hv.
    destruct Hv as [<-|[<-|[<-|[<-|[<-|[<-|[]]]]]]]; assumption.
Qed.

Lemma check_entry_lenient (fs : FileSystem) (ign : list string) (rel : string)
    (ad af : list string) (a a' : bool) (entry : string) :
  (a = true -> a' = true) ->
  check_entry fs ign rel ad af a entry = Pass ->
  check_entry fs ign rel ad af a' entry = Pass.
Proof.
  intros Ha. unfold check_entry.
  destruct (is_ignored ign _); [reflexivity|].
  destruct (is_dir fs entry); destruct (matches_any _ _); try reflexivity;
    destruct a; try discriminate; now rewrite Ha.
Qed.

Lemma try_wildcards_lenient (f g : _Node -> proc) (rel base : string)
    (kids : list _Node) :
  Forall (fun c => forall r, f c r = Pass -> g c r = Pass) kids ->
  forall matched,
    try_wildcards rel base matched (map (fun c => (child_name c, f c)) kids) = Pass ->
    try_wildcards rel base matched (map (fun c => (child_name c, g c)) kids) = Pass.
Proof.
  induction 1 as [|c kids Hc _ IH]; intros matched; cbn [map try_wildcards];
    [reflexivity|].
  destruct (Glob.glob_match (child_name c) base); [|apply IH].
  destruct matched; [discriminate|].
  rewrite !and_then_pass. intros [H1 H2]. split; [now apply Hc | now apply IH].
Qed.

(** X1: a tree that passes under some options passes under every more
    lenient choice of them: with extras allowed everywhere where they were
    not, and with the root not strict where it was. *)
Theorem leniency_is_monotone
    (fs : FileSystem) (ROOT : string) (ign : list string) (n : _Node)
    (aee sr aee' sr' : bool) :
  (aee = true -> aee' = true) ->
  (sr' = true -> sr = true) ->
  forall rel,
    compile_node fs ROOT aee sr ign n rel = Pass ->
    compile_node fs ROOT aee' sr' ign n rel = Pass.
Proof.
  intros Ha Hs. induction n as [i r kids IH] using node_induction.
  intros rel. rewrite !phases_pass.
  intros [H1 [H2 [H3 [H4 [H5 H6]]]]]. repeat split; try assumption.
  - unfold extra_entry_scan in *. rewrite for_each_pass in *.
    intros e He. eapply check_entry_lenient; [|exact (H4 e He)].
    intros E. unfold allow_extra_of. apply orb_true_iff.
    unfold allow_extra_of in E. apply orb_true_iff in E.
    destruct E as [E|E]; [left; now apply Ha|].
    apply andb_true_iff in E. destruct E as [E1 E2].
    right. rewrite E1. cbn [andb]. apply negb_true_iff.
    apply negb_true_iff in E2. destruct sr'; [|reflexivity].
    rewrite Hs in E2 by reflexivity. discriminate.
  - unfold literal_child_recursion in *. rewrite for_each_pass in *.
    intros c Hc. rewrite Forall_forall in IH. apply IH; [|now apply H5].
    unfold literal_kids in Hc. apply filter_In in Hc. now destruct Hc.
  - unfold wildcard_child_recursion in *. rewrite for_each_pass in *.
    intros e He. specialize (H6 e He). unfold wildcard_visit, wildcard_entry in *.
    destruct (negb (is_dir fs e)); [reflexivity|].
    destruct (is_ignored ign _); [reflexivity|].
    destruct (mem _ _); [reflexivity|].
    revert H6. apply try_wildcards_lenient. apply Forall_filter. exact IH.
Qed.

Lemma leniency_is_monotone_witness :
  compile_node (of_tree readme_root) "/proj" true false [".git"; ".dirc"]
               (_build_nodes (Rule "." [] [] [])) "." = Pass.
Proof.
  apply (leniency_is_monotone (of_tree readme_root) "/proj" [".git"; ".dirc"]
           (_build_nodes (Rule "." [] [] [])) false false true false).
  - discriminate.
  - discriminate.
  - reflexivity.
Defined.





Ltac find_failing H :=
  unfold required_directory_checks, required_file_checks, extra_entry_scan,
    literal_child_recursion, wildcard_child_recursion in H;
  apply for_each_fail in H.

(** Where a failure comes from: its message is a cause followed by a path
    that starts at [.]; with extras allowed everywhere the cause is no
    unexpected entry. *)
Lemma failure_origin (fs : FileSystem) (ROOT : string) (aee sr : bool)
    (ign : list string) (n : _Node) :
  forall rel m,
    dotted rel ->
    compile_node fs ROOT aee sr ign n rel = Fail m ->
    exists cause path,
      m = cause ++ path /\ In cause causes /\ dotted path
      /\ (aee = true ->
          cause <> "unexpected directory: " /\ cause <> "unexpected file: ").
Proof.
  induction n as [i r kids IH] using node_induction.
  intros rel m Hrel Hrun. rewrite compile_node_phases in Hrun.
  apply first_failure_fail in Hrun. unfold phases in Hrun.
  rewrite Forall_forall in IH.
  pose proof (dotted_child rel) as Hchild.
  destruct Hrun as [H|[H|[H|[H|[H|[H|[]]]]]]].
  - unfold missing_directory_check in H.
    destruct (is_dir fs _); [discriminate|]. injection H as <-.
    exists "missing directory: ", rel. repeat split; try assumption;
      try discriminate. cbn. tauto.
  - find_failing H. destruct H as [x [_ H]]. unfold check_required_dir in H.
    destruct (is_dir fs _); [discriminate|]. injection H as <-.
    exists "missing required directory: ", (strip_slash rel ++ "/" ++ x).
    repeat split; try discriminate; [cbn; tauto | now apply Hchild].
  - find_failing H. destruct H as [x [_ H]]. unfold check_required_file in H.
    destruct (is_file fs _); [discriminate|]. injection H as <-.
    exists "missing required file: ", (strip_slash rel ++ "/" ++ x).
    repeat split; try discriminate; [cbn; tauto | now apply Hchild].
  - find_failing H. destruct H as [e [_ H]]. unfold check_entry in H.
    destruct (is_ignored ign (basename_safe e)); [discriminate|].
    unfold allow_extra_of in H.
    destruct (is_dir fs e); destruct (matches_any _ _); try discriminate;
      destruct aee; cbn [orb] in H; try discriminate;
      destruct (String.eqb rel "." && negb sr); try discriminate;
      injection H as <-.
    + exists "unexpected directory: ", (strip_slash rel ++ "/" ++ basename_safe e).
      repeat split; try discriminate; [cbn; tauto | now apply Hchild].
    + exists "unexpected file: ", (strip_slash rel ++ "/" ++ basename_safe e).
      repeat split; try discriminate; [cbn; tauto | now apply Hchild].
  - find_failing H. destruct H as [c [Hc H]].
    unfold literal_kids in Hc. apply filter_In in Hc. destruct Hc as [Hc _].
    exact (IH c Hc _ m (Hchild (child_name c) Hrel) H).
  - find_failing H. destruct H as [e [_ H]].
    unfold wildcard_visit, wildcard_entry in H.
    destruct (negb (is_dir fs e)); [discriminate|].
    destruct (is_ignored ign (basename_safe e)); [discriminate|].
    destruct (mem _ _); [discriminate|].
    apply try_wildcards_fail in H. destruct H as [->|[c [Hc H]]].
    + exists "ambiguous directory rule for: ",
        (strip_slash rel ++ "/" ++ basename_safe e).
      repeat split; try discriminate; [cbn; tauto | now apply Hchild].
    + apply in_map_iff in Hc. destruct Hc as [k [<- Hk]]. cbn [snd] in H.
      unfold wildcard_kids in Hk. apply filter_In in Hk. destruct Hk as [Hk _].
      exact (IH k Hk _ m (Hchild (basename_safe e) Hrel) H).
Qed.

(** X4: for a tree whose names the shell reads as they stand, whatever the
    script reports is one of the six causes followed by a path written from
    [.]. *)
Theorem diagnostics_have_a_cause_and_a_path
    (spec_root : DirectoryRule) (options : CompileOptions)
    (spec_basename : string) (fs : FileSystem) (args : list string)
    (m : string) :
  Naming.well_named (_build_nodes spec_root) = true ->
  compile_to_bash spec_root options spec_basename fs args = Fail m ->
  exists cause path, m = cause ++ path /\ In cause causes /\ dotted path.
Proof.
  unfold compile_to_bash. intros _ H.
  apply failure_origin in H; [|now left].
  destruct H as [cause [path [H1 [H2 [H3 _]]]]]. now exists cause, path.
Qed.

Lemma diagnostics_have_a_cause_and_a_path_witness :
  exists cause path,
    "unexpected file: ./README.md" = cause ++ path
    /\ In cause causes /\ dotted path.
Proof.
  apply (diagnostics_have_a_cause_and_a_path (Rule "." [] [] [])
           (mkOptions [] false true) ".dirc" (of_tree readme_root) ["/proj"]).
  - reflexivity.
  - reflexivity.
Defined.

(** X5: with extras allowed everywhere no run reports an unexpected file or
    an unexpected directory. *)
Theorem allow_extra_never_unexpected
    (spec_root : DirectoryRule) (ignored : list string) (strict : bool)
    (spec_basename : string) (fs : FileSystem) (args : list string)
    (path : string) :
  compile_to_bash spec_root (mkOptions ignored true strict) spec_basename fs args
  <> Fail ("unexpected file: " ++ path)
  /\ compile_to_bash spec_root (mkOptions ignored true strict) spec_basename
                     fs args
     <> Fail ("unexpected directory: " ++ path).
Proof.
  unfold compile_to_bash. cbn [allow_extra_everywhere strict_root].
  split; intros H; apply failure_origin in H; try (now left);
    destruct H as [cause [p [H1 [H2 [_ H4]]]]];
    destruct (H4 eq_refl) as [Hd Hf];
    cbn in H2;
    destruct H2 as [<-|[<-|[<-|[<-|[<-|[<-|[]]]]]]];
    try contradiction; cbn in H1; discriminate.
Qed.






End VerdictFacts.

(** ** Further properties of the parser *)

Section ParserFacts.
Import PyStr SpecPy Props ParserNotions Scenarios.
Local Open Scope string_scope.

(** X8: a text without any line that is neither blank nor a comment (the
    empty text among them) parses to the bare root rule. *)
Theorem no_rule_line_gives_bare_root (text : string) :
  Forall (fun l => significant l = false) (splitlines text) ->
  parse_spec text = Ok (Rule "." [] [] []).
Proof.
  intros H. unfold parse_spec, parse_lines.
  rewrite <- (app_nil_r (splitlines text)).
  rewrite (parse_loop_skip _ [] H). reflexivity.
Qed.

Lemma no_rule_line_gives_bare_root_witness :
  parse_spec ("# layout" ++ newline ++ newline ++ "   # nothing yet" ++ newline)
  = Ok (Rule "." [] [] []).
Proof.
  apply no_rule_line_gives_bare_root. vm_compute. repeat constructor.
Defined.

Lemma next_nonempty_line_shift (after : list string) :
  forall i i',
    option_map snd (next_nonempty_line i after)
    = option_map snd (next_nonempty_line i' after).
Proof.
  induction after as [|l after IH]; intros i i'; cbn [next_nonempty_line];
    [reflexivity|].
  destruct (is_blank l); [apply IH|].
  destruct (is_comment l); [apply IH | reflexivity].
Qed.

Lemma lookahead_indent_shift (after : list string) (i i' : nat) :
  option_map (fun n => line_indent (snd n)) (next_nonempty_line i after)
  = option_map (fun n => line_indent (snd n)) (next_nonempty_line i' after).
Proof.
  pose proof (next_nonempty_line_shift after i i') as H.
  destruct (next_nonempty_line i after) as [[j x]|],
           (next_nonempty_line i' after) as [[j' x']|]; cbn in *;
    congruence.
Qed.

Lemma process_last_none (idx indent : nat) (content_raw : string)
    (nxt_indent : option nat) (st st' : pstate) (k : line_class) :
  process idx indent content_raw nxt_indent st = Ok (st', k) ->
  is_file_leaf k = false ->
  last_was_file_at_level st' = None.
Proof.
  unfold process.
  destruct (if (indent =? 0)%nat then _ else _) as [[unit' level]|e];
    [|discriminate].
  destruct (match last_was_file_at_level st with
            | Some l => _ | None => false end); [discriminate|].
  destruct (negb _); [discriminate|].
  unfold place.
  destruct (negb _ && negb _ && _is_file_pattern _);
    [intros [= <- <-]; discriminate|].
  destruct (negb _ && negb _ && contains "." _ && negb _ && negb _);
    [intros [= <- <-]; discriminate|].
  now intros [= <- <-].
Qed.

(** A round cannot stop on either of the two checks that guard against what
    the look-ahead has already excluded. *)
Lemma process_causes (idx indent : nat) (content_raw : string)
    (nxt_indent : option nat) (st : pstate) (e : SpecError) :
  indent_unit st <> Some 0 ->
  not_deeper st indent ->
  process idx indent content_raw nxt_indent st = Err e ->
  reachable_cause (err_cause e).
Proof.
  intros Hu Hnd. unfold process, not_deeper in *.
  destruct (indent =? 0)%nat eqn:E0.
  - destruct (last_was_file_at_level st) as [L|]; cbn [Nat.ltb Nat.leb].
    + destruct (negb _); [|discriminate]. intros [= <-]. now right.
    + destruct (negb _); [|discriminate]. intros [= <-]. now right.
  - apply Nat.eqb_neq in E0.
    destruct (indent_unit st) as [u|] eqn:Eu.
    + assert (u <> 0) by congruence.
      destruct (u <=? 0)%nat eqn:El; [apply Nat.leb_le in El; lia|].
      destruct (indent mod u =? 0)%nat eqn:Em; cbn [negb].
      * apply Nat.eqb_eq in Em.
        destruct (last_was_file_at_level st) as [L|].
        -- specialize (Hnd Em). apply Nat.ltb_ge in Hnd. rewrite Hnd.
           destruct (negb _); [|discriminate]. intros [= <-]. now right.
        -- destruct (negb _); [|discriminate]. intros [= <-]. now right.
      * intros [= <-]. left. exists u. split; [lia | reflexivity].
    + destruct (indent <=? 0)%nat eqn:El; [apply Nat.leb_le in El; lia|].
      rewrite Nat.Div0.mod_same. cbn [Nat.eqb negb].
      destruct (last_was_file_at_level st) as [L|]; [lia|].
      destruct (negb _); [|discriminate]. intros [= <-]. now right.
Qed.

Lemma process_blocks_next (idx indent : nat) (content_raw : string)
    (ni : nat) (st st' : pstate) (k : line_class) :
  process idx indent content_raw (Some ni) st = Ok (st', k) ->
  not_deeper st' ni.
Proof.
  intros H. unfold not_deeper.
  destruct (is_file_leaf k) eqn:Ek.
  - apply process_ok in H. destruct H as [level [Hlevel Hleaf]].
    destruct (Hleaf Ek) as [Hlast Hhas]. rewrite Hlast.
    unfold has_children_of in Hhas.
    destruct (indent_unit st') as [u|] eqn:Eu.
    + intros Hm.
      destruct (Nat.le_gt_cases (ni / u) level) as [Hle|Hgt]; [exact Hle|].
      exfalso. pose proof (Nat.div_mod_eq ni u) as Hni. rewrite Hm in Hni.
      assert (Hlt : (indent <? ni)%nat = true).
      { apply Nat.ltb_lt.
        assert (ni <> 0) by (intros ->; rewrite Nat.Div0.div_0_l in Hgt; lia).
        destruct Hlevel as [[Hi _]|[Hi [u' [Hu' [Hpos [Hm' [Hl _]]]]]]]; [lia|].
        injection Hu' as <-. pose proof (Nat.div_mod_eq indent u) as Hin.
        rewrite Hm' in Hin. subst level. nia. }
      rewrite Hlt in Hhas. apply Nat.eqb_eq in Hm. rewrite Hm in Hhas.
      cbn [andb] in Hhas. apply Nat.ltb_ge in Hhas. lia.
    + destruct Hlevel as [[Hi _]|[_ [u' [Hu' _]]]]; [|discriminate].
      subst indent. apply Nat.ltb_ge in Hhas. lia.
  - now rewrite (process_last_none _ _ _ _ _ _ _ H Ek).
Qed.

Lemma next_of_skipped (l : string) (lines : list string) (i : nat) :
  significant l = false ->
  option_map snd (next_nonempty_line i (l :: lines))
  = option_map snd (next_nonempty_line i lines).
Proof.
  intros El. cbn [next_nonempty_line].
  unfold significant in El. apply andb_false_iff in El.
  destruct El as [E|E]; apply negb_false_iff in E.
  - rewrite E. apply next_nonempty_line_shift.
  - rewrite E. destruct (is_blank l); apply next_nonempty_line_shift.
Qed.

Lemma next_of_significant (l : string) (lines : list string) (i : nat) :
  significant l = true ->
  option_map snd (next_nonempty_line i (l :: lines)) = Some l.
Proof.
  intros El. cbn [next_nonempty_line].
  unfold significant in El. apply andb_true_iff in El. destruct El as [E1 E2].
  apply negb_true_iff in E1, E2. now rewrite E1, E2.
Qed.

Lemma lookahead_as_snd (after : list string) (i : nat) :
  option_map (fun n => line_indent (snd n)) (next_nonempty_line i after)
  = option_map line_indent (option_map snd (next_nonempty_line 0 after)).
Proof.
  rewrite (lookahead_indent_shift after i 0).
  now destruct (next_nonempty_line 0 after) as [[j x]|].
Qed.

Lemma parse_loop_errors (lines : list string) :
  forall idx0 st e,
    indent_unit st <> Some 0 ->
    (forall nxt, option_map snd (next_nonempty_line 0 lines) = Some nxt ->
                 not_deeper st (line_indent nxt)) ->
    parse_loop idx0 lines st = Err e ->
    reachable_cause (err_cause e)
    /\ idx0 < err_line e <= idx0 + List.length lines
    /\ exists raw, nth_error lines (err_line e - idx0 - 1) = Some raw
                   /\ significant raw = true.
Proof.
  induction lines as [|l lines IH]; intros idx0 st e Hu Hnext; cbn [parse_loop];
    [discriminate|].
  destruct (significant l) eqn:El.
  - rewrite (step_significant _ _ _ _ El).
    pose proof (Hnext l (next_of_significant l lines 0 El)) as Hl.
    rewrite lookahead_as_snd.
    destruct (process _ _ _ _ st) as [[st1 k]|e1] eqn:Ep.
    + intros He.
      assert (Hu1 : indent_unit st1 <> Some 0).
      { rewrite (process_unit _ _ _ _ _ _ _ Ep).
        destruct (line_indent l =? 0)%nat eqn:E0; [exact Hu|].
        apply Nat.eqb_neq in E0. destruct (indent_unit st); congruence. }
      destruct (IH (S idx0) st1 e Hu1) as [Hc [Hr [raw [Hraw Hs]]]];
        [|exact He|].
      * intros nxt Hn. rewrite Hn in Ep. cbn [option_map] in Ep.
        exact (process_blocks_next _ _ _ _ _ _ _ Ep).
      * split; [exact Hc|]. cbn [List.length]. split; [lia|].
        exists raw. split; [|exact Hs].
        replace (err_line e - idx0 - 1) with (S (err_line e - S idx0 - 1)) by lia.
        exact Hraw.
    + intros [= <-]. split; [exact (process_causes _ _ _ _ _ _ Hu Hl Ep)|].
      rewrite (process_err_line _ _ _ _ _ _ Ep). cbn [List.length].
      split; [lia|]. exists l.
      replace (idx0 + 1 - idx0 - 1) with 0 by lia. now split.
  - rewrite (step_skipped _ _ _ _ El). intros He.
    destruct (IH (S idx0) st e Hu) as [Hc [Hr [raw [Hraw Hs]]]]; [|exact He|].
    + intros nxt Hn. apply Hnext. now rewrite (next_of_skipped l lines 0 El).
    + split; [exact Hc|]. cbn [List.length]. split; [lia|].
      exists raw. split; [|exact Hs].
      replace (err_line e - idx0 - 1) with (S (err_line e - S idx0 - 1)) by lia.
      exact Hraw.
Qed.

(** X9: an error of [parse_spec] is an indentation that is no multiple of
    the unit or an indentation jump, reported at a line of the text that is
    neither blank nor a comment; the checks for an invalid unit and for
    children under a file leaf never stop a parse. *)
Theorem parse_errors_are_indentation_errors (text : string) (e : SpecError) :
  parse_spec text = Err e ->
  reachable_cause (err_cause e)
  /\ 1 <= err_line e <= List.length (splitlines text)
  /\ exists raw, nth_error (splitlines text) (err_line e - 1) = Some raw
                 /\ significant raw = true.
Proof.
  unfold parse_spec, parse_lines.
  destruct (parse_loop 0 (splitlines text) initial) as [st|e'] eqn:Ep;
    [discriminate|].
  intros [= ->].
  destruct (parse_loop_errors (splitlines text) 0 initial e) as [Hc [Hr [raw [Hraw Hs]]]].
  - discriminate.
  - intros nxt _. exact I.
  - exact Ep.
  - split; [exact Hc|]. split; [lia|]. exists raw.
    rewrite Nat.sub_0_r in Hraw. now split.
Qed.

Lemma parse_errors_are_indentation_errors_witness :
  reachable_cause (NotMultiple 2)
  /\ 1 <= 3 <= List.length
               (splitlines ("src" ++ newline ++ "  lib" ++ newline ++ "   util"
                            ++ newline))
  /\ exists raw,
       nth_error (splitlines ("src" ++ newline ++ "  lib" ++ newline ++ "   util"
                              ++ newline)) (3 - 1) = Some raw
       /\ significant raw = true.
Proof.
  apply (parse_errors_are_indentation_errors
           ("src" ++ newline ++ "  lib" ++ newline ++ "   util" ++ newline)
           (mkError 3 (NotMultiple 2))).
  reflexivity.
Defined.

Lemma process_any_index (idx idx' indent : nat) (content_raw : string)
    (nxt_indent : option nat) (st : pstate) :
  same_but_lines (process idx indent content_raw nxt_indent st)
                 (process idx' indent content_raw nxt_indent st).
Proof.
  unfold process.
  destruct (indent =? 0)%nat.
  - destruct (match last_was_file_at_level st with
              | Some l => _ | None => false end); [reflexivity|].
    destruct (negb _); reflexivity.
  - destruct (_ <=? 0)%nat; [reflexivity|].
    destruct (negb (_ =? 0)%nat); [reflexivity|].
    destruct (match last_was_file_at_level st with
              | Some l => _ | None => false end); [reflexivity|].
    destruct (negb _); reflexivity.
Qed.

Lemma next_of_filtered (lines : list string) :
  option_map snd (next_nonempty_line 0 (filter significant lines))
  = option_map snd (next_nonempty_line 0 lines).
Proof.
  induction lines as [|l lines IH]; [reflexivity|]. cbn [filter].
  destruct (significant l) eqn:El.
  - now rewrite !next_of_significant.
  - now rewrite next_of_skipped.
Qed.

Lemma parse_loop_filtered (lines : list string) :
  forall idx idx' st,
    same_but_lines (parse_loop idx lines st)
                   (parse_loop idx' (filter significant lines) st).
Proof.
  induction lines as [|l lines IH]; intros idx idx' st; [reflexivity|].
  cbn [filter parse_loop]. destruct (significant l) eqn:El.
  - cbn [parse_loop]. rewrite !(step_significant _ _ _ _ El).
    rewrite !lookahead_as_snd, next_of_filtered.
    pose proof (process_any_index (idx + 1) (idx' + 1) (line_indent l)
                  (content_raw_of (_expand_tabs l) (line_indent l))
                  (option_map line_indent
                     (option_map snd (next_nonempty_line 0 lines))) st) as Hp.
    destruct (process (idx + 1) _ _ _ st) as [[a k]|e1];
      destruct (process (idx' + 1) _ _ _ st) as [[b k']|e2];
      cbn [same_but_lines] in Hp; try contradiction.
    + injection Hp as <- <-. apply IH.
    + exact Hp.
  - rewrite (step_skipped _ _ _ _ El). apply IH.
Qed.

Lemma same_but_lines_chain {A} (x y z : result A) :
  same_but_lines x y -> same_but_lines z y -> same_but_lines x z.
Proof.
  destruct x, y, z; cbn [same_but_lines]; try contradiction; congruence.
Qed.

(** X10: blank lines and comment lines never matter: two texts with the same
    other lines, in the same order, parse to the same tree, or fail for the
    same cause. *)
Theorem blank_and_comment_lines_are_ignored (text1 text2 : string) :
  filter significant (splitlines text1) = filter significant (splitlines text2) ->
  same_but_lines (parse_spec text1) (parse_spec text2).
Proof.
  intros H. unfold parse_spec, parse_lines.
  pose proof (parse_loop_filtered (splitlines text1) 0 0 initial) as H1.
  pose proof (parse_loop_filtered (splitlines text2) 0 0 initial) as H2.
  rewrite H in H1.
  pose proof (same_but_lines_chain _ _ _ H1 H2) as H12.
  destruct (parse_loop 0 (splitlines text1) initial),
           (parse_loop 0 (splitlines text2) initial);
    cbn [same_but_lines] in *; try contradiction; congruence.
Qed.

Lemma blank_and_comment_lines_are_ignored_witness :
  same_but_lines
    (parse_spec ("# top" ++ newline ++ "src" ++ newline ++ newline
                 ++ "    # sources" ++ newline ++ "    .py" ++ newline))
    (parse_spec ("src" ++ newline ++ "    .py" ++ newline)).
Proof.
  apply blank_and_comment_lines_are_ignored. reflexivity.
Defined.

Lemma lstrip_tabs_prefix (n : nat) (s : string) : lstrip (tabs n ++ s) = lstrip s.
Proof. induction n as [|n IH]; cbn; [reflexivity | exact IH]. Qed.

Lemma expandtabs_tabs_prefix (d : nat) (c : string) :
  forall k,
    expandtabs_from 4 (4 * k) (tabs d ++ c)
    = spaces (4 * d) ++ expandtabs_from 4 (4 * (k + d)) c.
Proof.
  induction d as [|d IH]; intros k.
  - rewrite Nat.add_0_r, Nat.mul_0_r. reflexivity.
  - cbn [tabs append expandtabs_from].
    replace (Ascii.eqb tab tab) with true by (symmetry; apply Ascii.eqb_refl).
    cbn [Nat.eqb].
    replace ((4 * k) mod 4) with 0
      by (symmetry; rewrite Nat.mul_comm; apply Nat.Div0.mod_mul).
    replace (4 * k + (4 - 0)) with (4 * (k + 1)) by lia.
    rewrite IH. replace (k + 1 + d) with (k + S d) by lia.
    replace (4 * S d) with (4 + 4 * d) by lia. reflexivity.
Qed.

Lemma step_same_view (idx0 : nat) (r1 r2 : string) (a1 a2 : list string)
    (st : pstate) :
  is_blank r1 = is_blank r2 ->
  is_comment r1 = is_comment r2 ->
  _expand_tabs r1 = _expand_tabs r2 ->
  option_map (fun n => line_indent (snd n)) (next_nonempty_line idx0 a1)
  = option_map (fun n => line_indent (snd n)) (next_nonempty_line idx0 a2) ->
  step idx0 r1 a1 st = step idx0 r2 a2 st.
Proof.
  intros Hb Hc He Hn. unfold step. unfold line_indent in Hn.
  now rewrite Hb, Hc, He, Hn.
Qed.

Section TabLine.
Variables (d : nat) (c : string).
Hypothesis Hc : negb (contains tab c) && negb (startswith " " c) = true.

Lemma tab_line_expand :
  _expand_tabs (tabs d ++ c) = _expand_tabs (spaces (4 * d) ++ c).
Proof.
  rewrite (rendered_expand _ c Hc). unfold _expand_tabs, expandtabs.
  change (expandtabs_from 4 0 (tabs d ++ c))
    with (expandtabs_from 4 (4 * 0) (tabs d ++ c)).
  rewrite (expandtabs_tabs_prefix d c 0). f_equal.
  apply expandtabs_no_tab.
  apply andb_true_iff in Hc. destruct Hc as [Ht _]. now apply negb_true_iff in Ht.
Qed.

Lemma tab_line_blank : is_blank (tabs d ++ c) = is_blank (spaces (4 * d) ++ c).
Proof.
  unfold is_blank, strip. now rewrite lstrip_tabs_prefix, lstrip_spaces_prefix.
Qed.

Lemma tab_line_comment :
  is_comment (tabs d ++ c) = is_comment (spaces (4 * d) ++ c).
Proof.
  unfold is_comment. now rewrite lstrip_tabs_prefix, lstrip_spaces_prefix.
Qed.
End TabLine.

Lemma lookahead_tabs (doc : document) :
  tab_free doc = true ->
  forall i,
    option_map (fun n => line_indent (snd n)) (next_nonempty_line i (render_tabs doc))
    = option_map (fun n => line_indent (snd n)) (next_nonempty_line i (render 4 doc)).
Proof.
  induction doc as [|[d c] doc IH]; intros Hdoc i; [reflexivity|].
  cbn [tab_free forallb fst snd] in Hdoc. apply andb_true_iff in Hdoc.
  destruct Hdoc as [Hc Hdoc].
  cbn [render render_tabs map fst snd next_nonempty_line].
  rewrite (tab_line_blank d c), (tab_line_comment d c).
  destruct (is_blank _); [apply (IH Hdoc)|].
  destruct (is_comment _); [apply (IH Hdoc)|].
  cbn [option_map snd]. unfold line_indent. now rewrite (tab_line_expand d c Hc).
Qed.

Lemma parse_loop_tabs (doc : document) :
  tab_free doc = true ->
  forall idx0 st,
    parse_loop idx0 (render_tabs doc) st = parse_loop idx0 (render 4 doc) st.
Proof.
  induction doc as [|[d c] doc IH]; intros Hdoc idx0 st; [reflexivity|].
  cbn [tab_free forallb fst snd] in Hdoc. apply andb_true_iff in Hdoc.
  destruct Hdoc as [Hc Hdoc].
  cbn [render render_tabs map fst snd parse_loop].
  fold (render 4 doc). fold (render_tabs doc).
  rewrite (step_same_view idx0 (tabs d ++ c) (spaces (4 * d) ++ c)
             (render_tabs doc) (render 4 doc) st
             (tab_line_blank d c) (tab_line_comment d c)
             (tab_line_expand d c Hc) (lookahead_tabs doc Hdoc idx0)).
  destruct (step idx0 _ _ st) as [[st1 k]|e]; [apply (IH Hdoc) | reflexivity].
Qed.

(** X11: indenting with tabs is indenting with four spaces for every tab: a
    text whose lines are indented by tabs only, with no tab after the
    indentation, parses exactly as the text with four spaces in place of
    every tab. *)
Theorem tab_indentation_is_four_spaces (doc : document) (text_tabs text4 : string) :
  tab_free doc = true ->
  splitlines text_tabs = render_tabs doc ->
  splitlines text4 = render 4 doc ->
  parse_spec text_tabs = parse_spec text4.
Proof.
  intros Hdoc Ht H4. unfold parse_spec, parse_lines.
  now rewrite Ht, H4, (parse_loop_tabs doc Hdoc).
Qed.

Lemma tab_indentation_is_four_spaces_witness :
  parse_spec ("src" ++ newline ++ String tab "lib" ++ newline
              ++ String tab (String tab ".py") ++ newline)
  = parse_spec ("src" ++ newline ++ "    lib" ++ newline
                ++ "        .py" ++ newline).
Proof.
  apply (tab_indentation_is_four_spaces [(0, "src"); (1, "lib"); (2, ".py")]);
    reflexivity.
Defined.

End ParserFacts.

Section Nesting.
Import PyStr SpecPy Props ParserNotions Scenarios.
Local Open Scope string_scope.

Lemma place_shape (st : pstate) (stack' : list nat) (unit' : option nat)
    (level : nat) (content : string) (dir_forced has_children : bool) :
  let st' := fst (place st stack' unit' level content dir_forced has_children) in
  indent_unit st' = unit'
  /\ ((stack st' = stack' /\ last_was_file_at_level st' = Some level
       /\ has_children = false)
      \/ (stack st' = (stack' ++ [List.length (heap st)])%list
          /\ last_was_file_at_level st' = None)).
Proof.
  unfold place.
  destruct (negb dir_forced && negb has_children && _is_file_pattern content)
    eqn:E1.
  - cbn. split; [reflexivity|]. left. repeat split.
    destruct has_children; [|reflexivity].
    rewrite andb_false_r in E1. discriminate.
  - destruct (negb dir_forced && negb has_children && contains "." content
              && negb (glob_has_magic content) && negb (contains "{" content))
      eqn:E2.
    + cbn. split; [reflexivity|]. left. repeat split.
      destruct has_children; [|reflexivity].
      rewrite andb_false_r in E2. discriminate.
    + cbn. split; [reflexivity|]. right. split; reflexivity.
Qed.

(** On a line that fits the nesting the loop body raises nothing. *)
Lemma process_fitting (u idx indent : nat) (content_raw : string)
    (nxt_indent : option nat) (st : pstate) :
  (0 < u)%nat ->
  indent mod u = 0 ->
  (indent_unit st = None \/ indent_unit st = Some u) ->
  (indent / u + 1 <= List.length (stack st))%nat ->
  (forall l, last_was_file_at_level st = Some l -> (indent / u <= l)%nat) ->
  (indent_unit st = None -> indent = 0 \/ indent = u) ->
  let unit' := if (indent =? 0)%nat then indent_unit st else Some u in
  let content := strip content_raw in
  let dir_forced := endswith "/" content && negb (String.eqb content "/") in
  process idx indent content_raw nxt_indent st
  = Ok (place st (firstn (indent / u + 1) (stack st)) unit' (indent / u)
          (if dir_forced then chop content else content) dir_forced
          (has_children_of nxt_indent unit' indent (indent / u))).
Proof.
  intros Hu Hm Hunit Hstack Hlast Hfirst. cbv zeta. unfold process.
  assert (Hlen : List.length (firstn (indent / u + 1) (stack st))
                 = (indent / u + 1)%nat).
  { apply firstn_length_le. exact Hstack. }
  assert (Hfile : match last_was_file_at_level st with
                  | Some l => (l <? indent / u)%nat
                  | None => false
                  end = false).
  { destruct (last_was_file_at_level st) as [l|]; [|reflexivity].
    apply Nat.ltb_ge. now apply Hlast. }
  destruct (indent =? 0)%nat eqn:E0.
  - apply Nat.eqb_eq in E0. subst indent.
    rewrite Nat.Div0.div_0_l in *. rewrite Hfile, Hlen.
    cbn [Nat.add Nat.eqb negb]. reflexivity.
  - apply Nat.eqb_neq in E0.
    assert (Eu : match indent_unit st with
                 | Some u0 => u0
                 | None => indent
                 end = u).
    { destruct Hunit as [Hn|Hs].
      - rewrite Hn. destruct (Hfirst Hn); [contradiction | assumption].
      - now rewrite Hs. }
    rewrite Eu. apply Nat.leb_gt in Hu. rewrite Hu.
    apply Nat.eqb_eq in Hm. rewrite Hm. cbn [negb].
    rewrite Hfile, Hlen, Nat.eqb_refl. cbn [negb]. reflexivity.
Qed.

Lemma nested_next (u : nat) (lines : list string) :
  forall limit nxt,
    nested u limit lines = true ->
    option_map snd (next_nonempty_line 0 lines) = Some nxt ->
    line_indent nxt mod u = 0 /\ (line_indent nxt / u <= limit)%nat.
Proof.
  induction lines as [|l rest IH]; intros limit nxt Hn Hnext; [discriminate|].
  cbn [nested] in Hn. destruct (significant l) eqn:El.
  - rewrite (next_of_significant _ _ _ El) in Hnext. injection Hnext as <-.
    apply andb_true_iff in Hn. destruct Hn as [Hn _].
    apply andb_true_iff in Hn. destruct Hn as [Hm Hle].
    apply Nat.eqb_eq in Hm. apply Nat.leb_le in Hle. now split.
  - rewrite (next_of_skipped _ _ _ El) in Hnext. now apply (IH limit).
Qed.

Lemma has_children_none (u i i' : nat) (unit' : option nat) :
  (0 < u)%nat ->
  i' mod u = 0 ->
  unit' = (if (i =? 0)%nat then None else Some u) \/ unit' = Some u ->
  has_children_of (Some i') unit' i (i / u) = false ->
  (i' / u <= i / u)%nat /\ (unit' = None -> i' = 0).
Proof.
  intros Hu Hm' Hunit. unfold has_children_of.
  assert (Hmono : (i' <= i -> i' / u <= i / u)%nat).
  { intros H. apply Nat.Div0.div_le_mono. exact H. }
  assert (Hsome : (if (i <? i')%nat && (i' mod u =? 0)%nat
                   then (i / u <? i' / u)%nat else false) = false ->
                  (i' / u <= i / u)%nat).
  { rewrite Hm'. cbn [Nat.eqb]. rewrite andb_true_r.
    destruct (i <? i')%nat eqn:E.
    - intros H. now apply Nat.ltb_ge in H.
    - intros _. apply Nat.ltb_ge in E. now apply Hmono. }
  destruct Hunit as [-> | ->].
  - destruct (i =? 0)%nat eqn:E0.
    + apply Nat.eqb_eq in E0. subst i. intros H. apply Nat.ltb_ge in H.
      assert (i' = 0) by lia. subst i'. split; [lia | reflexivity].
    + intros H. split; [now apply Hsome | discriminate].
  - intros H. split; [now apply Hsome | discriminate].
Qed.

Lemma parse_loop_nested (u : nat) (lines : list string) :
  (0 < u)%nat ->
  forall idx0 st limit,
    nested u limit lines = true ->
    ready u st lines ->
    exists st', parse_loop idx0 lines st = Ok st'.
Proof.
  intros Hu. induction lines as [|l rest IH]; intros idx0 st limit Hn Hr.
  - now exists st.
  - cbn [nested] in Hn. cbn [parse_loop]. destruct (significant l) eqn:El.
    + apply andb_true_iff in Hn. destruct Hn as [Hn Hrest].
      apply andb_true_iff in Hn. destruct Hn as [Hm Hle].
      apply Nat.eqb_eq in Hm.
      destruct Hr as [Hunit Hr].
      destruct (Hr l (next_of_significant _ _ _ El)) as (Hstack & Hlast & Hfirst).
      rewrite (step_significant _ _ _ _ El), lookahead_as_snd.
      rewrite (process_fitting u _ _ _ _ st Hu Hm Hunit Hstack Hlast Hfirst).
      set (i := line_indent l) in *.
      set (unit' := if (i =? 0)%nat then indent_unit st else Some u).
      set (nxt := option_map line_indent
                    (option_map snd (next_nonempty_line 0 rest))).
      pose proof (place_shape st (firstn (i / u + 1) (stack st)) unit' (i / u)
                    (if endswith "/" (strip (content_raw_of (_expand_tabs l) i))
                        && negb (String.eqb
                                   (strip (content_raw_of (_expand_tabs l) i)) "/")
                     then chop (strip (content_raw_of (_expand_tabs l) i))
                     else strip (content_raw_of (_expand_tabs l) i))
                    (endswith "/" (strip (content_raw_of (_expand_tabs l) i))
                     && negb (String.eqb
                                (strip (content_raw_of (_expand_tabs l) i)) "/"))
                    (has_children_of nxt unit' i (i / u))) as Hp.
      cbv zeta in Hp.
      destruct (place st _ unit' (i / u) _ _ _) as [st1 k]. cbn [fst] in Hp.
      destruct Hp as [Hu1 Hshape].
      apply (IH (S idx0) st1 (i / u + 1)%nat Hrest).
      assert (Hlen : List.length (firstn (i / u + 1) (stack st))
                     = (i / u + 1)%nat) by (apply firstn_length_le; exact Hstack).
      assert (Hunit' : unit' = (if (i =? 0)%nat then None else Some u)
                       \/ unit' = Some u).
      { subst unit'. destruct (i =? 0)%nat; [|now right].
        destruct Hunit as [-> | ->]; [now left | now right]. }
      split.
      * rewrite Hu1. destruct Hunit' as [-> | ->]; [|now right].
        destruct (i =? 0)%nat; [now left | now right].
      * intros nxt' Hnext'.
        destruct (nested_next u rest _ nxt' Hrest Hnext') as [Hm' Hle'].
        assert (Enxt : nxt = Some (line_indent nxt')).
        { subst nxt. now rewrite Hnext'. }
        destruct Hshape as [(Hs & Hl & Hc) | (Hs & Hl)].
        -- rewrite Enxt in Hc.
           destruct (has_children_none u i (line_indent nxt') unit' Hu Hm' Hunit' Hc)
             as [Hdeep Hzero].
           rewrite Hs, Hl, Hlen, Hu1. split; [lia|]. split.
           ++ intros l0 [= <-]. exact Hdeep.
           ++ intros Hnone. left. now apply Hzero.
        -- rewrite Hs, Hl, Hu1, length_app, Hlen. cbn [List.length].
           split; [lia|]. split; [discriminate|].
           intros Hnone.
           assert (Hi0 : i = 0).
           { destruct Hunit' as [E|E]; rewrite E in Hnone; [|discriminate].
             destruct (i =? 0)%nat eqn:E0; [now apply Nat.eqb_eq | discriminate]. }
           rewrite Hi0, Nat.Div0.div_0_l in Hle'.
           apply Nat.Div0.div_exact in Hm'.
           destruct (line_indent nxt' / u) as [|[|q]]; [left|right|]; lia.
    + rewrite (step_skipped _ _ _ _ El). apply (IH (S idx0) st limit Hn).
      destruct Hr as [Hunit Hr]. split; [exact Hunit|].
      intros nxt Hnext. apply Hr. now rewrite (next_of_skipped _ _ _ El).
Qed.

(** What a round that raises nothing tells of the line: its level, the unit
    and the height of the stack before and after. *)
Lemma process_level (idx indent : nat) (content_raw : string)
    (nxt_indent : option nat) (st st' : pstate) (k : line_class) :
  process idx indent content_raw nxt_indent st = Ok (st', k) ->
  let u1 := match indent_unit st with
            | Some u0 => u0
            | None => indent
            end in
  let level := if (indent =? 0)%nat then 0 else indent / u1 in
  (indent <> 0 -> (0 < u1)%nat /\ indent mod u1 = 0)
  /\ (level + 1 <= List.length (stack st))%nat
  /\ (List.length (stack st') <= level + 2)%nat
  /\ indent_unit st' = (if (indent =? 0)%nat then indent_unit st else Some u1).
Proof.
  cbv zeta. unfold process.
  set (u1 := match indent_unit st with Some u0 => u0 | None => indent end).
  set (level := if (indent =? 0)%nat then 0 else indent / u1).
  set (unit' := if (indent =? 0)%nat then indent_unit st else Some u1).
  assert (Hcases :
    (if (indent =? 0)%nat then Ok (indent_unit st, 0)
     else if (u1 <=? 0)%nat then Err (mkError idx InvalidIndentation)
          else if negb (indent mod u1 =? 0)%nat
               then Err (mkError idx (NotMultiple u1))
               else Ok (Some u1, indent / u1))
    = Ok (unit', level)
    /\ (indent <> 0 -> (0 < u1)%nat /\ indent mod u1 = 0)
    \/ exists e,
         (if (indent =? 0)%nat then Ok (indent_unit st, 0)
          else if (u1 <=? 0)%nat then Err (mkError idx InvalidIndentation)
               else if negb (indent mod u1 =? 0)%nat
                    then Err (mkError idx (NotMultiple u1))
                    else Ok (Some u1, indent / u1))
         = Err e).
  { subst level unit'. destruct (indent =? 0)%nat eqn:E0.
    - left. split; [reflexivity|]. apply Nat.eqb_eq in E0. contradiction.
    - destruct (u1 <=? 0)%nat eqn:E1; [right; eauto|].
      destruct (indent mod u1 =? 0)%nat eqn:E2; cbn [negb]; [|right; eauto].
      left. split; [reflexivity|]. intros _.
      apply Nat.leb_gt in E1. apply Nat.eqb_eq in E2. now split. }
  destruct Hcases as [[-> Hpos] | [e ->]]; [|discriminate].
  destruct (match last_was_file_at_level st with
            | Some l => _ | None => false end); [discriminate|].
  destruct (List.length (firstn (level + 1) (stack st)) =? level + 1)%nat eqn:El;
    cbn [negb]; [|discriminate].
  apply Nat.eqb_eq in El. intros [= H].
  pose proof (length_firstn (level + 1) (stack st)) as Hle.
  split; [exact Hpos|]. split; [lia|].
  match type of H with
  | place ?a ?b ?c ?d ?e ?f ?g = _ =>
      pose proof (place_shape a b c d e f g) as Hp
  end.
  cbv zeta in Hp. rewrite H in Hp. cbn [fst] in Hp.
  destruct Hp as [Hu1 [(Hs & _) | (Hs & _)]]; rewrite Hs.
  - split; [lia | exact Hu1].
  - rewrite length_app. cbn [List.length]. split; [lia | exact Hu1].
Qed.

Lemma parse_loop_unit_kept (lines : list string) :
  forall idx0 st st' u,
    parse_loop idx0 lines st = Ok st' ->
    indent_unit st = Some u ->
    indent_unit st' = Some u.
Proof.
  induction lines as [|l rest IH]; intros idx0 st st' u; cbn [parse_loop].
  - now intros [= <-].
  - destruct (step idx0 l rest st) as [[st1 k]|e] eqn:Es; [|discriminate].
    intros Hrest Hu. apply (IH _ _ _ _ Hrest).
    destruct (significant l) eqn:El.
    + rewrite (step_significant _ _ _ _ El) in Es.
      rewrite (process_unit _ _ _ _ _ _ _ Es), Hu.
      now destruct (line_indent l =? 0)%nat.
    + rewrite (step_skipped _ _ _ _ El) in Es. now injection Es as <- _.
Qed.

Lemma parse_loop_ok_nested (u : nat) (lines : list string) :
  (0 < u)%nat ->
  forall idx0 st st' limit,
    parse_loop idx0 lines st = Ok st' ->
    indent_unit st' = Some u \/ indent_unit st' = None ->
    (List.length (stack st) <= limit + 1)%nat ->
    nested u limit lines = true.
Proof.
  intros Hu. induction lines as [|l rest IH];
    intros idx0 st st' limit Hp Hend Hstack; [reflexivity|].
  cbn [parse_loop] in Hp. cbn [nested].
  destruct (step idx0 l rest st) as [[st1 k]|e] eqn:Es; [|discriminate].
  destruct (significant l) eqn:El.
  - rewrite (step_significant _ _ _ _ El) in Es.
    apply process_level in Es. cbv zeta in Es.
    destruct Es as (Hpos & Hlow & Hhigh & Hunit).
    set (i := line_indent l) in *.
    destruct (i =? 0)%nat eqn:E0.
    + apply Nat.eqb_eq in E0. rewrite E0.
      rewrite Nat.Div0.mod_0_l, Nat.Div0.div_0_l. cbn [Nat.eqb Nat.leb andb].
      apply (IH _ _ _ _ Hp Hend). cbn [Nat.add] in *. lia.
    + apply Nat.eqb_neq in E0. destruct (Hpos E0) as [Hu1 Hm].
      assert (Eu : match indent_unit st with
                   | Some u0 => u0
                   | None => i
                   end = u).
      { pose proof (parse_loop_unit_kept _ _ _ _ _ Hp Hunit) as Hk.
        destruct Hend as [He|He]; rewrite He in Hk; [|discriminate].
        now injection Hk as <-. }
      rewrite Eu in *. rewrite Hm. cbn [Nat.eqb andb].
      assert (Hle : (i / u <=? limit)%nat = true) by (apply Nat.leb_le; lia).
      rewrite Hle. cbn [andb].
      apply (IH _ _ _ _ Hp Hend). lia.
  - rewrite (step_skipped _ _ _ _ El) in Es. injection Es as <- _.
    now apply (IH _ _ _ _ Hp Hend).
Qed.

(** X12: a text is accepted exactly when its lines, blank lines and comment
    lines apart, are nested properly by some unit: every indentation is a
    multiple of the unit, the first line is not indented, and no line lies
    more than one level below the line before it. *)
Theorem accepted_iff_properly_nested (text : string) :
  (exists r, parse_spec text = Ok r)
  <-> exists u, (0 < u)%nat /\ nested u 0 (splitlines text) = true.
Proof.
  unfold parse_spec, parse_lines. split.
  - intros [r Hr].
    destruct (parse_loop 0 (splitlines text) initial) as [st|e] eqn:Ep;
      [|discriminate].
    pose proof (indent_unit_never_zero _ _ _ _
                  (fun H : indent_unit initial = Some 0 =>
                     eq_ind None (fun o => match o with
                                           | None => True
                                           | Some _ => False
                                           end) I _ H) Ep) as Hnz.
    destruct (indent_unit st) as [u|] eqn:Eu.
    + exists u. split; [destruct u; [congruence | lia]|].
      apply (parse_loop_ok_nested u _ ltac:(destruct u; [congruence | lia])
               0 initial st 0 Ep); [left; exact Eu | cbn; lia].
    + exists 1. split; [lia|].
      apply (parse_loop_ok_nested 1 _ ltac:(lia) 0 initial st 0 Ep);
        [right; exact Eu | cbn; lia].
  - intros [u [Hu Hn]].
    destruct (parse_loop_nested u (splitlines text) Hu 0 initial 0 Hn) as [st Hst].
    + split; [now left|]. intros nxt Hnext.
      destruct (nested_next u _ 0 nxt Hn Hnext) as [Hm Hle].
      apply Nat.Div0.div_exact in Hm.
      assert (H0 : line_indent nxt / u = 0) by lia.
      rewrite H0 in *. cbn. split; [lia|]. split; [discriminate|].
      intros _. left. lia.
    + rewrite Hst. now exists (root_of st).
Qed.

End Nesting.

Section TrailingComments.
Import PyStr SpecPy Props ParserNotions Scenarios.
Local Open Scope string_scope.

Lemma lstrip_app_ink (a x : string) (c : ascii) (r : string) :
  lstrip a = String c r -> isspace c = false ->
  lstrip (a ++ x) = String c (r ++ x).
Proof.
  induction a as [|d a IH]; cbn [lstrip append]; [discriminate|].
  destruct (isspace d) eqn:E; intros H Hc.
  - now apply IH.
  - now injection H as -> ->.
Qed.

Lemma lstrip_app_blank (a x : string) :
  lstrip a = "" -> lstrip (a ++ x) = lstrip x.
Proof.
  induction a as [|d a IH]; cbn [lstrip append]; [reflexivity|].
  destruct (isspace d); [exact IH | discriminate].
Qed.

Lemma rstrip_ink (c : ascii) (r : string) :
  isspace c = false -> exists r', rstrip (String c r) = String c r'.
Proof.
  intros Hc. cbn [rstrip]. destruct (rstrip r) as [|d r'].
  - rewrite Hc. now exists "".
  - now exists (String d r').
Qed.

Lemma startswith_one (h c : ascii) (r : string) :
  startswith (String h EmptyString) (String c r)
  = if ascii_dec h c then true else false.
Proof.
  unfold startswith. cbn [prefix].
  destruct (ascii_dec h c); [now destruct r | reflexivity].
Qed.

(** The three tests of a line see the same with and without a note. *)
Lemma annotated_significant (a note : string) :
  significant (a ++ " #" ++ note) = significant a.
Proof.
  unfold significant, is_blank, is_comment, strip.
  destruct (lstrip_head a) as [E|[c [r [E Hc]]]].
  - rewrite (lstrip_app_blank a _ E), E.
    change (lstrip (" #" ++ note)) with (String "#" note).
    change (String.eqb (rstrip "") "") with true.
    assert (Hc : startswith "#" (String "#" note) = true) by now destruct note.
    rewrite Hc. cbn [negb andb]. apply andb_false_r.
  - rewrite (lstrip_app_ink a _ c r E Hc), E.
    destruct (rstrip_ink c r Hc) as [r1 ->].
    destruct (rstrip_ink c (r ++ " #" ++ note) Hc) as [r2 ->].
    now rewrite !startswith_one.
Qed.

Lemma expandtabs_from_app (t : nat) (a b : string) :
  forall col, exists col',
    expandtabs_from t col (a ++ b)
    = expandtabs_from t col a ++ expandtabs_from t col' b.
Proof.
  induction a as [|d a IH]; intros col.
  - now exists col.
  - cbn [append expandtabs_from]. destruct (Ascii.eqb d tab).
    + destruct (t =? 0)%nat; [apply IH|].
      destruct (IH (col + (t - col mod t))%nat) as [col' ->].
      exists col'. now rewrite append_assoc.
    + destruct (Ascii.eqb d lf || Ascii.eqb d cr).
      * destruct (IH 0) as [col' ->]. now exists col'.
      * destruct (IH (S col)) as [col' ->]. now exists col'.
Qed.

Lemma annotated_expand (a note : string) :
  exists note', _expand_tabs (a ++ " #" ++ note) = _expand_tabs a ++ " #" ++ note'.
Proof.
  unfold _expand_tabs, expandtabs.
  destruct (expandtabs_from_app 4 a (" #" ++ note) 0) as [col ->].
  eexists. reflexivity.
Qed.

Lemma lstrip_spaces_app_ink (e y : string) (c : ascii) (r : string) :
  lstrip_spaces e = String c r -> lstrip_spaces (e ++ y) = lstrip_spaces e ++ y.
Proof.
  induction e as [|d e IH]; cbn [lstrip_spaces append]; [discriminate|].
  destruct (Ascii.eqb d " "); [exact IH | reflexivity].
Qed.

Lemma rstrip_app_ink (a b : string) (c : ascii) (r : string) :
  rstrip b = String c r -> rstrip (a ++ b) = a ++ rstrip b.
Proof.
  intros Hb. induction a as [|d a IH]; [reflexivity|].
  cbn [append rstrip]. rewrite IH, Hb.
  destruct a; reflexivity.
Qed.

Lemma rstrip_note (note : string) :
  exists note', rstrip (" #" ++ note) = " #" ++ note'.
Proof.
  destruct (rstrip_ink "#" note eq_refl) as [r E].
  change (" #" ++ note) with (String " " (String "#" note)).
  cbn [rstrip] in *. rewrite E. now exists r.
Qed.

Lemma before_comment_blank (s : string) :
  all_chars isspace s = true -> forall prev, before_comment prev s = None.
Proof.
  induction s as [|c s IH]; [reflexivity|]. cbn [all_chars before_comment].
  intros H prev. apply andb_true_iff in H. destruct H as [Hc Hs].
  destruct (Ascii.eqb_spec c "#") as [->|_]; [discriminate Hc|].
  cbn [andb]. now rewrite (IH Hs).
Qed.

Lemma before_comment_cons (prev : bool) (c : ascii) (s : string) :
  before_comment prev (String c s)
  = if Ascii.eqb c "#" && prev then Some EmptyString
    else match before_comment (isspace c) s with
         | Some t => Some (String c t)
         | None => None
         end.
Proof. reflexivity. Qed.

(** Stripping the end of a line moves no comment sign. *)
Lemma before_comment_rstrip (s : string) :
  forall prev, before_comment prev (rstrip s) = before_comment prev s.
Proof.
  induction s as [|c s IH]; intros prev; [reflexivity|].
  cbn [rstrip]. destruct (rstrip s) as [|d r] eqn:Er.
  - pose proof (before_comment_blank s (rstrip_empty s Er)) as Hnone.
    cbn [before_comment]. rewrite Hnone.
    destruct (isspace c) eqn:Ec.
    + destruct (Ascii.eqb_spec c "#") as [->|_]; [discriminate Ec|].
      reflexivity.
    + cbn [before_comment]. now destruct (Ascii.eqb c "#" && prev).
  - rewrite (before_comment_cons prev c (String d r)),
            (before_comment_cons prev c s), IH.
    reflexivity.
Qed.

(** With a note behind it, a line is cut at its own comment sign if it has
    one, and before the note if it has none. *)
Lemma before_comment_note (b note : string) :
  forall prev,
    before_comment prev (b ++ " #" ++ note)
    = Some match before_comment prev b with
           | Some t => t
           | None => b ++ " "
           end.
Proof.
  induction b as [|c b IH]; intros prev.
  - cbn. now destruct prev.
  - cbn [append before_comment].
    destruct (Ascii.eqb c "#" && prev); [reflexivity|].
    rewrite IH. now destruct (before_comment (isspace c) b).
Qed.

Lemma rstrip_space (b : string) : rstrip (b ++ " ") = rstrip b.
Proof.
  induction b as [|c b IH]; [reflexivity|]. cbn [append rstrip]. now rewrite IH.
Qed.

Lemma annotated_line (a note : string) :
  significant a = true ->
  line_indent (a ++ " #" ++ note) = line_indent a
  /\ content_raw_of (_expand_tabs (a ++ " #" ++ note)) (line_indent a)
     = content_raw_of (_expand_tabs a) (line_indent a).
Proof.
  intros H. destruct (significant_head a H) as [c [r [E [Hs _]]]].
  destruct (lstrip_expandtabs a c r E Hs 4 0) as [r1 E1].
  fold (expandtabs 4 a) in E1. fold (_expand_tabs a) in E1.
  rewrite <- lstrip_lstrip_spaces in E1.
  destruct (annotated_expand a note) as [note' Ex].
  unfold line_indent. rewrite Ex.
  set (e := _expand_tabs a) in *.
  destruct (lstrip_spaces e) as [|d b] eqn:Eb; [discriminate E1|].
  pose proof (lstrip_spaces_app_ink e (" #" ++ note') d b Eb) as Happ.
  assert (Hi : indent_of (e ++ " #" ++ note') = indent_of e).
  { unfold indent_of. rewrite Happ, !length_append.
    pose proof (lstrip_spaces_length e). lia. }
  split; [exact Hi|].
  unfold content_raw_of.
  rewrite <- Hi at 1. rewrite !drop_indent, Happ, Eb.
  destruct (rstrip_note note') as [n Hn].
  rewrite (rstrip_app_ink (String d b) (" #" ++ note') " " (String "#" n) Hn), Hn.
  rewrite before_comment_note, before_comment_rstrip.
  destruct (before_comment true (String d b)) as [t|]; [reflexivity|].
  apply rstrip_space.
Qed.

Lemma lookahead_annotated (doc : list (string * option string)) :
  option_map line_indent
    (option_map snd (next_nonempty_line 0 (map annotate doc)))
  = option_map line_indent
      (option_map snd (next_nonempty_line 0 (map fst doc))).
Proof.
  induction doc as [|[a [note|]] doc IH]; [reflexivity| |];
    cbn [map annotate fst snd].
  - destruct (significant a) eqn:Ea.
    + pose proof (annotated_significant a note) as Es. rewrite Ea in Es.
      rewrite !next_of_significant by assumption. cbn [option_map].
      now rewrite (proj1 (annotated_line a note Ea)).
    + pose proof (annotated_significant a note) as Es. rewrite Ea in Es.
      now rewrite !next_of_skipped by assumption.
  - destruct (significant a) eqn:Ea.
    + now rewrite !next_of_significant by assumption.
    + now rewrite !next_of_skipped by assumption.
Qed.

Lemma parse_loop_annotated (doc : list (string * option string)) :
  forall idx0 st,
    parse_loop idx0 (map annotate doc) st = parse_loop idx0 (map fst doc) st.
Proof.
  induction doc as [|[a note] doc IH]; intros idx0 st; [reflexivity|].
  cbn [map parse_loop fst].
  assert (Es : step idx0 (annotate (a, note)) (map annotate doc) st
               = step idx0 a (map fst doc) st).
  { destruct note as [note|]; cbn [annotate fst snd].
    - pose proof (annotated_significant a note) as Hs.
      destruct (significant a) eqn:Ea.
      + rewrite !step_significant by assumption.
        rewrite !lookahead_as_snd, lookahead_annotated.
        destruct (annotated_line a note Ea) as [Hi Hc].
        now rewrite Hi, Hc.
      + now rewrite !step_skipped by assumption.
    - destruct (significant a) eqn:Ea.
      + rewrite !step_significant by assumption.
        now rewrite !lookahead_as_snd, lookahead_annotated.
      + now rewrite !step_skipped by assumption. }
  rewrite Es. destruct (step idx0 a (map fst doc) st) as [[st1 k]|e];
    [apply IH | reflexivity].
Qed.

(** X13: a comment written after a line changes nothing: with a space, a
    number sign and any note put behind any of its lines, a text parses to
    the same tree, or fails with the same error. *)
Theorem trailing_comments_are_ignored (doc : list (string * option string))
    (text text' : string) :
  splitlines text = map annotate doc ->
  splitlines text' = map fst doc ->
  parse_spec text = parse_spec text'.
Proof.
  intros H H'. unfold parse_spec, parse_lines.
  now rewrite H, H', parse_loop_annotated.
Qed.

Lemma trailing_comments_are_ignored_witness :
  parse_spec ("src #sources" ++ newline ++ "    .py # modules" ++ newline
              ++ "docs" ++ newline)
  = parse_spec ("src" ++ newline ++ "    .py" ++ newline ++ "docs" ++ newline).
Proof.
  apply (trailing_comments_are_ignored
           [("src", Some "sources"); ("    .py", Some " modules"); ("docs", None)]);
    reflexivity.
Defined.

End TrailingComments.

Section NumberingFacts.
Import PyStr SpecPy Compiler Cli Props Numbering Scenarios.
Local Open Scope string_scope.

Lemma walk_unfold (nm : string) (subs : list DirectoryRule)
    (fp rf : list string) (k : nat) :
  walk (Rule nm subs fp rf) k
  = (Node k (Rule nm subs fp rf) (fst (walk_all subs (k + 1))),
     snd (walk_all subs (k + 1))).
Proof.
  cbn [walk]. fold walk_all. now destruct (walk_all subs (k + 1)).
Qed.

Lemma walk_all_walked (subs : list DirectoryRule) :
  Forall walked subs ->
  forall k,
    snd (walk_all subs k) = (k + list_sum (map rule_size subs))%nat
    /\ flat_map node_ids (fst (walk_all subs k))
       = seq k (list_sum (map rule_size subs))
    /\ map rule (fst (walk_all subs k)) = subs
    /\ Forall (fun n => map rule (children n) = subdirs (rule n))
              (flat_map subnodes (fst (walk_all subs k))).
Proof.
  induction 1 as [|c subs Hc _ IH]; intros k.
  - cbn. rewrite Nat.add_0_r. repeat split. constructor.
  - cbn [walk_all map list_sum].
    destruct (Hc k) as (H1 & H2 & H3 & H4).
    destruct (walk c k) as [n k1]. cbn [fst snd] in *. subst k1.
    destruct (IH (k + rule_size c)%nat) as (I1 & I2 & I3 & I4).
    destruct (walk_all subs (k + rule_size c)) as [ns k2].
    cbn [fst snd flat_map map] in *. subst k2.
    split; [cbn [list_sum fold_right]; fold (list_sum (map rule_size subs)); lia|].
    split; [|split].
    + rewrite H2, I2. symmetry. apply seq_app.
    + now rewrite H3, I3.
    + apply Forall_app. now split.
Qed.

Lemma walk_walked (r : DirectoryRule) : walked r.
Proof.
  induction r as [nm subs fp rf IH] using rule_induction. intros k.
  rewrite walk_unfold. cbn [fst snd node_ids rule rule_size subnodes].
  destruct (walk_all_walked subs IH (k + 1)%nat) as (I1 & I2 & I3 & I4).
  split; [lia|]. split; [|split].
  - rewrite I2. cbn [seq]. now rewrite Nat.add_1_r.
  - reflexivity.
  - constructor; [exact I3 | exact I4].
Qed.

(** X14: the nodes of a rule tree are numbered 1, 2, 3, ... in the order in
    which their functions are emitted, so no two nodes share a function
    name; the node tree has the shape of the rule tree, every node's
    children standing for the subdirectories of its rule, in order. *)
Theorem nodes_are_numbered_in_preorder (r : DirectoryRule) :
  node_ids (_build_nodes r) = seq 1 (rule_size r)
  /\ NoDup (node_ids (_build_nodes r))
  /\ rule (_build_nodes r) = r
  /\ Forall (fun n => map rule (children n) = subdirs (rule n))
            (subnodes (_build_nodes r)).
Proof.
  unfold _build_nodes. destruct (walk_walked r 1) as (_ & H2 & H3 & H4).
  repeat split; try assumption. rewrite H2. apply seq_NoDup.
Qed.

End NumberingFacts.

Section IgnoreComposition.
Import PyStr SpecPy Compiler Cli Props Scenarios.
Local Open Scope string_scope.

Lemma dedupe_In (l : list string) :
  forall seen x, In x (dedupe seen l) <-> In x l /\ ~ In x seen.
Proof.
  induction l as [|y l IH]; intros seen x; cbn [dedupe].
  - split; [contradiction | now intros [H _]].
  - destruct (mem y seen) eqn:E.
    + apply mem_In in E. rewrite IH. cbn [In]. split.
      * intros [H1 H2]. split; [now right | exact H2].
      * intros [[->|H1] H2]; [contradiction | now split].
    + assert (Hy : ~ In y seen).
      { intros H. apply mem_In in H. congruence. }
      cbn [In]. rewrite IH. cbn [In]. split.
      * intros [->|[H1 H2]].
        -- split; [now left | exact Hy].
        -- split; [now right | tauto].
      * intros [[->|H1] H2]; [now left|].
        destruct (string_dec y x) as [->|Hne]; [now left|].
        right. split; [exact H1|]. intros [H|H]; [contradiction | now apply H2].
Qed.

Lemma dedupe_NoDup (l : list string) : forall seen, NoDup (dedupe seen l).
Proof.
  induction l as [|y l IH]; intros seen; cbn [dedupe]; [constructor|].
  destruct (mem y seen); [apply IH|].
  constructor; [|apply IH].
  rewrite dedupe_In. intros [_ H]. apply H. now left.
Qed.

Lemma common_ignore_In (user : list string) (spec_name x : string) :
  In x (common_ignore user spec_name)
  <-> In x user \/ x = ".git" \/ x = spec_name.
Proof.
  unfold common_ignore. rewrite dedupe_In, in_app_iff. cbn [In].
  split.
  - intros [[H|[H|[H|F]]] _]; auto. contradiction.
  - intros [H|[H|H]]; (split; [|tauto]); auto.
Qed.

Lemma ignore_items_In (options : CompileOptions) (spec_basename x : string) :
  In x (ignore_items options spec_basename)
  <-> In x (ignore options) \/ x = ".git" \/ x = spec_basename.
Proof.
  unfold ignore_items.
  set (items := if mem ".git" (ignore options) then ignore options
                else (ignore options ++ [".git"])%list).
  assert (Hi : In x items <-> In x (ignore options) \/ x = ".git").
  { subst items. destruct (mem ".git" (ignore options)) eqn:E.
    - apply mem_In in E. split; [now left|]. intros [H| ->]; assumption.
    - rewrite in_app_iff. cbn [In]. split.
      + intros [H|[H|F]]; auto. contradiction.
      + intros [H|H]; auto. }
  destruct (mem spec_basename items) eqn:E.
  - apply mem_In in E. rewrite Hi. split; [tauto|].
    intros [H|[H| ->]]; auto. now apply Hi.
  - rewrite in_app_iff, Hi. cbn [In]. split.
    + intros [[H|H]|[H|F]]; auto. contradiction.
    + intros [H|[H|H]]; auto.
Qed.

(** X15: the ignore list that the command line hands on holds every user
    pattern, [.git] and the name of the specification file, nothing else, and
    nothing twice. *)
Theorem command_line_ignore_list (user : list string) (spec_name : string) :
  NoDup (common_ignore user spec_name)
  /\ forall x, In x (common_ignore user spec_name)
               <-> In x user \/ x = ".git" \/ x = spec_name.
Proof.
  split; [apply dedupe_NoDup | intros x; apply common_ignore_In].
Qed.

(** X16: when the options come from the command line, the compiler finds
    [.git] and the name of the specification file already in the ignore list
    and writes the list into the script as it received it. *)
Theorem compiler_keeps_command_line_ignore_list (user : list string)
    (spec_name : string) (allow_extra strict : bool) :
  ignore_items (mkOptions (common_ignore user spec_name) allow_extra strict)
               spec_name
  = common_ignore user spec_name.
Proof.
  unfold ignore_items. cbn [ignore].
  assert (Hg : mem ".git" (common_ignore user spec_name) = true).
  { apply mem_In, common_ignore_In. right. now left. }
  assert (Hs : mem spec_name (common_ignore user spec_name) = true).
  { apply mem_In, common_ignore_In. right. now right. }
  now rewrite Hg, Hs.
Qed.

Lemma matches_any_same_members (l l' : list string) :
  (forall x, In x l <-> In x l') ->
  forall base, matches_any base l = matches_any base l'.
Proof.
  intros H base. unfold matches_any. apply eq_true_iff_eq.
  rewrite !existsb_exists. split; intros [p [Hp Hm]]; exists p;
    (split; [now apply H | exact Hm]).
Qed.

Lemma try_wildcards_same (f g : _Node -> proc) (rel base : string)
    (kids : list _Node) :
  Forall (fun c => forall r, f c r = g c r) kids ->
  forall matched,
    try_wildcards rel base matched (map (fun c => (child_name c, f c)) kids)
    = try_wildcards rel base matched (map (fun c => (child_name c, g c)) kids).
Proof.
  induction 1 as [|c kids Hc _ IH]; intros matched; cbn [map try_wildcards];
    [reflexivity|].
  destruct (Glob.glob_match (child_name c) base); [|apply IH].
  destruct matched; [reflexivity|]. now rewrite Hc, IH.
Qed.

Lemma Forall_kept {A} (P : A -> Prop) (keep : A -> bool) (l : list A) :
  Forall P l -> Forall P (filter keep l).
Proof.
  intros H. apply Forall_forall. intros x Hx. apply filter_In in Hx.
  rewrite Forall_forall in H. now apply H.
Qed.

(** The verdict depends on the ignore list only through what it ignores. *)
Lemma compile_node_same_ignored (fs : FileSystem) (ROOT : string) (aee sr : bool)
    (ign ign' : list string) (n : _Node) :
  (forall base, is_ignored ign base = is_ignored ign' base) ->
  forall rel,
    compile_node fs ROOT aee sr ign n rel = compile_node fs ROOT aee sr ign' n rel.
Proof.
  intros Hi. induction n as [i r kids IH] using node_induction. intros rel.
  rewrite !compile_node_phases.
  assert (E4 : extra_entry_scan fs ROOT aee sr ign (Node i r kids) rel
               = extra_entry_scan fs ROOT aee sr ign' (Node i r kids) rel).
  { unfold extra_entry_scan. apply for_each_ext. intros e _.
    unfold check_entry. now rewrite Hi. }
  assert (E5 : literal_child_recursion fs ROOT aee sr ign (Node i r kids) rel
               = literal_child_recursion fs ROOT aee sr ign' (Node i r kids) rel).
  { unfold literal_child_recursion. apply for_each_ext.
    intros c Hc. unfold literal_kids in Hc. apply filter_In in Hc.
    destruct Hc as [Hc _]. cbn [children] in Hc.
    rewrite Forall_forall in IH. apply (IH c Hc). }
  assert (E6 : wildcard_child_recursion fs ROOT aee sr ign (Node i r kids) rel
               = wildcard_child_recursion fs ROOT aee sr ign' (Node i r kids) rel).
  { unfold wildcard_child_recursion. apply for_each_ext. intros e _.
    unfold wildcard_visit, wildcard_entry. rewrite Hi.
    destruct (negb (is_dir fs e)); [reflexivity|].
    destruct (is_ignored ign' (basename_safe e)); [reflexivity|].
    destruct (mem _ _); [reflexivity|].
    apply try_wildcards_same. apply Forall_kept. exact IH. }
  unfold phases. rewrite E4, E5, E6. reflexivity.
Qed.

(** X17: the script compiled from the command line's ignore list gives, on
    every file system, the verdict of the script compiled from the user's
    patterns as they were typed: removing repetitions and adding [.git] and
    the specification's name beforehand changes nothing, whatever the
    order of the patterns. *)
Theorem ignore_list_is_used_as_a_set (spec_root : DirectoryRule)
    (user user' : list string) (spec_name : string) (allow_extra strict : bool)
    (fs : FileSystem) (args : list string) :
  (forall x, In x user <-> In x user') ->
  compile_to_bash spec_root
    (mkOptions (common_ignore user spec_name) allow_extra strict)
    spec_name fs args
  = compile_to_bash spec_root (mkOptions user' allow_extra strict)
      spec_name fs args.
Proof.
  intros Hu. unfold compile_to_bash. cbn [allow_extra_everywhere strict_root].
  apply compile_node_same_ignored. intros base. unfold is_ignored.
  apply matches_any_same_members. intros x.
  rewrite !ignore_items_In. cbn [ignore]. rewrite common_ignore_In, Hu. tauto.
Qed.

Lemma ignore_list_is_used_as_a_set_witness :
  compile_to_bash photo_rules
    (mkOptions (common_ignore ["*.log"; "tmp"; "*.log"] ".dirc") false true)
    ".dirc" (TreeFS.of_tree photo_jpg) ["/proj"]
  = compile_to_bash photo_rules (mkOptions ["tmp"; "*.log"] false true)
      ".dirc" (TreeFS.of_tree photo_jpg) ["/proj"].
Proof.
  apply ignore_list_is_used_as_a_set.
  intros x. cbn [In]. tauto.
Defined.

End IgnoreComposition.

Section QuotingFacts.
Import PyStr SpecPy Compiler Quoting.
Local Open Scope string_scope.









End QuotingFacts.

Section NormalizerFacts.
Import PyStr SpecPy Glob Compiler PatternNotions Scenarios.
Local Open Scope string_scope.

Lemma remove_space_lstrip (s : string) : remove_space (lstrip s) = remove_space s.
Proof.
  induction s as [|c s IH]; [reflexivity|]. cbn [lstrip remove_space].
  destruct (isspace c) eqn:E; [exact IH|]. cbn [remove_space]. now rewrite E.
Qed.

Lemma remove_space_rstrip (s : string) : remove_space (rstrip s) = remove_space s.
Proof.
  induction s as [|c s IH]; [reflexivity|]. cbn [rstrip remove_space].
  destruct (rstrip s) as [|d r] eqn:Er.
  - cbn [remove_space] in IH. rewrite <- IH.
    destruct (isspace c) eqn:E; [reflexivity|]. cbn [remove_space]. now rewrite E.
  - cbn [remove_space]. rewrite <- IH. reflexivity.
Qed.

(** X19: white space in a pattern token is of no account: two tokens that
    differ in white space only, anywhere in the token, normalise to the same
    pattern. *)
Theorem normalize_ignores_white_space (raw1 raw2 : string) :
  remove_space raw1 = remove_space raw2 ->
  _normalize_pattern raw1 = _normalize_pattern raw2.
Proof.
  intros H. unfold _normalize_pattern, strip.
  now rewrite !remove_space_rstrip, !remove_space_lstrip, H.
Qed.

Lemma normalize_ignores_white_space_witness :
  _normalize_pattern "*.{svg, jpg, png}" = _normalize_pattern " *.{svg,jpg,png}".
Proof.
  apply normalize_ignores_white_space. reflexivity.
Defined.

Lemma name_char_facts (c : ascii) :
  name_char c = true ->
  isspace c = false
  /\ ext_op_of c = None
  /\ (forall s', parse_plain c s' = (PChar c, s'))
  /\ Ascii.eqb "/" c = false.
Proof.
  destruct c as [[] [] [] [] [] [] [] []]; intros H; vm_compute in H;
    try discriminate H; repeat split.
Qed.

Lemma parse_seq_name_chars (t : string) :
  all_chars name_char t = true ->
  forall fuel,
    (String.length t < fuel)%nat ->
    parse_seq fuel false t = (map PChar (list_ascii_of_string t), AtEnd).
Proof.
  induction t as [|c t IH]; intros Ht fuel Hf.
  - destruct fuel; [inversion Hf | reflexivity].
  - cbn [all_chars] in Ht. apply andb_true_iff in Ht. destruct Ht as [Hc Ht].
    destruct (name_char_facts c Hc) as (_ & Hop & Hplain & _).
    destruct fuel as [|fuel]; [inversion Hf|].
    cbn [String.length] in Hf.
    cbn [parse_seq andb list_ascii_of_string map]. rewrite Hop, Hplain.
    rewrite (IH Ht fuel) by lia. reflexivity.
Qed.

Lemma splits_In (s a b : string) : In (a, b) (splits s) <-> s = a ++ b.
Proof.
  revert a. induction s as [|c s IH]; intros a; cbn [splits In].
  - split.
    + intros [E|[]]. now injection E as <- <-.
    + intros E. left. destruct a; [|discriminate E]. cbn in E. now subst b.
  - rewrite in_map_iff. split.
    + intros [E|[[a' b'] [E Hin]]].
      * now injection E as <- <-.
      * cbn [fst snd] in E. injection E as <- <-. apply IH in Hin. now subst s.
    + intros E. destruct a as [|d a].
      * left. cbn in E. now subst b.
      * right. cbn [append] in E. injection E as <- ->.
        exists (a, b). split; [reflexivity | now apply IH].
Qed.

Lemma match_items_chars (t b : string) :
  match_items match_pat (map PChar (list_ascii_of_string t)) b = true <-> b = t.
Proof.
  revert b. induction t as [|c t IH]; intros b;
    cbn [list_ascii_of_string map match_items].
  - apply String.eqb_eq.
  - rewrite existsb_exists. split.
    + intros [[a b'] [Hin Hm]]. cbn [fst snd match_pat] in Hm.
      apply andb_true_iff in Hm. destruct Hm as [Ha Hb].
      apply String.eqb_eq in Ha. apply IH in Hb. apply splits_In in Hin.
      now subst.
    + intros ->. exists (String c EmptyString, t). split.
      * now apply splits_In.
      * cbn [fst snd match_pat]. rewrite String.eqb_refl. now apply IH.
Qed.

Lemma rstrip_no_space (s : string) :
  all_chars (fun c => negb (isspace c)) s = true -> rstrip s = s.
Proof.
  induction s as [|c s IH]; [reflexivity|]. cbn [all_chars rstrip].
  intros H. apply andb_true_iff in H. destruct H as [Hc Hs].
  rewrite (IH Hs). apply negb_true_iff in Hc. rewrite Hc. now destruct s.
Qed.

Lemma remove_space_no_space (s : string) :
  all_chars (fun c => negb (isspace c)) s = true -> remove_space s = s.
Proof.
  induction s as [|c s IH]; [reflexivity|]. cbn [all_chars remove_space].
  intros H. apply andb_true_iff in H. destruct H as [Hc Hs].
  apply negb_true_iff in Hc. now rewrite Hc, (IH Hs).
Qed.

Lemma all_chars_weaken (f g : ascii -> bool) (s : string) :
  (forall c, f c = true -> g c = true) ->
  all_chars f s = true -> all_chars g s = true.
Proof.
  intros Hfg. induction s as [|c s IH]; [reflexivity|]. cbn [all_chars].
  intros H. apply andb_true_iff in H. destruct H as [Hc Hs].
  now rewrite (Hfg c Hc), (IH Hs).
Qed.

Lemma contains_none (d : ascii) (f : ascii -> bool) (s : string) :
  (forall c, f c = true -> Ascii.eqb d c = false) ->
  all_chars f s = true -> contains d s = false.
Proof.
  intros Hf. induction s as [|c s IH]; [reflexivity|]. cbn [all_chars contains].
  intros H. apply andb_true_iff in H. destruct H as [Hc Hs].
  now rewrite (Hf c Hc), (IH Hs).
Qed.

(** The shape of an extension shorthand. *)
Lemma ext_shorthand_shape (tok : string) :
  ext_shorthand tok = true ->
  exists c e, tok = String "." (String c e)
              /\ all_chars name_char tok = true.
Proof.
  destruct tok as [|d s]; [discriminate|]. cbn [ext_shorthand].
  intros H. apply andb_true_iff in H. destruct H as [H Ha].
  apply andb_true_iff in H. destruct H as [H _].
  apply andb_true_iff in H. destruct H as [Hd Hl].
  apply Ascii.eqb_eq in Hd. subst d.
  destruct s as [|c e]; [discriminate Hl|].
  exists c, e. split; [reflexivity|].
  pose proof (all_chars_weaken is_alnum
                name_char (String c e)
                (fun x Hx => eq_trans
                               (f_equal (fun b => b || Ascii.eqb x "."
                                                  || Ascii.eqb x "-"
                                                  || Ascii.eqb x "_") Hx)
                               eq_refl) Ha) as Hg.
  change (true && all_chars name_char (String c e)
          = true).
  now rewrite Hg.
Qed.

Lemma normalize_ext_shorthand (tok : string) :
  ext_shorthand tok = true -> _normalize_pattern tok = "*" ++ tok.
Proof.
  intros H. destruct (ext_shorthand_shape tok H) as (c & e & -> & Hall).
  assert (Hns : all_chars (fun c => negb (isspace c)) (String "." (String c e)) = true).
  { apply (all_chars_weaken _ _ _ (fun x Hx =>
       eq_trans (f_equal negb (proj1 (name_char_facts x Hx))) eq_refl) Hall). }
  assert (Hsl : contains "/" (String "." (String c e)) = false).
  { apply (contains_none "/" _ _ (fun x Hx =>
       proj2 (proj2 (proj2 (name_char_facts x Hx)))) Hall). }
  unfold _normalize_pattern, strip.
  change (lstrip (String "." (String c e))) with (String "." (String c e)).
  rewrite (rstrip_no_space _ Hns), (remove_space_no_space _ Hns), Hsl.
  assert (Hc : Ascii.eqb c "*" = false).
  { cbn [all_chars] in Hall. apply andb_true_iff in Hall.
    destruct Hall as [_ Hall]. apply andb_true_iff in Hall.
    destruct Hall as [Hc _].
    destruct c as [[] [] [] [] [] [] [] []]; vm_compute in Hc;
      try discriminate Hc; reflexivity. }
  cbn [String.eqb]. change (Ascii.eqb "." "*") with false.
  reflexivity.
Qed.

Lemma parse_seq_star_dot (rest : string) (f : nat) :
  parse_seq (S f) false (String "*" (String "." rest))
  = (PStar :: fst (parse_seq f false (String "." rest)),
     snd (parse_seq f false (String "." rest))).
Proof.
  cbn [parse_seq andb]. change (ext_op_of "*") with (Some StarOf).
  change (Ascii.eqb "." "(") with false. cbn iota.
  change (parse_plain "*" (String "." rest)) with (PStar, String "." rest).
  cbn iota. now destruct (parse_seq f false (String "." rest)).
Qed.

Lemma parse_star_names (tok : string) :
  ext_shorthand tok = true ->
  parse ("*" ++ tok) = PStar :: map PChar (list_ascii_of_string tok).
Proof.
  intros H. destruct (ext_shorthand_shape tok H) as (c & e & E & Hall).
  subst tok. unfold parse. cbn [append String.length].
  replace (2 * S (S (S (String.length e))) + 2)%nat
    with (S (2 * String.length e + 7))%nat by lia.
  rewrite parse_seq_star_dot.
  rewrite (parse_seq_name_chars _ Hall) by (cbn [String.length]; lia).
  reflexivity.
Qed.

Lemma plain_name_matches_itself (pat base : string) :
  plain_name pat = true -> glob_match pat base = String.eqb base pat.
Proof.
  intros Hp. unfold glob_match, match_seq, parse.
  rewrite (parse_seq_name_chars pat Hp) by lia. cbn [fst].
  apply eq_true_iff_eq. rewrite match_items_chars. symmetry. apply String.eqb_eq.
Qed.

(** X20: a table of plain names admits the names it lists and no other: when
    every entry is made of letters, digits, dots, hyphens and underscores,
    [matches_any] is membership in the table. *)
Theorem plain_names_match_literally (names : list string) (base : string) :
  Forall (fun n => plain_name n = true) names ->
  matches_any base names = mem base names.
Proof.
  intros H. unfold matches_any, mem.
  induction H as [|n names Hn _ IH]; [reflexivity|].
  cbn [existsb]. now rewrite (plain_name_matches_itself n base Hn), IH.
Qed.

Lemma plain_names_match_literally_witness :
  matches_any "src-2" ["src"; "src-2"; "docs_v1.0"]
  = mem "src-2" ["src"; "src-2"; "docs_v1.0"].
Proof.
  apply plain_names_match_literally. repeat constructor.
Defined.

(** X21: the extension shorthand means what it says: for a token made of a
    dot and one to five letters or digits, the normalised pattern matches a
    basename exactly when the basename ends in the token. *)
Theorem extension_shorthand_matches_suffix (tok name : string) :
  ext_shorthand tok = true ->
  glob_match (_normalize_pattern tok) name = true
  <-> exists stem, name = stem ++ tok.
Proof.
  intros H. rewrite (normalize_ext_shorthand tok H).
  unfold glob_match, match_seq. rewrite (parse_star_names tok H).
  cbn [match_items]. rewrite existsb_exists. split.
  - intros [[a b] [Hin Hm]]. cbn [fst snd match_pat andb] in Hm.
    apply match_items_chars in Hm. apply splits_In in Hin. subst b.
    now exists a.
  - intros [stem ->]. exists (stem, tok). split.
    + now apply splits_In.
    + cbn [fst snd match_pat andb]. now apply match_items_chars.
Qed.

Lemma extension_shorthand_matches_suffix_witness :
  glob_match (_normalize_pattern ".jpeg") "holiday.2024.jpeg" = true.
Proof.
  apply (proj2 (extension_shorthand_matches_suffix ".jpeg" "holiday.2024.jpeg"
                  eq_refl)).
  exists "holiday.2024". reflexivity.
Defined.

End NormalizerFacts.

Section BraceLists.
Import PyStr SpecPy Glob Compiler PatternNotions Scenarios.
Local Open Scope string_scope.

Lemma all_chars_app (f : ascii -> bool) (a b : string) :
  all_chars f (a ++ b) = all_chars f a && all_chars f b.
Proof.
  induction a as [|c a IH]; [reflexivity|]. cbn [append all_chars].
  now rewrite IH, andb_assoc.
Qed.

Lemma all_chars_join (f : ascii -> bool) (sep : string) (l : list string) :
  all_chars f sep = true ->
  Forall (fun e => all_chars f e = true) l ->
  all_chars f (join sep l) = true.
Proof.
  intros Hsep. induction 1 as [|e l He Hl IH]; [reflexivity|].
  destruct l as [|e' l]; [exact He|].
  change (join sep (e :: e' :: l)) with (e ++ sep ++ join sep (e' :: l)).
  now rewrite !all_chars_app, He, Hsep, IH.
Qed.

Lemma alnum_facts (c : ascii) :
  is_alnum c = true ->
  isspace c = false
  /\ Ascii.eqb c "|" = false
  /\ Ascii.eqb c ")" = false
  /\ ext_op_of c = None
  /\ (forall s', parse_plain c s' = (PChar c, s'))
  /\ Ascii.eqb "," c = false
  /\ Ascii.eqb "}" c = false.
Proof.
  destruct c as [[] [] [] [] [] [] [] []]; intros H; vm_compute in H;
    try discriminate H; repeat split.
Qed.

Lemma split_no_sep (c : ascii) (e : string) :
  contains c e = false -> split c e = [e].
Proof.
  induction e as [|d e IH]; [reflexivity|]. cbn [contains split].
  intros H. apply orb_false_iff in H. destruct H as [Hd He].
  now rewrite Hd, (IH He).
Qed.

Lemma split_app_sep (c : ascii) (e rest : string) :
  contains c e = false -> split c (e ++ String c rest) = e :: split c rest.
Proof.
  induction e as [|d e IH]; cbn [contains append split].
  - intros _. now rewrite Ascii.eqb_refl.
  - intros H. apply orb_false_iff in H. destruct H as [Hd He].
    now rewrite Hd, (IH He).
Qed.

Lemma split_join (c : ascii) (l : list string) :
  l <> [] ->
  Forall (fun e => contains c e = false) l ->
  split c (join (String c EmptyString) l) = l.
Proof.
  intros Hne H. induction H as [|e l He Hl IH]; [contradiction|].
  destruct l as [|e' l].
  - now apply split_no_sep.
  - change (join (String c EmptyString) (e :: e' :: l))
      with (e ++ String c (join (String c EmptyString) (e' :: l))).
    rewrite (split_app_sep c e _ He), IH; [reflexivity | discriminate].
Qed.

Lemma filter_all {A} (keep : A -> bool) (l : list A) :
  Forall (fun x => keep x = true) l -> filter keep l = l.
Proof.
  induction 1 as [|x l Hx _ IH]; [reflexivity|]. cbn [filter].
  now rewrite Hx, IH.
Qed.

(** Inside a group, letters and digits are read up to the bar or the
    closing parenthesis. *)
Lemma parse_seq_alternative (t : string) (close : bool) (rest : string) :
  all_chars is_alnum t = true ->
  forall fuel,
    (String.length t < fuel)%nat ->
    parse_seq fuel true (t ++ String (if close then ")" else "|")%char rest)
    = (map PChar (list_ascii_of_string t),
       if close then AtClose rest else AtBar rest).
Proof.
  induction t as [|c t IH]; intros Ht fuel Hf.
  - destruct fuel; [inversion Hf|]. now destruct close.
  - cbn [all_chars] in Ht. apply andb_true_iff in Ht. destruct Ht as [Hc Ht].
    destruct (alnum_facts c Hc) as (_ & Hbar & Hclose & Hop & Hplain & _).
    destruct fuel as [|fuel]; [inversion Hf|].
    cbn [String.length] in Hf.
    cbn [append parse_seq andb list_ascii_of_string map].
    rewrite Hbar, Hclose, Hop, Hplain.
    rewrite (IH Ht fuel) by lia. reflexivity.
Qed.

Lemma parse_alts_unfold (f : nat) (s : string) :
  parse_alts (S f) s
  = match parse_seq f true s with
    | (_, AtEnd) => None
    | (p, AtBar r) =>
        match parse_alts f r with
        | Some (alts, r') => Some (p :: alts, r')
        | None => None
        end
    | (p, AtClose r) => Some ([p], r)
    end.
Proof. reflexivity. Qed.

Lemma parse_alts_list (l : list string) (rest : string) :
  l <> [] ->
  Forall (fun e => all_chars is_alnum e = true) l ->
  forall fuel,
    (String.length (join "|" l) + 1 < fuel)%nat ->
    parse_alts fuel (join "|" l ++ String ")" rest)
    = Some (map (fun e => map PChar (list_ascii_of_string e)) l, rest).
Proof.
  intros Hne H. induction H as [|e l He Hl IH]; [contradiction|].
  intros fuel Hf. destruct fuel as [|fuel]; [inversion Hf|].
  rewrite parse_alts_unfold. destruct l as [|e' l].
  - cbn [join] in *.
    rewrite (parse_seq_alternative e true rest He) by lia. reflexivity.
  - change (join "|" (e :: e' :: l)) with (e ++ String "|" (join "|" (e' :: l)))
      in *.
    rewrite length_append in Hf. cbn [String.length] in Hf.
    rewrite append_assoc. cbn [append].
    rewrite (parse_seq_alternative e false _ He) by lia.
    rewrite IH; [reflexivity | discriminate | lia].
Qed.

Lemma match_items_cons (p : pat) (ps : list pat) (s : string) :
  match_items match_pat (p :: ps) s = true
  <-> exists a b, s = a ++ b /\ match_pat p a = true
                  /\ match_items match_pat ps b = true.
Proof.
  cbn [match_items]. rewrite existsb_exists. split.
  - intros [[a b] [Hin Hm]]. cbn [fst snd] in Hm.
    apply andb_true_iff in Hm. apply splits_In in Hin. now exists a, b.
  - intros (a & b & -> & Ha & Hb). exists (a, b). split.
    + now apply splits_In.
    + cbn [fst snd]. now rewrite Ha, Hb.
Qed.

Lemma match_one_of (l : list string) (s : string) :
  match_pat (PExt OneOf (map (fun e => map PChar (list_ascii_of_string e)) l)) s
  = true
  <-> In s l.
Proof.
  cbn [match_pat]. rewrite existsb_exists. split.
  - intros [alt [Hin Hm]]. apply in_map_iff in Hin.
    destruct Hin as [e [<- He]]. apply match_items_chars in Hm. now subst.
  - intros H. exists (map PChar (list_ascii_of_string s)). split.
    + apply in_map_iff. now exists s.
    + now apply match_items_chars.
Qed.

Lemma contains_join (d : ascii) (sep : string) (l : list string) :
  contains d sep = false ->
  Forall (fun e => contains d e = false) l ->
  contains d (join sep l) = false.
Proof.
  intros Hsep. induction 1 as [|e l He Hl IH]; [reflexivity|].
  destruct l as [|e' l]; [exact He|].
  change (join sep (e :: e' :: l)) with (e ++ sep ++ join sep (e' :: l)).
  now rewrite !contains_app, He, Hsep, IH.
Qed.

Lemma extensions_facts (exts : list string) :
  forallb extension exts = true ->
  Forall (fun e => all_chars is_alnum e = true) exts
  /\ Forall (fun e => negb (String.eqb e "") = true) exts
  /\ Forall (fun e => all_chars (fun c => negb (isspace c)) e = true) exts
  /\ Forall (fun e => contains "," e = false) exts
  /\ Forall (fun e => contains "}" e = false) exts.
Proof.
  intros H. rewrite forallb_forall in H.
  assert (Ha : forall e, In e exts -> all_chars is_alnum e = true).
  { intros e He. apply H in He. unfold extension in He.
    now apply andb_true_iff in He. }
  repeat split; apply Forall_forall; intros e He.
  - now apply Ha.
  - apply H in He. unfold extension in He. now apply andb_true_iff in He.
  - apply (all_chars_weaken is_alnum); [|now apply Ha].
    intros c Hc. now rewrite (proj1 (alnum_facts c Hc)).
  - apply (contains_none "," is_alnum); [|now apply Ha].
    intros c Hc. apply (alnum_facts c Hc).
  - apply (contains_none "}" is_alnum); [|now apply Ha].
    intros c Hc. apply (alnum_facts c Hc).
Qed.

Lemma normalize_brace_list (exts : list string) :
  exts <> [] ->
  forallb extension exts = true ->
  _normalize_pattern ("*.{" ++ join "," exts ++ "}")
  = "*.@(" ++ join "|" exts ++ ")".
Proof.
  intros Hne Hex.
  destruct (extensions_facts exts Hex) as (Ha & Hn & Hs & Hc & Hb).
  set (body := join "," exts).
  assert (Hbody_space : all_chars (fun c => negb (isspace c)) body = true).
  { apply all_chars_join; [reflexivity | exact Hs]. }
  assert (Hbody_close : contains "}" body = false).
  { apply contains_join; [reflexivity | exact Hb]. }
  assert (Hbody_ne : body <> "").
  { subst body. destruct exts as [|e l]; [contradiction|].
    inversion Hn as [|? ? He _]; subst.
    destruct e as [|c e]; [discriminate He|].
    destruct l; cbn; discriminate. }
  assert (Hraw_space :
            all_chars (fun c => negb (isspace c)) ("*.{" ++ body ++ "}") = true).
  { change ("*.{" ++ body ++ "}")
      with (String "*" (String "." (String "{" (body ++ "}")))).
    cbn [all_chars]. rewrite all_chars_app, Hbody_space. reflexivity. }
  unfold _normalize_pattern, strip.
  change (lstrip ("*.{" ++ body ++ "}")) with ("*.{" ++ body ++ "}").
  rewrite (rstrip_no_space _ Hraw_space), (remove_space_no_space _ Hraw_space).
  change (String.eqb ("*.{" ++ body ++ "}") "*.*") with false.
  change (startswith "." ("*.{" ++ body ++ "}")) with false.
  change (contains "{" ("*.{" ++ body ++ "}")) with true.
  assert (Hclose : contains "}" ("*.{" ++ body ++ "}") = true).
  { rewrite !contains_app. cbn. now rewrite !orb_true_r. }
  rewrite Hclose. cbn [andb negb].
  change ("*.{" ++ body ++ "}") with ("*." ++ "{" ++ body ++ "}" ++ "").
  rewrite (brace_sub_group "*." body "" eq_refl Hbody_ne Hbody_close).
  unfold alternation. subst body.
  rewrite (split_join "," exts Hne Hc), (filter_all _ exts Hn).
  cbn [brace_sub]. rewrite append_empty_r. reflexivity.
Qed.

Lemma parse_seq_dot (r : string) (f : nat) :
  parse_seq (S f) false (String "." r)
  = (PChar "." :: fst (parse_seq f false r), snd (parse_seq f false r)).
Proof.
  cbn [parse_seq andb]. change (ext_op_of ".") with (@None ext_op).
  cbn iota. change (parse_plain "." r) with (PChar ".", r). cbn iota.
  now destruct (parse_seq f false r).
Qed.

Lemma parse_seq_group (x r : string) (alts : list (list pat)) (f : nat) :
  parse_alts f x = Some (alts, r) ->
  parse_seq (S f) false (String "@" (String "(" x))
  = (PExt OneOf alts :: fst (parse_seq f false r), snd (parse_seq f false r)).
Proof.
  intros H. cbn [parse_seq andb]. change (ext_op_of "@") with (Some OneOf).
  cbn iota. change (Ascii.eqb "(" "(") with true. cbn iota.
  rewrite H. now destruct (parse_seq f false r).
Qed.

Lemma parse_seq_empty (f : nat) (grp : bool) :
  parse_seq f grp EmptyString = ([], AtEnd).
Proof. now destruct f. Qed.

Lemma parse_brace_list (exts : list string) :
  exts <> [] ->
  Forall (fun e => all_chars is_alnum e = true) exts ->
  parse ("*.@(" ++ join "|" exts ++ ")")
  = [PStar; PChar ".";
     PExt OneOf (map (fun e => map PChar (list_ascii_of_string e)) exts)].
Proof.
  intros Hne Ha. unfold parse.
  change ("*.@(" ++ join "|" exts ++ ")")
    with (String "*" (String "." (String "@" (String "("
            (join "|" exts ++ String ")" EmptyString))))).
  cbn [String.length]. rewrite length_append. cbn [String.length].
  replace (2 * S (S (S (S (String.length (join "|" exts) + 1)))) + 2)%nat
    with (S (S (S (2 * String.length (join "|" exts) + 9))))%nat by lia.
  rewrite parse_seq_star_dot, parse_seq_dot.
  rewrite (parse_seq_group _ EmptyString
             (map (fun e => map PChar (list_ascii_of_string e)) exts)).
  - rewrite parse_seq_empty. reflexivity.
  - apply (parse_alts_list exts EmptyString Hne Ha). lia.
Qed.

(** X22: a brace list after [*.] matches the names with one of the listed
    extensions and no other: for extensions made of letters and digits, the
    normalised pattern matches a basename exactly when the basename ends in
    a dot and one of the extensions. *)
Theorem brace_list_matches_listed_extensions (exts : list string) (name : string) :
  exts <> [] ->
  forallb extension exts = true ->
  glob_match (_normalize_pattern ("*.{" ++ join "," exts ++ "}")) name = true
  <-> exists stem e, In e exts /\ name = stem ++ "." ++ e.
Proof.
  intros Hne Hex.
  destruct (extensions_facts exts Hex) as (Ha & _).
  rewrite (normalize_brace_list exts Hne Hex).
  unfold glob_match, match_seq. rewrite (parse_brace_list exts Hne Ha).
  rewrite match_items_cons. split.
  - intros (stem & b & -> & _ & Hb).
    apply match_items_cons in Hb. destruct Hb as (dot & y & -> & Hdot & Hy).
    apply match_items_cons in Hy. destruct Hy as (e & z & -> & He & Hz).
    cbn [match_pat] in Hdot. apply String.eqb_eq in Hdot. subst dot.
    cbn [match_items] in Hz. apply String.eqb_eq in Hz. subst z.
    apply match_one_of in He. exists stem, e. split; [exact He|].
    now rewrite append_empty_r.
  - intros (stem & e & He & ->). exists stem, ("." ++ e). split; [reflexivity|].
    split; [reflexivity|].
    apply match_items_cons. exists ".", e. split; [reflexivity|].
    split; [reflexivity|].
    apply match_items_cons. exists e, "". split; [now rewrite append_empty_r|].
    split; [now apply match_one_of | reflexivity].
Qed.

Lemma brace_list_matches_listed_extensions_witness :
  glob_match (_normalize_pattern ("*.{" ++ join "," ["svg"; "jpg"; "png"] ++ "}"))
             "logo.final.jpg" = true.
Proof.
  apply (proj2 (brace_list_matches_listed_extensions ["svg"; "jpg"; "png"]
                  "logo.final.jpg" ltac:(discriminate) eq_refl)).
  exists "logo.final", "jpg". split; [cbn; tauto | reflexivity].
Defined.

End BraceLists.

Section OrderedChecks.
Import PyStr SpecPy Compiler Cli Props TreeFS Naming Ordered Scenarios.
Local Open Scope string_scope.


















End OrderedChecks.
